(** * Pathfinder: A* search engines (generic, cached, 8-direction tile)

    A shallow embedding of the three engine classes of the Pathfinder
    library ([AStarGeneric], [AStarGenericCached], [AStarTile8DirCached])
    and the properties of their search loops.

    Conventions of the embedding:
    - [COSTTYPE] is instantiated at an integer type; costs are [Z] and
      cost arithmetic does not overflow.
    - an [astarnode *] is an address [ptr]; the free store maps addresses
      to node records, [None] is the null pointer.  Reading through a null
      or unallocated pointer is undefined in C++; the functions below then
      return [None].
    - [long] indices are [Z]; where the code compares a [long] with a
      [size_t] the conversion to unsigned is written out ([to_size_t]).
    - [std::push_heap], [std::pop_heap] and [std::make_heap] are taken
      through their contract in the C++ standard (class [StdHeap]); the
      order among equal keys is left to the implementation. *)

From Stdlib Require Import ZArith Lia Sorting.Sorted.
From stdpp Require Import base option list gmap.

Open Scope Z_scope.

(** ** Result codes (pathfinder.h) *)

Inductive PathResult : Set :=
| PATH_FOUND
| PATH_NOTFOUND
| PATH_SEARCHING.

Definition PathResult_code (r : PathResult) : Z :=
  match r with
  | PATH_FOUND => 1
  | PATH_NOTFOUND => 2
  | PATH_SEARCHING => 3
  end.

(** ** Addresses and the node allocator *)

Definition ptr := nat.

(** [astarallocator]: [m_mem[0..m_mempos)] is a stack of released nodes,
    kept here with its top first.  [alloc_next] is the next address the
    global [new] hands out. *)
Record astarallocator : Set := {
  m_mem : list ptr;
  alloc_next : ptr
}.

Definition allocate (a : astarallocator) : ptr * astarallocator :=
  match m_mem a with
  | p :: rest => (p, {| m_mem := rest; alloc_next := alloc_next a |})
  | [] => (alloc_next a, {| m_mem := []; alloc_next := S (alloc_next a) |})
  end.

Definition deallocate (p : ptr) (a : astarallocator) : astarallocator :=
  {| m_mem := p :: m_mem a; alloc_next := alloc_next a |}.

(** The loops of [ClearOpenList] and [ClearClosedList]. *)
Definition deallocate_all (l : list ptr) (a : astarallocator) : astarallocator :=
  foldl (fun a p => deallocate p a) a l.

(** ** The heap algorithms of the C++ standard library *)

Section heap_contract.
Variable comp : ptr -> ptr -> bool.

(** [comp] is a strict weak ordering. *)
Record strict_weak : Prop := {
  sw_irrefl : forall a, comp a a = false;
  sw_trans : forall a b c, comp a b = true -> comp b c = true -> comp a c = true;
  sw_incomp : forall a b c, comp a b = false -> comp b c = false -> comp a c = false
}.

(** [std::is_heap]: no element compares greater than its parent. *)
Definition is_heap (l : list ptr) : Prop :=
  forall i p c, (0 < i)%nat ->
    l !! ((i - 1) / 2)%nat = Some p -> l !! i = Some c -> comp p c = false.
End heap_contract.

(** The contract of [<algorithm>]: what [push_heap], [pop_heap] and
    [make_heap] guarantee for a range held in a vector.  [pop_heap] moves
    the front to the back and leaves a heap in front of it. *)
Class StdHeap := {
  push_heap : (ptr -> ptr -> bool) -> list ptr -> list ptr;
  pop_heap : (ptr -> ptr -> bool) -> list ptr -> list ptr;
  make_heap : (ptr -> ptr -> bool) -> list ptr -> list ptr;
  push_heap_spec comp l :
    strict_weak comp -> is_heap comp (removelast l) ->
    push_heap comp l ≡ₚ l /\ is_heap comp (push_heap comp l);
  pop_heap_spec comp x l :
    strict_weak comp -> is_heap comp (x :: l) ->
    exists rest, pop_heap comp (x :: l) = rest ++ [x] /\ rest ≡ₚ l /\ is_heap comp rest;
  make_heap_spec comp l :
    strict_weak comp -> make_heap comp l ≡ₚ l /\ is_heap comp (make_heap comp l)
}.

(** *** A conforming implementation

    A range sorted by [comp] (greatest first) is a heap, so sorting is a
    valid, if slow, way to build one. *)

Fixpoint heap_insert (comp : ptr -> ptr -> bool) (x : ptr) (l : list ptr) : list ptr :=
  match l with
  | [] => [x]
  | y :: l' => if comp x y then y :: heap_insert comp x l' else x :: l
  end.

Definition heap_by_sorting (comp : ptr -> ptr -> bool) (l : list ptr) : list ptr :=
  foldr (heap_insert comp) [] l.

Definition sorted_pop_heap (comp : ptr -> ptr -> bool) (l : list ptr) : list ptr :=
  match l with
  | [] => []
  | x :: l' => heap_by_sorting comp l' ++ [x]
  end.

(** [a] is not ordered before [b]. *)
Definition not_less (comp : ptr -> ptr -> bool) (a b : ptr) : Prop := comp a b = false.
(** ** AStarGeneric (pathfinderastargeneric.h) *)

Module Generic.
Section AStarGeneric.
Context {NODETYPE : Type} `{Countable NODETYPE}.
Context {heap : StdHeap}.

(** The functor types [DESTCOST] and [GETNEIGHBORS]: a [GETNEIGHBORS]
    functor is given by the calls it makes to the [AddNeighborFunctor],
    in order. *)
Definition DESTCOST : Type := NODETYPE -> NODETYPE -> Z.
Definition GETNEIGHBORS : Type := NODETYPE -> list (NODETYPE * Z).

Record astarnode : Type := {
  m_node : NODETYPE;
  m_parent : option ptr;
  m_f : Z;
  m_g : Z;
  m_h : Z
}.

(** [listelement]; its [m_node] field is [le_node] here. *)
Record listelement : Type := {
  le_node : option ptr;
  m_onopen : bool;
  m_onclosed : bool
}.

Definition listelement_new : listelement :=
  {| le_node := None; m_onopen := false; m_onclosed := false |}.

Record AStarGeneric : Type := {
  store : gmap ptr astarnode;
  m_astarnodeallocator : astarallocator;
  m_openlist : list ptr;
  m_closedlist : list ptr;
  m_helperlist : gmap NODETYPE listelement;
  m_currentnode : option ptr;
  m_astaropen : option ptr;
  m_start : option NODETYPE;
  m_goal : option NODETYPE;
  m_destinationcost : option DESTCOST;
  m_getneighbors : option GETNEIGHBORS
}.

(** The constructor. *)
Definition AStarGeneric_new : AStarGeneric :=
  {| store := ∅;
     m_astarnodeallocator := {| m_mem := []; alloc_next := 0%nat |};
     m_openlist := []; m_closedlist := []; m_helperlist := ∅;
     m_currentnode := None; m_astaropen := None;
     m_start := None; m_goal := None;
     m_destinationcost := None; m_getneighbors := None |}.

Definition set_store v (s : AStarGeneric) : AStarGeneric :=
  {| store := v; m_astarnodeallocator := m_astarnodeallocator s;
     m_openlist := m_openlist s; m_closedlist := m_closedlist s;
     m_helperlist := m_helperlist s; m_currentnode := m_currentnode s;
     m_astaropen := m_astaropen s; m_start := m_start s; m_goal := m_goal s;
     m_destinationcost := m_destinationcost s; m_getneighbors := m_getneighbors s |}.
Definition set_allocator v (s : AStarGeneric) : AStarGeneric :=
  {| store := store s; m_astarnodeallocator := v;
     m_openlist := m_openlist s; m_closedlist := m_closedlist s;
     m_helperlist := m_helperlist s; m_currentnode := m_currentnode s;
     m_astaropen := m_astaropen s; m_start := m_start s; m_goal := m_goal s;
     m_destinationcost := m_destinationcost s; m_getneighbors := m_getneighbors s |}.
Definition set_openlist v (s : AStarGeneric) : AStarGeneric :=
  {| store := store s; m_astarnodeallocator := m_astarnodeallocator s;
     m_openlist := v; m_closedlist := m_closedlist s;
     m_helperlist := m_helperlist s; m_currentnode := m_currentnode s;
     m_astaropen := m_astaropen s; m_start := m_start s; m_goal := m_goal s;
     m_destinationcost := m_destinationcost s; m_getneighbors := m_getneighbors s |}.
Definition set_closedlist v (s : AStarGeneric) : AStarGeneric :=
  {| store := store s; m_astarnodeallocator := m_astarnodeallocator s;
     m_openlist := m_openlist s; m_closedlist := v;
     m_helperlist := m_helperlist s; m_currentnode := m_currentnode s;
     m_astaropen := m_astaropen s; m_start := m_start s; m_goal := m_goal s;
     m_destinationcost := m_destinationcost s; m_getneighbors := m_getneighbors s |}.
Definition set_helperlist v (s : AStarGeneric) : AStarGeneric :=
  {| store := store s; m_astarnodeallocator := m_astarnodeallocator s;
     m_openlist := m_openlist s; m_closedlist := m_closedlist s;
     m_helperlist := v; m_currentnode := m_currentnode s;
     m_astaropen := m_astaropen s; m_start := m_start s; m_goal := m_goal s;
     m_destinationcost := m_destinationcost s; m_getneighbors := m_getneighbors s |}.
Definition set_currentnode v (s : AStarGeneric) : AStarGeneric :=
  {| store := store s; m_astarnodeallocator := m_astarnodeallocator s;
     m_openlist := m_openlist s; m_closedlist := m_closedlist s;
     m_helperlist := m_helperlist s; m_currentnode := v;
     m_astaropen := m_astaropen s; m_start := m_start s; m_goal := m_goal s;
     m_destinationcost := m_destinationcost s; m_getneighbors := m_getneighbors s |}.
Definition set_astaropen v (s : AStarGeneric) : AStarGeneric :=
  {| store := store s; m_astarnodeallocator := m_astarnodeallocator s;
     m_openlist := m_openlist s; m_closedlist := m_closedlist s;
     m_helperlist := m_helperlist s; m_currentnode := m_currentnode s;
     m_astaropen := v; m_start := m_start s; m_goal := m_goal s;
     m_destinationcost := m_destinationcost s; m_getneighbors := m_getneighbors s |}.
Definition set_start v (s : AStarGeneric) : AStarGeneric :=
  {| store := store s; m_astarnodeallocator := m_astarnodeallocator s;
     m_openlist := m_openlist s; m_closedlist := m_closedlist s;
     m_helperlist := m_helperlist s; m_currentnode := m_currentnode s;
     m_astaropen := m_astaropen s; m_start := v; m_goal := m_goal s;
     m_destinationcost := m_destinationcost s; m_getneighbors := m_getneighbors s |}.
Definition set_goal v (s : AStarGeneric) : AStarGeneric :=
  {| store := store s; m_astarnodeallocator := m_astarnodeallocator s;
     m_openlist := m_openlist s; m_closedlist := m_closedlist s;
     m_helperlist := m_helperlist s; m_currentnode := m_currentnode s;
     m_astaropen := m_astaropen s; m_start := m_start s; m_goal := v;
     m_destinationcost := m_destinationcost s; m_getneighbors := m_getneighbors s |}.
Definition set_destinationcost v (s : AStarGeneric) : AStarGeneric :=
  {| store := store s; m_astarnodeallocator := m_astarnodeallocator s;
     m_openlist := m_openlist s; m_closedlist := m_closedlist s;
     m_helperlist := m_helperlist s; m_currentnode := m_currentnode s;
     m_astaropen := m_astaropen s; m_start := m_start s; m_goal := m_goal s;
     m_destinationcost := v; m_getneighbors := m_getneighbors s |}.
Definition set_getneighbors v (s : AStarGeneric) : AStarGeneric :=
  {| store := store s; m_astarnodeallocator := m_astarnodeallocator s;
     m_openlist := m_openlist s; m_closedlist := m_closedlist s;
     m_helperlist := m_helperlist s; m_currentnode := m_currentnode s;
     m_astaropen := m_astaropen s; m_start := m_start s; m_goal := m_goal s;
     m_destinationcost := m_destinationcost s; m_getneighbors := v |}.

(** [p->field] for a possibly null [p]. *)
Definition deref (st : gmap ptr astarnode) (p : option ptr) : option astarnode :=
  p ≫= (st !!.).

(** [astarnodecompare]: [right->m_f < left->m_f]. *)
Definition node_f (st : gmap ptr astarnode) (p : ptr) : Z :=
  from_option m_f 0 (st !! p).
Definition astarnodecompare (st : gmap ptr astarnode) (left right : ptr) : bool :=
  node_f st right <? node_f st left.

(** [m_helperlist[n]]: [std::map::operator[]] yields a fresh
    [listelement] for a key that is not in the map. *)
Definition hl (s : AStarGeneric) (n : NODETYPE) : listelement :=
  default listelement_new (m_helperlist s !! n).

Definition AddNeighbor (neighbor : NODETYPE) (movecost : Z) (s : AStarGeneric)
  : option AStarGeneric :=
  if m_onclosed (hl s neighbor) then Some s
  else
    let s := set_astaropen (le_node (hl s neighbor)) s in
    match m_astaropen s with
    | Some open =>
        cur ← deref (store s) (m_currentnode s);
        o ← store s !! open;
        if m_g cur + movecost <? m_g o then
          let st := <[open := {| m_node := m_node o;
                                 m_parent := m_currentnode s;
                                 m_f := m_g cur + movecost + m_h o;
                                 m_g := m_g cur + movecost;
                                 m_h := m_h o |}]> (store s) in
          Some (set_openlist (make_heap (astarnodecompare st) (m_openlist s))
                  (set_store st s))
        else Some s
    | None =>
        let '(newnode, a) := allocate (m_astarnodeallocator s) in
        cur ← deref (store s) (m_currentnode s);
        dc ← m_destinationcost s;
        goal ← m_goal s;
        let g := m_g cur + movecost in
        let h := dc neighbor goal in
        let st := <[newnode := {| m_node := neighbor;
                                   m_parent := m_currentnode s;
                                   m_f := g + h; m_g := g; m_h := h |}]> (store s) in
        let ol := push_heap (astarnodecompare st) (m_openlist s ++ [newnode]) in
        let e := hl s neighbor in
        Some (set_helperlist
                (<[neighbor := {| le_node := Some newnode; m_onopen := true;
                                  m_onclosed := m_onclosed e |}]> (m_helperlist s))
                (set_openlist ol (set_store st (set_allocator a s))))
    end.

(** A call [getneighbors(node, anf)]: the functor calls [AddNeighbor]
    once for each neighbour it reports. *)
Fixpoint add_neighbors (l : list (NODETYPE * Z)) (s : AStarGeneric) : option AStarGeneric :=
  match l with
  | [] => Some s
  | (neighbor, movecost) :: l' => s' ← AddNeighbor neighbor movecost s; add_neighbors l' s'
  end.

Definition ClearOpenList (s : AStarGeneric) : AStarGeneric :=
  set_openlist [] (set_allocator (deallocate_all (m_openlist s) (m_astarnodeallocator s)) s).

Definition ClearClosedList (s : AStarGeneric) : AStarGeneric :=
  set_closedlist [] (set_allocator (deallocate_all (m_closedlist s) (m_astarnodeallocator s)) s).

(** The start node and its entry in the lists, as [FindPath] and
    [InitializeStep] both set it up. *)
Definition push_start (start goal : NODETYPE) (destinationcost : DESTCOST)
    (s : AStarGeneric) : AStarGeneric :=
  let '(newnode, a) := allocate (m_astarnodeallocator s) in
  let g := destinationcost start goal in
  let st := <[newnode := {| m_node := start; m_parent := None;
                             m_f := g + 0; m_g := g; m_h := 0 |}]> (store s) in
  let ol := push_heap (astarnodecompare st) (m_openlist s ++ [newnode]) in
  let s := set_openlist ol (set_store st (set_allocator a s)) in
  let s := set_helperlist
             (<[start := {| le_node := Some newnode; m_onopen := m_onopen (hl s start);
                            m_onclosed := m_onclosed (hl s start) |}]> (m_helperlist s)) s in
  set_helperlist
    (<[start := {| le_node := le_node (hl s start); m_onopen := true;
                   m_onclosed := m_onclosed (hl s start) |}]> (m_helperlist s)) s.

(** Taking the front of the open list and moving it to the closed list
    (the first statements of the loop body of [FindPath] and of [Step]). *)
Definition close_front (s : AStarGeneric) : option AStarGeneric :=
  let s := set_currentnode (head (m_openlist s)) s in
  let s := set_openlist
             (removelast (pop_heap (astarnodecompare (store s)) (m_openlist s))) s in
  cur ← deref (store s) (m_currentnode s);
  let e := hl s (m_node cur) in
  let s := set_helperlist
             (<[m_node cur := {| le_node := le_node e; m_onopen := false;
                                  m_onclosed := m_onclosed e |}]> (m_helperlist s)) s in
  p ← m_currentnode s;
  let s := set_closedlist (m_closedlist s ++ [p]) s in
  let e := hl s (m_node cur) in
  Some (set_helperlist
          (<[m_node cur := {| le_node := le_node e; m_onopen := m_onopen e;
                               m_onclosed := true |}]> (m_helperlist s)) s).

(** The loop [while(cnode) { path.push_back(cnode->m_node);
    cnode=cnode->m_parent; }]; [fuel] bounds its iterations. *)
Fixpoint walk_parents (fuel : nat) (st : gmap ptr astarnode) (cnode : option ptr)
    (path : list NODETYPE) : option (list NODETYPE) :=
  match cnode with
  | None => Some path
  | Some p =>
      match fuel with
      | O => None
      | S fuel' =>
          n ← st !! p;
          walk_parents fuel' st (m_parent n) (path ++ [m_node n])
      end
  end.

(** The [while(m_openlist.size()>0)] loop of [FindPath].  [fuel] bounds
    the iterations of the loop and of the path loop inside it; [None]
    stands for a run that has not returned within that bound. *)
Fixpoint FindPath_loop (fuel : nat) (goal : NODETYPE) (finalpath : list NODETYPE)
    (getneighbors : GETNEIGHBORS) (s : AStarGeneric)
  : option (PathResult * list NODETYPE * AStarGeneric) :=
  match m_openlist s with
  | [] => Some (PATH_NOTFOUND, finalpath, s)
  | _ :: _ =>
      match fuel with
      | O => None
      | S fuel' =>
          s ← close_front s;
          cur ← deref (store s) (m_currentnode s);
          if bool_decide (m_node cur ≠ goal) then
            s ← add_neighbors (getneighbors (m_node cur)) s;
            FindPath_loop fuel' goal finalpath getneighbors s
          else
            path ← walk_parents fuel' (store s) (m_currentnode s) [];
            Some (PATH_FOUND, path, set_currentnode None s)
      end
  end.

(** [FindPath] up to its [while] loop. *)
Definition FindPath_init (start goal : NODETYPE) (destinationcost : DESTCOST)
    (s : AStarGeneric) : AStarGeneric :=
  let s := ClearOpenList s in
  let s := ClearClosedList s in
  let s := set_helperlist ∅ s in
  let s := set_astaropen None s in
  let s := set_goal (Some goal) s in
  let s := set_destinationcost (Some destinationcost) s in
  let s := set_currentnode None s in
  push_start start goal destinationcost s.

Definition FindPath (fuel : nat) (start goal : NODETYPE) (finalpath : list NODETYPE)
    (destinationcost : DESTCOST) (getneighbors : GETNEIGHBORS) (s : AStarGeneric)
  : option (PathResult * list NODETYPE * AStarGeneric) :=
  FindPath_loop fuel goal finalpath getneighbors
    (FindPath_init start goal destinationcost s).

Definition GetPath (fuel : nat) (path : list NODETYPE) (s : AStarGeneric)
  : option (list NODETYPE) :=
  walk_parents fuel (store s) (m_currentnode s) [].

Definition InitializeStep (start goal : NODETYPE) (destinationcost : DESTCOST)
    (getneighbors : GETNEIGHBORS) (s : AStarGeneric) : AStarGeneric :=
  let s := set_start (Some start) s in
  let s := set_goal (Some goal) s in
  let s := set_destinationcost (Some destinationcost) s in
  let s := set_getneighbors (Some getneighbors) s in
  let s := ClearOpenList s in
  let s := ClearClosedList s in
  let s := set_helperlist ∅ s in
  let s := set_astaropen None s in
  let s := set_currentnode None s in
  push_start start goal destinationcost s.

Definition Step (s : AStarGeneric) : option (PathResult * AStarGeneric) :=
  match m_openlist s with
  | _ :: _ =>
      s ← close_front s;
      cur ← deref (store s) (m_currentnode s);
      goal ← m_goal s;
      if bool_decide (m_node cur ≠ goal) then
        gn ← m_getneighbors s;
        s ← add_neighbors (gn (m_node cur)) s;
        Some (PATH_SEARCHING, s)
      else Some (PATH_FOUND, s)
  | [] => Some (PATH_NOTFOUND, s)
  end.

(** A caller that steps until the search is over. *)
Fixpoint Step_until_done (fuel : nat) (s : AStarGeneric)
  : option (PathResult * AStarGeneric) :=
  match fuel with
  | O => None
  | S fuel' =>
      '(r, s') ← Step s;
      match r with
      | PATH_SEARCHING => Step_until_done fuel' s'
      | _ => Some (r, s')
      end
  end.

End AStarGeneric.
End Generic.

(** ** AStarGenericCached (pathfinderastargenericcached.h) *)

(** [size_t] is 64 bits wide: a [long] compared with a [size_t] is first
    converted to it. *)
Definition to_size_t (z : Z) : Z := z mod 2 ^ 64.

(** The growth of a vector that holds the entries of a window of indices
    starting at [start], so that it covers [index]: the body of [hl] and
    the same statements on [m_cache] in the cached engines.  The window
    takes [index] as its start when the vector is empty, grows at the
    front when [index] lies before the start and at the back when it lies
    past the end. *)
Definition window_grow {A : Type} (new : A) (index : Z) (v : list A) (start : Z)
  : list A * Z :=
  if (length v =? 0)%nat then ([new], index)
  else if index <? start then (replicate (Z.to_nat (start - index)) new ++ v, index)
  else if Z.of_nat (length v) <=? index - start then
    (v ++ replicate (Z.to_nat (index - start + 1 - Z.of_nat (length v))) new, start)
  else (v, start).

(** [v[index - start]]; an index outside the vector is undefined. *)
Definition window_at {A : Type} (v : list A) (start index : Z) : option A :=
  if index - start <? 0 then None else v !! Z.to_nat (index - start).

Definition window_set {A : Type} (v : list A) (start index : Z) (x : A) : list A :=
  <[Z.to_nat (index - start) := x]> v.

Module Cached.
Section AStarGenericCached.
Context {NODETYPE : Type} `{EqDecision NODETYPE}.
Context {heap : StdHeap}.

Definition DESTCOST : Type := NODETYPE -> NODETYPE -> Z.
(** A [GETNEIGHBORS] functor reports neighbour, neighbour index and
    move cost. *)
Definition GETNEIGHBORS : Type := NODETYPE -> list (NODETYPE * Z * Z).

Record astarnode : Type := {
  m_node : NODETYPE;
  m_parent : option ptr;
  m_f : Z;
  m_g : Z;
  m_h : Z;
  m_index : Z
}.

Record listelement : Type := {
  le_node : option ptr;
  m_onopen : bool;
  m_onclosed : bool
}.

Definition listelement_new : listelement :=
  {| le_node := None; m_onopen := false; m_onclosed := false |}.

Record cacheelement : Type := {
  m_hascache : bool;
  m_neighbors : list (NODETYPE * Z * Z)
}.

Definition cacheelement_new : cacheelement :=
  {| m_hascache := false; m_neighbors := [] |}.

Record AStarGenericCached : Type := {
  store : gmap ptr astarnode;
  m_astarnodeallocator : astarallocator;
  m_openlist : list ptr;
  m_closedlist : list ptr;
  m_helperlist : list listelement;
  m_helperliststartindex : Z;
  m_currentnode : option ptr;
  m_astaropen : option ptr;
  m_start : option NODETYPE;
  m_goal : option NODETYPE;
  m_destinationcost : option DESTCOST;
  m_getneighbors : option GETNEIGHBORS;
  m_cache : list cacheelement;
  m_cachestartindex : Z
}.

Definition AStarGenericCached_new : AStarGenericCached :=
  {| store := ∅;
     m_astarnodeallocator := {| m_mem := []; alloc_next := 0%nat |};
     m_openlist := []; m_closedlist := [];
     m_helperlist := []; m_helperliststartindex := 0;
     m_currentnode := None; m_astaropen := None;
     m_start := None; m_goal := None;
     m_destinationcost := None; m_getneighbors := None;
     m_cache := []; m_cachestartindex := 0 |}.

Definition set_store v (s : AStarGenericCached) : AStarGenericCached :=
  {| store := v; m_astarnodeallocator := m_astarnodeallocator s;
     m_openlist := m_openlist s; m_closedlist := m_closedlist s;
     m_helperlist := m_helperlist s;
     m_helperliststartindex := m_helperliststartindex s;
     m_currentnode := m_currentnode s; m_astaropen := m_astaropen s;
     m_start := m_start s; m_goal := m_goal s;
     m_destinationcost := m_destinationcost s; m_getneighbors := m_getneighbors s;
     m_cache := m_cache s; m_cachestartindex := m_cachestartindex s |}.
Definition set_allocator v (s : AStarGenericCached) : AStarGenericCached :=
  {| store := store s; m_astarnodeallocator := v; m_openlist := m_openlist s;
     m_closedlist := m_closedlist s; m_helperlist := m_helperlist s;
     m_helperliststartindex := m_helperliststartindex s;
     m_currentnode := m_currentnode s; m_astaropen := m_astaropen s;
     m_start := m_start s; m_goal := m_goal s;
     m_destinationcost := m_destinationcost s; m_getneighbors := m_getneighbors s;
     m_cache := m_cache s; m_cachestartindex := m_cachestartindex s |}.
Definition set_openlist v (s : AStarGenericCached) : AStarGenericCached :=
  {| store := store s; m_astarnodeallocator := m_astarnodeallocator s;
     m_openlist := v; m_closedlist := m_closedlist s; m_helperlist := m_helperlist s;
     m_helperliststartindex := m_helperliststartindex s;
     m_currentnode := m_currentnode s; m_astaropen := m_astaropen s;
     m_start := m_start s; m_goal := m_goal s;
     m_destinationcost := m_destinationcost s; m_getneighbors := m_getneighbors s;
     m_cache := m_cache s; m_cachestartindex := m_cachestartindex s |}.
Definition set_closedlist v (s : AStarGenericCached) : AStarGenericCached :=
  {| store := store s; m_astarnodeallocator := m_astarnodeallocator s;
     m_openlist := m_openlist s; m_closedlist := v; m_helperlist := m_helperlist s;
     m_helperliststartindex := m_helperliststartindex s;
     m_currentnode := m_currentnode s; m_astaropen := m_astaropen s;
     m_start := m_start s; m_goal := m_goal s;
     m_destinationcost := m_destinationcost s; m_getneighbors := m_getneighbors s;
     m_cache := m_cache s; m_cachestartindex := m_cachestartindex s |}.
Definition set_helperlist v (s : AStarGenericCached) : AStarGenericCached :=
  {| store := store s; m_astarnodeallocator := m_astarnodeallocator s;
     m_openlist := m_openlist s; m_closedlist := m_closedlist s; m_helperlist := v;
     m_helperliststartindex := m_helperliststartindex s;
     m_currentnode := m_currentnode s; m_astaropen := m_astaropen s;
     m_start := m_start s; m_goal := m_goal s;
     m_destinationcost := m_destinationcost s; m_getneighbors := m_getneighbors s;
     m_cache := m_cache s; m_cachestartindex := m_cachestartindex s |}.
Definition set_helperliststartindex v (s : AStarGenericCached) : AStarGenericCached :=
  {| store := store s; m_astarnodeallocator := m_astarnodeallocator s;
     m_openlist := m_openlist s; m_closedlist := m_closedlist s;
     m_helperlist := m_helperlist s; m_helperliststartindex := v;
     m_currentnode := m_currentnode s; m_astaropen := m_astaropen s;
     m_start := m_start s; m_goal := m_goal s;
     m_destinationcost := m_destinationcost s; m_getneighbors := m_getneighbors s;
     m_cache := m_cache s; m_cachestartindex := m_cachestartindex s |}.
Definition set_currentnode v (s : AStarGenericCached) : AStarGenericCached :=
  {| store := store s; m_astarnodeallocator := m_astarnodeallocator s;
     m_openlist := m_openlist s; m_closedlist := m_closedlist s;
     m_helperlist := m_helperlist s;
     m_helperliststartindex := m_helperliststartindex s; m_currentnode := v;
     m_astaropen := m_astaropen s; m_start := m_start s; m_goal := m_goal s;
     m_destinationcost := m_destinationcost s; m_getneighbors := m_getneighbors s;
     m_cache := m_cache s; m_cachestartindex := m_cachestartindex s |}.
Definition set_astaropen v (s : AStarGenericCached) : AStarGenericCached :=
  {| store := store s; m_astarnodeallocator := m_astarnodeallocator s;
     m_openlist := m_openlist s; m_closedlist := m_closedlist s;
     m_helperlist := m_helperlist s;
     m_helperliststartindex := m_helperliststartindex s;
     m_currentnode := m_currentnode s; m_astaropen := v; m_start := m_start s;
     m_goal := m_goal s; m_destinationcost := m_destinationcost s;
     m_getneighbors := m_getneighbors s; m_cache := m_cache s;
     m_cachestartindex := m_cachestartindex s |}.
Definition set_start v (s : AStarGenericCached) : AStarGenericCached :=
  {| store := store s; m_astarnodeallocator := m_astarnodeallocator s;
     m_openlist := m_openlist s; m_closedlist := m_closedlist s;
     m_helperlist := m_helperlist s;
     m_helperliststartindex := m_helperliststartindex s;
     m_currentnode := m_currentnode s; m_astaropen := m_astaropen s; m_start := v;
     m_goal := m_goal s; m_destinationcost := m_destinationcost s;
     m_getneighbors := m_getneighbors s; m_cache := m_cache s;
     m_cachestartindex := m_cachestartindex s |}.
Definition set_goal v (s : AStarGenericCached) : AStarGenericCached :=
  {| store := store s; m_astarnodeallocator := m_astarnodeallocator s;
     m_openlist := m_openlist s; m_closedlist := m_closedlist s;
     m_helperlist := m_helperlist s;
     m_helperliststartindex := m_helperliststartindex s;
     m_currentnode := m_currentnode s; m_astaropen := m_astaropen s;
     m_start := m_start s; m_goal := v; m_destinationcost := m_destinationcost s;
     m_getneighbors := m_getneighbors s; m_cache := m_cache s;
     m_cachestartindex := m_cachestartindex s |}.
Definition set_destinationcost v (s : AStarGenericCached) : AStarGenericCached :=
  {| store := store s; m_astarnodeallocator := m_astarnodeallocator s;
     m_openlist := m_openlist s; m_closedlist := m_closedlist s;
     m_helperlist := m_helperlist s;
     m_helperliststartindex := m_helperliststartindex s;
     m_currentnode := m_currentnode s; m_astaropen := m_astaropen s;
     m_start := m_start s; m_goal := m_goal s; m_destinationcost := v;
     m_getneighbors := m_getneighbors s; m_cache := m_cache s;
     m_cachestartindex := m_cachestartindex s |}.
Definition set_getneighbors v (s : AStarGenericCached) : AStarGenericCached :=
  {| store := store s; m_astarnodeallocator := m_astarnodeallocator s;
     m_openlist := m_openlist s; m_closedlist := m_closedlist s;
     m_helperlist := m_helperlist s;
     m_helperliststartindex := m_helperliststartindex s;
     m_currentnode := m_currentnode s; m_astaropen := m_astaropen s;
     m_start := m_start s; m_goal := m_goal s;
     m_destinationcost := m_destinationcost s; m_getneighbors := v;
     m_cache := m_cache s; m_cachestartindex := m_cachestartindex s |}.
Definition set_cache v (s : AStarGenericCached) : AStarGenericCached :=
  {| store := store s; m_astarnodeallocator := m_astarnodeallocator s;
     m_openlist := m_openlist s; m_closedlist := m_closedlist s;
     m_helperlist := m_helperlist s;
     m_helperliststartindex := m_helperliststartindex s;
     m_currentnode := m_currentnode s; m_astaropen := m_astaropen s;
     m_start := m_start s; m_goal := m_goal s;
     m_destinationcost := m_destinationcost s; m_getneighbors := m_getneighbors s;
     m_cache := v; m_cachestartindex := m_cachestartindex s |}.
Definition set_cachestartindex v (s : AStarGenericCached) : AStarGenericCached :=
  {| store := store s; m_astarnodeallocator := m_astarnodeallocator s;
     m_openlist := m_openlist s; m_closedlist := m_closedlist s;
     m_helperlist := m_helperlist s;
     m_helperliststartindex := m_helperliststartindex s;
     m_currentnode := m_currentnode s; m_astaropen := m_astaropen s;
     m_start := m_start s; m_goal := m_goal s;
     m_destinationcost := m_destinationcost s; m_getneighbors := m_getneighbors s;
     m_cache := m_cache s; m_cachestartindex := v |}.

Definition deref (st : gmap ptr astarnode) (p : option ptr) : option astarnode :=
  p ≫= (st !!.).

Definition node_f (st : gmap ptr astarnode) (p : ptr) : Z :=
  from_option m_f 0 (st !! p).
Definition astarnodecompare (st : gmap ptr astarnode) (left right : ptr) : bool :=
  node_f st right <? node_f st left.

(** [hl(index)] grows the window of [m_helperlist]; the reference it
    returns is read with [helper_at]. *)
Definition hl (index : Z) (s : AStarGenericCached) : AStarGenericCached :=
  let '(v, start) :=
    window_grow listelement_new index (m_helperlist s) (m_helperliststartindex s) in
  set_helperliststartindex start (set_helperlist v s).

Definition helper_at (s : AStarGenericCached) (index : Z) : option listelement :=
  window_at (m_helperlist s) (m_helperliststartindex s) index.

Definition helper_set (index : Z) (e : listelement) (s : AStarGenericCached)
  : AStarGenericCached :=
  set_helperlist (window_set (m_helperlist s) (m_helperliststartindex s) index e) s.

(** The first statement of [AddNeighborCached]: the relaxation of one
    neighbour. *)
Definition relax (neighbor : NODETYPE) (neighborindex movecost : Z)
    (s : AStarGenericCached) : option AStarGenericCached :=
  let s := hl neighborindex s in
  e ← helper_at s neighborindex;
  if m_onclosed e then Some s
  else
    let s := set_astaropen (le_node e) s in
    match m_astaropen s with
    | Some open =>
        cur ← deref (store s) (m_currentnode s);
        o ← store s !! open;
        if m_g cur + movecost <? m_g o then
          let st := <[open := {| m_node := m_node o;
                                 m_parent := m_currentnode s;
                                 m_f := m_g cur + movecost + m_h o;
                                 m_g := m_g cur + movecost;
                                 m_h := m_h o;
                                 m_index := m_index o |}]> (store s) in
          Some (set_openlist (make_heap (astarnodecompare st) (m_openlist s))
                  (set_store st s))
        else Some s
    | None =>
        let '(newnode, a) := allocate (m_astarnodeallocator s) in
        cur ← deref (store s) (m_currentnode s);
        dc ← m_destinationcost s;
        goal ← m_goal s;
        let g := m_g cur + movecost in
        let h := dc neighbor goal in
        let st := <[newnode := {| m_node := neighbor;
                                   m_parent := m_currentnode s;
                                   m_f := g + h; m_g := g; m_h := h;
                                   m_index := neighborindex |}]> (store s) in
        let ol := push_heap (astarnodecompare st) (m_openlist s ++ [newnode]) in
        let s := set_openlist ol (set_store st (set_allocator a s)) in
        e ← helper_at s neighborindex;
        let s := helper_set neighborindex
                   {| le_node := le_node e; m_onopen := true;
                      m_onclosed := m_onclosed e |} s in
        e ← helper_at s neighborindex;
        Some (helper_set neighborindex
                {| le_node := Some newnode; m_onopen := m_onopen e;
                   m_onclosed := m_onclosed e |} s)
    end.

(** The rest of [AddNeighborCached]: the neighbour is appended to the
    cache entry of the node under expansion. *)
Definition cache_record (neighbor : NODETYPE) (neighborindex movecost : Z)
    (s : AStarGenericCached) : option AStarGenericCached :=
  cur ← deref (store s) (m_currentnode s);
  let '(c, start) :=
    window_grow cacheelement_new (m_index cur) (m_cache s) (m_cachestartindex s) in
  e ← window_at c start (m_index cur);
  let e := {| m_hascache := true; m_neighbors := m_neighbors e |} in
  let c := window_set c start (m_index cur) e in
  let e := {| m_hascache := m_hascache e;
              m_neighbors := m_neighbors e ++ [(neighbor, neighborindex, movecost)] |} in
  Some (set_cachestartindex start (set_cache (window_set c start (m_index cur) e) s)).

Definition AddNeighborCached (neighbor : NODETYPE) (neighborindex movecost : Z)
    (s : AStarGenericCached) : option AStarGenericCached :=
  s ← relax neighbor neighborindex movecost s;
  cache_record neighbor neighborindex movecost s.

(** A call [getneighbors(node, anf)]. *)
Fixpoint add_neighbors (l : list (NODETYPE * Z * Z)) (s : AStarGenericCached)
  : option AStarGenericCached :=
  match l with
  | [] => Some s
  | (neighbor, neighborindex, movecost) :: l' =>
      s' ← AddNeighborCached neighbor neighborindex movecost s;
      add_neighbors l' s'
  end.

(** The body of the loop over a cache entry in [FindPath] and [Step]:
    the relaxation again, written out in place, with one more call of
    [hl] where the new node is entered. *)
Definition replay_neighbor (i : NODETYPE * Z * Z) (s : AStarGenericCached)
  : option AStarGenericCached :=
  let '(neighbor, neighborindex, movecost) := i in
  let s := hl neighborindex s in
  e ← helper_at s neighborindex;
  if m_onclosed e then Some s
  else
    let s := set_astaropen (le_node e) s in
    match m_astaropen s with
    | Some open =>
        cur ← deref (store s) (m_currentnode s);
        o ← store s !! open;
        if m_g cur + movecost <? m_g o then
          let st := <[open := {| m_node := m_node o;
                                 m_parent := m_currentnode s;
                                 m_f := m_g cur + movecost + m_h o;
                                 m_g := m_g cur + movecost;
                                 m_h := m_h o;
                                 m_index := m_index o |}]> (store s) in
          Some (set_openlist (make_heap (astarnodecompare st) (m_openlist s))
                  (set_store st s))
        else Some s
    | None =>
        let '(newnode, a) := allocate (m_astarnodeallocator s) in
        cur ← deref (store s) (m_currentnode s);
        dc ← m_destinationcost s;
        goal ← m_goal s;
        let g := m_g cur + movecost in
        let h := dc neighbor goal in
        let st := <[newnode := {| m_node := neighbor;
                                   m_parent := m_currentnode s;
                                   m_f := g + h; m_g := g; m_h := h;
                                   m_index := neighborindex |}]> (store s) in
        let ol := push_heap (astarnodecompare st) (m_openlist s ++ [newnode]) in
        let s := set_openlist ol (set_store st (set_allocator a s)) in
        let s := hl neighborindex s in
        e ← helper_at s neighborindex;
        let s := helper_set neighborindex
                   {| le_node := le_node e; m_onopen := true;
                      m_onclosed := m_onclosed e |} s in
        e ← helper_at s neighborindex;
        Some (helper_set neighborindex
                {| le_node := Some newnode; m_onopen := m_onopen e;
                   m_onclosed := m_onclosed e |} s)
    end.

Fixpoint replay (l : list (NODETYPE * Z * Z)) (s : AStarGenericCached)
  : option AStarGenericCached :=
  match l with
  | [] => Some s
  | i :: l' => s' ← replay_neighbor i s; replay l' s'
  end.

(** The test that guards the loop over a cache entry. *)
Definition cache_hit (s : AStarGenericCached) (index : Z) : option bool :=
  if (m_cachestartindex s <=? index) &&
     (to_size_t index
        <? to_size_t (m_cachestartindex s + Z.of_nat (length (m_cache s))))
  then e ← window_at (m_cache s) (m_cachestartindex s) index; Some (m_hascache e)
  else Some false.

(** The expansion of the current node: from its cache entry when it has
    one, through the functor otherwise. *)
Definition expand (getneighbors : GETNEIGHBORS) (s : AStarGenericCached)
  : option AStarGenericCached :=
  cur ← deref (store s) (m_currentnode s);
  hit ← cache_hit s (m_index cur);
  if hit : bool then
    e ← window_at (m_cache s) (m_cachestartindex s) (m_index cur);
    replay (m_neighbors e) s
  else add_neighbors (getneighbors (m_node cur)) s.

Definition ClearCache (s : AStarGenericCached) : AStarGenericCached :=
  set_cachestartindex 0 (set_cache [] s).

Definition ClearCacheIndex (index : Z) (s : AStarGenericCached) : AStarGenericCached :=
  if (m_cachestartindex s <=? index) &&
     (index - m_cachestartindex s <? Z.of_nat (length (m_cache s)))
  then set_cache (window_set (m_cache s) (m_cachestartindex s) index cacheelement_new) s
  else s.

Definition ClearOpenList (s : AStarGenericCached) : AStarGenericCached :=
  set_openlist [] (set_allocator (deallocate_all (m_openlist s) (m_astarnodeallocator s)) s).

Definition ClearClosedList (s : AStarGenericCached) : AStarGenericCached :=
  set_closedlist [] (set_allocator (deallocate_all (m_closedlist s) (m_astarnodeallocator s)) s).

Definition push_start (start : NODETYPE) (startindex : Z) (goal : NODETYPE)
    (destinationcost : DESTCOST) (s : AStarGenericCached) : option AStarGenericCached :=
  let '(newnode, a) := allocate (m_astarnodeallocator s) in
  let g := destinationcost start goal in
  let st := <[newnode := {| m_node := start; m_parent := None;
                             m_f := g + 0; m_g := g; m_h := 0;
                             m_index := startindex |}]> (store s) in
  let ol := push_heap (astarnodecompare st) (m_openlist s ++ [newnode]) in
  let s := set_openlist ol (set_store st (set_allocator a s)) in
  let s := hl startindex s in
  e ← helper_at s startindex;
  let s := helper_set startindex
             {| le_node := Some newnode; m_onopen := m_onopen e;
                m_onclosed := m_onclosed e |} s in
  e ← helper_at s startindex;
  Some (helper_set startindex
          {| le_node := le_node e; m_onopen := true; m_onclosed := m_onclosed e |} s).

Definition close_front (s : AStarGenericCached) : option AStarGenericCached :=
  let s := set_currentnode (head (m_openlist s)) s in
  let s := set_openlist
             (removelast (pop_heap (astarnodecompare (store s)) (m_openlist s))) s in
  cur ← deref (store s) (m_currentnode s);
  e ← helper_at s (m_index cur);
  let s := helper_set (m_index cur)
             {| le_node := le_node e; m_onopen := false; m_onclosed := m_onclosed e |} s in
  p ← m_currentnode s;
  let s := set_closedlist (m_closedlist s ++ [p]) s in
  e ← helper_at s (m_index cur);
  Some (helper_set (m_index cur)
          {| le_node := le_node e; m_onopen := m_onopen e; m_onclosed := true |} s).

Fixpoint walk_parents (fuel : nat) (st : gmap ptr astarnode) (cnode : option ptr)
    (path : list NODETYPE) : option (list NODETYPE) :=
  match cnode with
  | None => Some path
  | Some p =>
      match fuel with
      | O => None
      | S fuel' =>
          n ← st !! p;
          walk_parents fuel' st (m_parent n) (path ++ [m_node n])
      end
  end.

Fixpoint FindPath_loop (fuel : nat) (goal : NODETYPE) (finalpath : list NODETYPE)
    (getneighbors : GETNEIGHBORS) (s : AStarGenericCached)
  : option (PathResult * list NODETYPE * AStarGenericCached) :=
  match m_openlist s with
  | [] => Some (PATH_NOTFOUND, finalpath, s)
  | _ :: _ =>
      match fuel with
      | O => None
      | S fuel' =>
          s ← close_front s;
          cur ← deref (store s) (m_currentnode s);
          if bool_decide (m_node cur ≠ goal) then
            s ← expand getneighbors s;
            FindPath_loop fuel' goal finalpath getneighbors s
          else
            path ← walk_parents fuel' (store s) (m_currentnode s) [];
            Some (PATH_FOUND, path, set_currentnode None s)
      end
  end.

Definition FindPath_init (start : NODETYPE) (startindex : Z) (goal : NODETYPE)
    (destinationcost : DESTCOST) (s : AStarGenericCached) : option AStarGenericCached :=
  let s := ClearOpenList s in
  let s := ClearClosedList s in
  let s := set_helperlist [] s in
  let s := set_helperliststartindex 0 s in
  let s := set_astaropen None s in
  let s := set_goal (Some goal) s in
  let s := set_destinationcost (Some destinationcost) s in
  let s := set_currentnode None s in
  push_start start startindex goal destinationcost s.

Definition FindPath (fuel : nat) (start : NODETYPE) (startindex : Z) (goal : NODETYPE)
    (finalpath : list NODETYPE) (destinationcost : DESTCOST)
    (getneighbors : GETNEIGHBORS) (s : AStarGenericCached)
  : option (PathResult * list NODETYPE * AStarGenericCached) :=
  s ← FindPath_init start startindex goal destinationcost s;
  FindPath_loop fuel goal finalpath getneighbors s.

Definition GetPath (fuel : nat) (path : list NODETYPE) (s : AStarGenericCached)
  : option (list NODETYPE) :=
  walk_parents fuel (store s) (m_currentnode s) [].

Definition InitializeStep (start : NODETYPE) (startindex : Z) (goal : NODETYPE)
    (destinationcost : DESTCOST) (getneighbors : GETNEIGHBORS)
    (s : AStarGenericCached) : option AStarGenericCached :=
  let s := set_start (Some start) s in
  let s := set_goal (Some goal) s in
  let s := set_destinationcost (Some destinationcost) s in
  let s := set_getneighbors (Some getneighbors) s in
  let s := ClearOpenList s in
  let s := ClearClosedList s in
  let s := set_helperlist [] s in
  let s := set_helperliststartindex 0 s in
  let s := set_astaropen None s in
  let s := set_currentnode None s in
  push_start start startindex goal destinationcost s.

(** [Step]: one round of the loop of [FindPath], with its own copy of
    the test for a cache entry; [m_getneighbors] is read only when the
    state has no entry. *)
Definition Step (s : AStarGenericCached) : option (PathResult * AStarGenericCached) :=
  match m_openlist s with
  | _ :: _ =>
      s ← close_front s;
      cur ← deref (store s) (m_currentnode s);
      goal ← m_goal s;
      if bool_decide (m_node cur ≠ goal) then
        hit ← cache_hit s (m_index cur);
        s ← (if hit : bool then
               e ← window_at (m_cache s) (m_cachestartindex s) (m_index cur);
               replay (m_neighbors e) s
             else
               gn ← m_getneighbors s;
               add_neighbors (gn (m_node cur)) s);
        Some (PATH_SEARCHING, s)
      else Some (PATH_FOUND, s)
  | [] => Some (PATH_NOTFOUND, s)
  end.

(** A caller that steps until the search is over. *)
Fixpoint Step_until_done (fuel : nat) (s : AStarGenericCached)
  : option (PathResult * AStarGenericCached) :=
  match fuel with
  | O => None
  | S fuel' =>
      '(r, s') ← Step s;
      match r with
      | PATH_SEARCHING => Step_until_done fuel' s'
      | _ => Some (r, s')
      end
  end.

End AStarGenericCached.
End Cached.

(** ** AStarTile8DirCached (pathfinderastartile8dircached.h)

    The states are the positions [(x, y)] of a map; the index of a
    position is [y * m_mapwidth + x].  Of the two [FindPath] members the
    first (all eight neighbours reachable) is modelled; the second indexes
    [m_helperlist], a vector, with a position and does not instantiate. *)

Module Tile8Dir.
Section AStarTile8DirCached.
Context {heap : StdHeap}.

Definition position : Type := Z * Z.
Definition MOVECOST : Type := position -> position -> Z.
Definition DESTCOST : Type := position -> position -> Z.

Record astarnode : Type := {
  m_node : position;
  m_parent : option ptr;
  m_f : Z;
  m_g : Z;
  m_h : Z
}.

Record listelement : Type := {
  le_node : option ptr;
  m_onopen : bool;
  m_onclosed : bool
}.

Definition listelement_new : listelement :=
  {| le_node := None; m_onopen := false; m_onclosed := false |}.

Record cacheelement : Type := {
  m_hascache : bool;
  m_neighbors : list (position * Z)
}.

Definition cacheelement_new : cacheelement :=
  {| m_hascache := false; m_neighbors := [] |}.

Record AStarTile8DirCached : Type := {
  store : gmap ptr astarnode;
  m_astarnodeallocator : astarallocator;
  m_openlist : list ptr;
  m_closedlist : list ptr;
  m_helperlist : list listelement;
  m_helperliststartindex : Z;
  m_mapwidth : Z;
  m_cache : list cacheelement;
  m_cachestartindex : Z
}.

Definition AStarTile8DirCached_new : AStarTile8DirCached :=
  {| store := ∅;
     m_astarnodeallocator := {| m_mem := []; alloc_next := 0%nat |};
     m_openlist := []; m_closedlist := [];
     m_helperlist := []; m_helperliststartindex := 0;
     m_mapwidth := 0; m_cache := []; m_cachestartindex := 0 |}.

Definition set_store v (s : AStarTile8DirCached) : AStarTile8DirCached :=
  {| store := v; m_astarnodeallocator := m_astarnodeallocator s;
     m_openlist := m_openlist s; m_closedlist := m_closedlist s;
     m_helperlist := m_helperlist s;
     m_helperliststartindex := m_helperliststartindex s; m_mapwidth := m_mapwidth s;
     m_cache := m_cache s; m_cachestartindex := m_cachestartindex s |}.
Definition set_allocator v (s : AStarTile8DirCached) : AStarTile8DirCached :=
  {| store := store s; m_astarnodeallocator := v; m_openlist := m_openlist s;
     m_closedlist := m_closedlist s; m_helperlist := m_helperlist s;
     m_helperliststartindex := m_helperliststartindex s; m_mapwidth := m_mapwidth s;
     m_cache := m_cache s; m_cachestartindex := m_cachestartindex s |}.
Definition set_openlist v (s : AStarTile8DirCached) : AStarTile8DirCached :=
  {| store := store s; m_astarnodeallocator := m_astarnodeallocator s;
     m_openlist := v; m_closedlist := m_closedlist s; m_helperlist := m_helperlist s;
     m_helperliststartindex := m_helperliststartindex s; m_mapwidth := m_mapwidth s;
     m_cache := m_cache s; m_cachestartindex := m_cachestartindex s |}.
Definition set_closedlist v (s : AStarTile8DirCached) : AStarTile8DirCached :=
  {| store := store s; m_astarnodeallocator := m_astarnodeallocator s;
     m_openlist := m_openlist s; m_closedlist := v; m_helperlist := m_helperlist s;
     m_helperliststartindex := m_helperliststartindex s; m_mapwidth := m_mapwidth s;
     m_cache := m_cache s; m_cachestartindex := m_cachestartindex s |}.
Definition set_helperlist v (s : AStarTile8DirCached) : AStarTile8DirCached :=
  {| store := store s; m_astarnodeallocator := m_astarnodeallocator s;
     m_openlist := m_openlist s; m_closedlist := m_closedlist s; m_helperlist := v;
     m_helperliststartindex := m_helperliststartindex s; m_mapwidth := m_mapwidth s;
     m_cache := m_cache s; m_cachestartindex := m_cachestartindex s |}.
Definition set_helperliststartindex v (s : AStarTile8DirCached) : AStarTile8DirCached :=
  {| store := store s; m_astarnodeallocator := m_astarnodeallocator s;
     m_openlist := m_openlist s; m_closedlist := m_closedlist s;
     m_helperlist := m_helperlist s; m_helperliststartindex := v;
     m_mapwidth := m_mapwidth s; m_cache := m_cache s;
     m_cachestartindex := m_cachestartindex s |}.
Definition set_mapwidth v (s : AStarTile8DirCached) : AStarTile8DirCached :=
  {| store := store s; m_astarnodeallocator := m_astarnodeallocator s;
     m_openlist := m_openlist s; m_closedlist := m_closedlist s;
     m_helperlist := m_helperlist s;
     m_helperliststartindex := m_helperliststartindex s; m_mapwidth := v;
     m_cache := m_cache s; m_cachestartindex := m_cachestartindex s |}.
Definition set_cache v (s : AStarTile8DirCached) : AStarTile8DirCached :=
  {| store := store s; m_astarnodeallocator := m_astarnodeallocator s;
     m_openlist := m_openlist s; m_closedlist := m_closedlist s;
     m_helperlist := m_helperlist s;
     m_helperliststartindex := m_helperliststartindex s; m_mapwidth := m_mapwidth s;
     m_cache := v; m_cachestartindex := m_cachestartindex s |}.
Definition set_cachestartindex v (s : AStarTile8DirCached) : AStarTile8DirCached :=
  {| store := store s; m_astarnodeallocator := m_astarnodeallocator s;
     m_openlist := m_openlist s; m_closedlist := m_closedlist s;
     m_helperlist := m_helperlist s;
     m_helperliststartindex := m_helperliststartindex s; m_mapwidth := m_mapwidth s;
     m_cache := m_cache s; m_cachestartindex := v |}.

Definition node_f (st : gmap ptr astarnode) (p : ptr) : Z :=
  from_option m_f 0 (st !! p).
Definition astarnodecompare (st : gmap ptr astarnode) (left right : ptr) : bool :=
  node_f st right <? node_f st left.

(** [(pos.second*m_mapwidth)+pos.first] *)
Definition index_of (s : AStarTile8DirCached) (pos : position) : Z :=
  snd pos * m_mapwidth s + fst pos.

Definition hl (index : Z) (s : AStarTile8DirCached) : AStarTile8DirCached :=
  let '(v, start) :=
    window_grow listelement_new index (m_helperlist s) (m_helperliststartindex s) in
  set_helperliststartindex start (set_helperlist v s).

Definition helper_at (s : AStarTile8DirCached) (index : Z) : option listelement :=
  window_at (m_helperlist s) (m_helperliststartindex s) index.

Definition helper_set (index : Z) (e : listelement) (s : AStarTile8DirCached)
  : AStarTile8DirCached :=
  set_helperlist (window_set (m_helperlist s) (m_helperliststartindex s) index e) s.

Definition ClearCache (s : AStarTile8DirCached) : AStarTile8DirCached :=
  set_cachestartindex 0 (set_cache [] s).

Definition ClearCachePosition (pos : position) (s : AStarTile8DirCached)
  : AStarTile8DirCached :=
  let index := index_of s pos in
  if (m_cachestartindex s <=? index) &&
     (index - m_cachestartindex s <? Z.of_nat (length (m_cache s)))
  then set_cache (window_set (m_cache s) (m_cachestartindex s) index cacheelement_new) s
  else s.

Definition SetMapWidth (width : Z) (s : AStarTile8DirCached) : AStarTile8DirCached :=
  if bool_decide (width ≠ m_mapwidth s) then ClearCache (set_mapwidth width s) else s.

Definition ClearOpenList (s : AStarTile8DirCached) : AStarTile8DirCached :=
  set_openlist [] (set_allocator (deallocate_all (m_openlist s) (m_astarnodeallocator s)) s).

Definition ClearClosedList (s : AStarTile8DirCached) : AStarTile8DirCached :=
  set_closedlist [] (set_allocator (deallocate_all (m_closedlist s) (m_astarnodeallocator s)) s).

(** The relaxation of the neighbour [(xx, yy)] of [currentnode], as it
    stands inside [if(hl(...).m_onclosed==false)] in both loops of
    [FindPath]. *)
Definition relax_body (movecost : MOVECOST) (destinationcost : DESTCOST)
    (goal : position) (currentnode : ptr) (pos : position) (s : AStarTile8DirCached)
  : option AStarTile8DirCached :=
  e ← helper_at s (index_of s pos);
  match le_node e with
  | Some astaropen =>
      cur ← store s !! currentnode;
      o ← store s !! astaropen;
      if m_g cur + movecost (m_node cur) pos <? m_g o then
        let g := m_g cur + movecost (m_node cur) pos in
        let st := <[astaropen := {| m_node := m_node o;
                                    m_parent := Some currentnode;
                                    m_f := g + m_h o; m_g := g; m_h := m_h o |}]>
                    (store s) in
        Some (set_openlist (make_heap (astarnodecompare st) (m_openlist s))
                (set_store st s))
      else Some s
  | None =>
      let '(newnode, a) := allocate (m_astarnodeallocator s) in
      cur ← store s !! currentnode;
      let g := m_g cur + movecost (m_node cur) pos in
      let h := destinationcost pos goal in
      let st := <[newnode := {| m_node := pos; m_parent := Some currentnode;
                                 m_f := g + h; m_g := g; m_h := h |}]> (store s) in
      let ol := push_heap (astarnodecompare st) (m_openlist s ++ [newnode]) in
      let s := set_openlist ol (set_store st (set_allocator a s)) in
      let s := hl (index_of s pos) s in
      e ← helper_at s (index_of s pos);
      let s := helper_set (index_of s pos)
                 {| le_node := le_node e; m_onopen := true;
                    m_onclosed := m_onclosed e |} s in
      e ← helper_at s (index_of s pos);
      Some (helper_set (index_of s pos)
              {| le_node := Some newnode; m_onopen := m_onopen e;
                 m_onclosed := m_onclosed e |} s)
  end.

(** One round of the loop over a cache entry.  The cost stored in the
    entry is not read: [movecost] is called again. *)
Definition replay_neighbor (movecost : MOVECOST) (destinationcost : DESTCOST)
    (goal : position) (currentnode : ptr) (i : position * Z) (s : AStarTile8DirCached)
  : option AStarTile8DirCached :=
  let pos := fst i in
  let s := hl (index_of s pos) s in
  e ← helper_at s (index_of s pos);
  if m_onclosed e then Some s
  else relax_body movecost destinationcost goal currentnode pos s.

Fixpoint replay (movecost : MOVECOST) (destinationcost : DESTCOST) (goal : position)
    (currentnode : ptr) (l : list (position * Z)) (s : AStarTile8DirCached)
  : option AStarTile8DirCached :=
  match l with
  | [] => Some s
  | i :: l' =>
      s' ← replay_neighbor movecost destinationcost goal currentnode i s;
      replay movecost destinationcost goal currentnode l' s'
  end.

(** The positions visited by the two nested [for] loops, in order. *)
Definition neighbors8 (pos : position) : list position :=
  let '(x, y) := pos in
  [(x - 1, y - 1); (x, y - 1); (x + 1, y - 1);
   (x - 1, y); (x + 1, y);
   (x - 1, y + 1); (x, y + 1); (x + 1, y + 1)].

(** One round of the loops over the eight neighbours: a neighbour that
    is not closed is relaxed and then appended to the cache entry. *)
Definition live_neighbor (movecost : MOVECOST) (destinationcost : DESTCOST)
    (goal : position) (currentnode : ptr) (currentnodeindex : Z) (pos : position)
    (s : AStarTile8DirCached) : option AStarTile8DirCached :=
  let s := hl (index_of s pos) s in
  e ← helper_at s (index_of s pos);
  if m_onclosed e then Some s
  else
    s ← relax_body movecost destinationcost goal currentnode pos s;
    cur ← store s !! currentnode;
    c ← window_at (m_cache s) (m_cachestartindex s) currentnodeindex;
    Some (set_cache
            (window_set (m_cache s) (m_cachestartindex s) currentnodeindex
               {| m_hascache := m_hascache c;
                  m_neighbors := m_neighbors c ++ [(pos, movecost (m_node cur) pos)] |})
            s).

Fixpoint live (movecost : MOVECOST) (destinationcost : DESTCOST) (goal : position)
    (currentnode : ptr) (currentnodeindex : Z) (l : list position)
    (s : AStarTile8DirCached) : option AStarTile8DirCached :=
  match l with
  | [] => Some s
  | pos :: l' =>
      s' ← live_neighbor movecost destinationcost goal currentnode currentnodeindex pos s;
      live movecost destinationcost goal currentnode currentnodeindex l' s'
  end.

Definition cache_hit (s : AStarTile8DirCached) (index : Z) : option bool :=
  if (m_cachestartindex s <=? index) &&
     (to_size_t index
        <? to_size_t (m_cachestartindex s + Z.of_nat (length (m_cache s))))
  then e ← window_at (m_cache s) (m_cachestartindex s) index; Some (m_hascache e)
  else Some false.

(** The expansion of [currentnode]. *)
Definition expand (movecost : MOVECOST) (destinationcost : DESTCOST) (goal : position)
    (currentnode : ptr) (s : AStarTile8DirCached) : option AStarTile8DirCached :=
  cur ← store s !! currentnode;
  let currentnodeindex := index_of s (m_node cur) in
  hit ← cache_hit s currentnodeindex;
  if hit : bool then
    e ← window_at (m_cache s) (m_cachestartindex s) currentnodeindex;
    replay movecost destinationcost goal currentnode (m_neighbors e) s
  else
    let '(c, start) :=
      window_grow cacheelement_new currentnodeindex (m_cache s) (m_cachestartindex s) in
    let s := set_cachestartindex start (set_cache c s) in
    e ← window_at (m_cache s) (m_cachestartindex s) currentnodeindex;
    let s := set_cache
               (window_set (m_cache s) (m_cachestartindex s) currentnodeindex
                  {| m_hascache := true; m_neighbors := m_neighbors e |}) s in
    live movecost destinationcost goal currentnode currentnodeindex
      (neighbors8 (m_node cur)) s.

Fixpoint walk_parents (fuel : nat) (st : gmap ptr astarnode) (cnode : option ptr)
    (path : list position) : option (list position) :=
  match cnode with
  | None => Some path
  | Some p =>
      match fuel with
      | O => None
      | S fuel' =>
          n ← st !! p;
          walk_parents fuel' st (m_parent n) (path ++ [m_node n])
      end
  end.

Definition close_front (s : AStarTile8DirCached) : option (ptr * AStarTile8DirCached) :=
  currentnode ← head (m_openlist s);
  let s := set_openlist
             (removelast (pop_heap (astarnodecompare (store s)) (m_openlist s))) s in
  cur ← store s !! currentnode;
  e ← helper_at s (index_of s (m_node cur));
  let s := helper_set (index_of s (m_node cur))
             {| le_node := le_node e; m_onopen := false; m_onclosed := m_onclosed e |} s in
  let s := set_closedlist (m_closedlist s ++ [currentnode]) s in
  e ← helper_at s (index_of s (m_node cur));
  Some (currentnode,
        helper_set (index_of s (m_node cur))
          {| le_node := le_node e; m_onopen := m_onopen e; m_onclosed := true |} s).

Fixpoint FindPath_loop (fuel : nat) (goal : position) (finalpath : list position)
    (movecost : MOVECOST) (destinationcost : DESTCOST) (s : AStarTile8DirCached)
  : option (PathResult * list position * AStarTile8DirCached) :=
  match m_openlist s with
  | [] => Some (PATH_NOTFOUND, finalpath, s)
  | _ :: _ =>
      match fuel with
      | O => None
      | S fuel' =>
          '(currentnode, s) ← close_front s;
          cur ← store s !! currentnode;
          if bool_decide (m_node cur ≠ goal) then
            s ← expand movecost destinationcost goal currentnode s;
            FindPath_loop fuel' goal finalpath movecost destinationcost s
          else
            path ← walk_parents fuel' (store s) (Some currentnode) [];
            Some (PATH_FOUND, path, s)
      end
  end.

Definition FindPath_init (start goal : position) (destinationcost : DESTCOST)
    (s : AStarTile8DirCached) : option AStarTile8DirCached :=
  let s := ClearOpenList s in
  let s := ClearClosedList s in
  let s := set_helperlist [] s in
  let s := set_helperliststartindex 0 s in
  let '(newnode, a) := allocate (m_astarnodeallocator s) in
  let g := destinationcost start goal in
  let st := <[newnode := {| m_node := start; m_parent := None;
                             m_f := g + 0; m_g := g; m_h := 0 |}]> (store s) in
  let ol := push_heap (astarnodecompare st) (m_openlist s ++ [newnode]) in
  let s := set_openlist ol (set_store st (set_allocator a s)) in
  let s := hl (index_of s start) s in
  e ← helper_at s (index_of s start);
  let s := helper_set (index_of s start)
             {| le_node := Some newnode; m_onopen := m_onopen e;
                m_onclosed := m_onclosed e |} s in
  e ← helper_at s (index_of s start);
  Some (helper_set (index_of s start)
          {| le_node := le_node e; m_onopen := true; m_onclosed := m_onclosed e |} s).

Definition FindPath (fuel : nat) (start goal : position) (finalpath : list position)
    (movecost : MOVECOST) (destinationcost : DESTCOST) (s : AStarTile8DirCached)
  : option (PathResult * list position * AStarTile8DirCached) :=
  s ← FindPath_init start goal destinationcost s;
  FindPath_loop fuel goal finalpath movecost destinationcost s.

End AStarTile8DirCached.
End Tile8Dir.

(** * Specification vocabulary *)

(** ** AStarGeneric: graphs, paths and the invariants of a search *)

Module GenericSpec.
Import Generic.
Section spec.
Context {NODETYPE : Type} `{Countable NODETYPE}.
Context {heap : StdHeap}.

Abbreviation astarnode := (@astarnode NODETYPE).
Abbreviation AStarGeneric := (@AStarGeneric NODETYPE _ _).
Abbreviation GETNEIGHBORS := (@GETNEIGHBORS NODETYPE).
Abbreviation DESTCOST := (@DESTCOST NODETYPE).

(** [InitializeStep] differs from the start of [FindPath] in the two
    members only [Step] reads. *)
Definition with_stepper (start : NODETYPE) (gn : GETNEIGHBORS) (s : AStarGeneric)
  : AStarGeneric :=
  set_getneighbors (Some gn) (set_start (Some start) s).

(** The observable outcome of a stepped search: the result code and,
    when the goal was found, what [GetPath] returns. *)
Definition stepped_outcome (r : PathResult) (finalpath fp : list NODETYPE)
    (s : AStarGeneric) : Prop :=
  match r with
  | PATH_FOUND => exists k, forall path, GetPath k path s = Some fp
  | _ => fp = finalpath
  end.

(** *** The graph a [GETNEIGHBORS] functor describes *)

Section graph.
Variable gn : GETNEIGHBORS.

(** [rpath l c]: [l] lists the states of a path, last state first, and
    [c] is the sum of the costs of its edges. *)
Inductive rpath : list NODETYPE -> Z -> Prop :=
| rpath_one x : rpath [x] 0
| rpath_step y x l c c' :
    (y, c) ∈ gn x -> rpath (x :: l) c' -> rpath (y :: x :: l) (c' + c).

(** A path from [a] to [b], written from [b] back to [a]. *)
Definition path_between (a b : NODETYPE) (l : list NODETYPE) (c : Z) : Prop :=
  rpath l c /\ head l = Some b /\ last l = Some a.

Definition reachable (a b : NODETYPE) : Prop := exists l c, path_between a b l c.

Definition shortest_path (a b : NODETYPE) (l : list NODETYPE) (c : Z) : Prop :=
  path_between a b l c /\ forall l' c', path_between a b l' c' -> c <= c'.

Definition nonneg_costs : Prop := forall x y c, (y, c) ∈ gn x -> 0 <= c.

(** [V] holds every state of the graph. *)
Definition finite_graph (V : list NODETYPE) : Prop :=
  forall x y c, x ∈ V -> (y, c) ∈ gn x -> y ∈ V.

(** The heuristic never overestimates the cost of reaching the goal. *)
Definition admissible (dc : DESTCOST) (goal : NODETYPE) : Prop :=
  forall x l c, path_between x goal l c -> 0 <= dc x goal <= c.

(** The heuristic is consistent (monotone). *)
Definition consistent (dc : DESTCOST) (goal : NODETYPE) : Prop :=
  forall x y c, (y, c) ∈ gn x -> dc x goal <= c + dc y goal.
End graph.

(** What a search is to deliver: a least-cost path when it reports
    [PATH_FOUND], and [PATH_NOTFOUND] with [finalpath] untouched only
    when the goal cannot be reached. *)
Definition search_outcome (gn : GETNEIGHBORS) (start goal : NODETYPE)
    (finalpath : list NODETYPE) (r : PathResult) (fp : list NODETYPE) : Prop :=
  (r = PATH_FOUND /\ reachable gn start goal /\
   exists c, shortest_path gn start goal fp c) \/
  (r = PATH_NOTFOUND /\ ~ reachable gn start goal /\ fp = finalpath).


(** *** The three conditions of a state *)

Inductive status : Set :=
| Undiscovered
| OnOpen (p : ptr)
| OnClosed (p : ptr).

Definition status_of (e : listelement) : option status :=
  match le_node e, m_onopen e, m_onclosed e with
  | None, false, false => Some Undiscovered
  | Some p, true, false => Some (OnOpen p)
  | Some p, false, true => Some (OnClosed p)
  | _, _, _ => None
  end.

Definition entry_open (p : ptr) : listelement :=
  {| le_node := Some p; m_onopen := true; m_onclosed := false |}.
Definition entry_closed (p : ptr) : listelement :=
  {| le_node := Some p; m_onopen := false; m_onclosed := true |}.

(** *** Well-formed engine states *)

(** Nodes are owned by exactly one of the allocator's stack, the open
    list and the closed list. *)
Record alloc_ok (s : AStarGeneric) : Prop := {
  alloc_nodup :
    NoDup (m_mem (m_astarnodeallocator s) ++ m_openlist s ++ m_closedlist s);
  alloc_bound : forall p,
    p ∈ m_mem (m_astarnodeallocator s) ++ m_openlist s ++ m_closedlist s ->
    (p < alloc_next (m_astarnodeallocator s))%nat
}.

Definition entry_ok (s : AStarGeneric) (x : NODETYPE) : Prop :=
  match status_of (hl s x) with
  | Some Undiscovered => True
  | Some (OnOpen p) =>
      p ∈ m_openlist s /\ exists n, store s !! p = Some n /\ m_node n = x
  | Some (OnClosed p) =>
      p ∈ m_closedlist s /\ exists n, store s !! p = Some n /\ m_node n = x
  | None => False
  end.

Record wf (s : AStarGeneric) : Prop := {
  wf_alloc : alloc_ok s;
  wf_open : forall p, p ∈ m_openlist s ->
    exists n, store s !! p = Some n /\ hl s (m_node n) = entry_open p;
  wf_closed : forall p, p ∈ m_closedlist s ->
    exists n, store s !! p = Some n /\ hl s (m_node n) = entry_closed p;
  wf_hl : forall x, entry_ok s x;
  wf_heap : is_heap (astarnodecompare (store s)) (m_openlist s)
}.

(** *** The moves of a search *)

Inductive search_step (s s' : AStarGeneric) : Prop :=
| step_close : close_front s = Some s' -> search_step s s'
| step_relax neighbor movecost :
    AddNeighbor neighbor movecost s = Some s' -> search_step s s'.

(** The states a search passes through, from the start of [FindPath] or
    from [InitializeStep]. *)
Inductive in_search : AStarGeneric -> Prop :=
| in_search_FindPath s start goal dc :
    alloc_ok s -> in_search (FindPath_init start goal dc s)
| in_search_InitializeStep s start goal dc gn :
    alloc_ok s -> in_search (InitializeStep start goal dc gn s)
| in_search_step s s' : in_search s -> search_step s s' -> in_search s'.

(** *** The outcomes of [close_front] and [AddNeighbor] *)

Definition closed_state (s : AStarGeneric) (p : ptr) (n : astarnode) (rest : list ptr)
  : AStarGeneric :=
  set_helperlist (<[m_node n := entry_closed p]> (m_helperlist s))
    (set_closedlist (m_closedlist s ++ [p])
       (set_openlist rest (set_currentnode (Some p) s))).

Definition relaxed_node (s : AStarGeneric) (o cur : astarnode) (movecost : Z) : astarnode :=
  {| m_node := m_node o; m_parent := m_currentnode s;
     m_f := m_g cur + movecost + m_h o; m_g := m_g cur + movecost; m_h := m_h o |}.

Definition relaxed_state (s : AStarGeneric) (p : ptr) (o cur : astarnode) (movecost : Z)
  : AStarGeneric :=
  let st := <[p := relaxed_node s o cur movecost]> (store s) in
  set_openlist (make_heap (astarnodecompare st) (m_openlist s))
    (set_store st (set_astaropen (Some p) s)).

Definition added_node (s : AStarGeneric) (x : NODETYPE) (cur : astarnode) (movecost : Z)
    (dc : DESTCOST) (goal : NODETYPE) : astarnode :=
  {| m_node := x; m_parent := m_currentnode s;
     m_f := m_g cur + movecost + dc x goal; m_g := m_g cur + movecost;
     m_h := dc x goal |}.

Definition added_state (s : AStarGeneric) (x : NODETYPE) (cur : astarnode) (movecost : Z)
    (dc : DESTCOST) (goal : NODETYPE) (p : ptr) (a : astarallocator) : AStarGeneric :=
  let st := <[p := added_node s x cur movecost dc goal]> (store s) in
  set_helperlist (<[x := entry_open p]> (m_helperlist s))
    (set_openlist (push_heap (astarnodecompare st) (m_openlist s ++ [p]))
       (set_store st (set_allocator a (set_astaropen None s)))).

Inductive AddNeighbor_result (s : AStarGeneric) (x : NODETYPE) (movecost : Z)
  : AStarGeneric -> Prop :=
| anr_closed : m_onclosed (hl s x) = true -> AddNeighbor_result s x movecost s
| anr_keep p o cur :
    hl s x = entry_open p -> p ∈ m_openlist s -> store s !! p = Some o -> m_node o = x ->
    deref (store s) (m_currentnode s) = Some cur ->
    m_g o <= m_g cur + movecost ->
    AddNeighbor_result s x movecost (set_astaropen (Some p) s)
| anr_update p o cur :
    hl s x = entry_open p -> p ∈ m_openlist s -> store s !! p = Some o -> m_node o = x ->
    deref (store s) (m_currentnode s) = Some cur ->
    m_g cur + movecost < m_g o ->
    AddNeighbor_result s x movecost (relaxed_state s p o cur movecost)
| anr_new p a cur dc goal :
    hl s x = listelement_new ->
    deref (store s) (m_currentnode s) = Some cur ->
    m_destinationcost s = Some dc -> m_goal s = Some goal ->
    allocate (m_astarnodeallocator s) = (p, a) ->
    AddNeighbor_result s x movecost (added_state s x cur movecost dc goal p a).

(** State [y] has a node, on the open or on the closed list. *)
Definition discovered (s : AStarGeneric) (y : NODETYPE) : Prop :=
  hl s y <> listelement_new.

(** *** Invariants that tie the nodes to the graph *)

Section search.
Variable start goal : NODETYPE.
Variable dc : DESTCOST.
Variable gn : GETNEIGHBORS.

(** [trace s p l]: the parents of node [p] lead back to the start node
    through closed nodes, along edges of the graph, and [g] adds up
    the edge costs on top of the start node's [g]. *)
Inductive trace (s : AStarGeneric) : ptr -> list NODETYPE -> Prop :=
| trace_start p n :
    store s !! p = Some n -> m_parent n = None -> m_node n = start ->
    m_g n = dc start goal ->
    trace s p [start]
| trace_step p n q nq l c :
    store s !! p = Some n -> m_parent n = Some q ->
    q ∈ m_closedlist s -> store s !! q = Some nq ->
    (m_node n, c) ∈ gn (m_node nq) -> m_g n = m_g nq + c ->
    trace s q l ->
    trace s p (m_node n :: l).

Record path_inv (s : AStarGeneric) : Prop := {
  pi_goal : m_goal s = Some goal;
  pi_dc : m_destinationcost s = Some dc;
  pi_trace : forall p, p ∈ m_openlist s ++ m_closedlist s -> exists l, trace s p l
}.

(** The node being expanded. *)
Definition expanding (s : AStarGeneric) (u : ptr) : Prop :=
  m_currentnode s = Some u /\ u ∈ m_closedlist s.

(** State [y] is closed, or open with [g] at most [bound]. *)
Definition relaxed (s : AStarGeneric) (y : NODETYPE) (bound : Z) : Prop :=
  match status_of (hl s y) with
  | Some (OnClosed _) => True
  | Some (OnOpen p) => exists n, store s !! p = Some n /\ m_g n <= bound
  | _ => False
  end.

Definition expanded (s : AStarGeneric) (q : ptr) : Prop :=
  forall nq y c, store s !! q = Some nq -> (y, c) ∈ gn (m_node nq) ->
    relaxed s y (m_g nq + c).

(** Node [p] stands for the start state, with the seeded [g]. *)
Definition start_node (s : AStarGeneric) (p : ptr) : Prop :=
  exists n, store s !! p = Some n /\ m_node n = start /\ m_g n = dc start goal.

(** The fields of an open node other than the start node. *)
Definition proper_node (n : astarnode) : Prop :=
  m_h n = dc (m_node n) goal /\ m_f n = m_g n + m_h n.

(** The invariant behind optimality.  [exempt] is the node under
    expansion, whose neighbours have not all been relaxed yet. *)
Record opt_inv (exempt : option ptr) (s : AStarGeneric) : Prop := {
  oi_proper :
    (m_closedlist s = [] /\ exists p0, m_openlist s = [p0] /\ start_node s p0) \/
    ((exists p0, p0 ∈ m_closedlist s /\ start_node s p0) /\
     (forall p n, p ∈ m_openlist s -> store s !! p = Some n -> proper_node n));
  oi_opt : forall p n l c,
    p ∈ m_closedlist s -> store s !! p = Some n ->
    path_between gn start (m_node n) l c -> m_g n <= dc start goal + c;
  oi_exp : forall q, q ∈ m_closedlist s -> Some q <> exempt -> expanded s q;
  oi_nogoal : forall q n,
    q ∈ m_closedlist s -> Some q <> exempt -> store s !! q = Some n ->
    m_node n <> goal
}.

(** The invariant behind completeness: the start state has been
    discovered, every neighbour of a closed state has been discovered,
    and no closed state is the goal.  [exempt] is the node under
    expansion. *)
Record reach_inv (exempt : option ptr) (s : AStarGeneric) : Prop := {
  ri_start : discovered s start;
  ri_exp : forall q nq y c,
    q ∈ m_closedlist s -> Some q <> exempt -> store s !! q = Some nq ->
    (y, c) ∈ gn (m_node nq) -> discovered s y;
  ri_nogoal : forall q n,
    q ∈ m_closedlist s -> Some q <> exempt -> store s !! q = Some n ->
    m_node n <> goal
}.
End search.

End spec.
End GenericSpec.

(** ** Windows of indices *)

(** The entry a window holds for [index]: the element stored for it, and
    a fresh element for an index outside the window. *)
Definition window_get {A : Type} (new : A) (v : list A) (start index : Z) : A :=
  if (start <=? index) && (index - start <? Z.of_nat (length v))
  then default new (v !! Z.to_nat (index - start))
  else new.

Definition window_covers {A : Type} (v : list A) (start index : Z) : Prop :=
  start <= index < start + Z.of_nat (length v).

(** ** AStarGenericCached: the cache as a map from indices to entries *)

Module CachedSpec.
Import Cached.
Section spec.
Context {NODETYPE : Type} `{EqDecision NODETYPE}.
Context {heap : StdHeap}.

Abbreviation AStarGenericCached := (@AStarGenericCached NODETYPE).
Abbreviation cacheelement := (@cacheelement NODETYPE).
Abbreviation GETNEIGHBORS := (@GETNEIGHBORS NODETYPE).

(** The cache entry of the state with index [i]. *)
Definition cache_entry (s : AStarGenericCached) (i : Z) : cacheelement :=
  window_get cacheelement_new (m_cache s) (m_cachestartindex s) i.


(** What the expansion of a state through the functor leaves in the
    state's cache entry, when the functor reported [l]. *)
Definition recorded (l : list (NODETYPE * Z * Z)) : cacheelement :=
  {| m_hascache := bool_decide (l ≠ []); m_neighbors := l |}.

(** The node [u] under expansion is not handed out again by the
    allocator and no state that can still be relaxed has it as its node. *)
Definition safe_current (s : AStarGenericCached) (u : ptr) : Prop :=
  (u ∉ m_mem (m_astarnodeallocator s)) /\
  (u < alloc_next (m_astarnodeallocator s))%nat /\
  Forall (fun e => m_onclosed e = false -> le_node e <> Some u) (m_helperlist s).

(** The indices are non-negative and fit a [long]. *)
Definition cache_in_range (s : AStarGenericCached) : Prop :=
  0 <= m_cachestartindex s /\
  m_cachestartindex s + Z.of_nat (length (m_cache s)) < 2 ^ 63.

(** The engine [s] with another cache. *)
Definition with_cache (c : list cacheelement) (k : Z) (s : AStarGenericCached)
  : AStarGenericCached :=
  set_cachestartindex k (set_cache c s).

(** [t] differs from [s] in the cache at most. *)
Definition same_search (s t : AStarGenericCached) : Prop :=
  t = with_cache (m_cache t) (m_cachestartindex t) s.

(** [InitializeStep] differs from the start of [FindPath] in the two
    members only [Step] reads. *)
Definition with_stepper (start : NODETYPE) (gn : GETNEIGHBORS) (s : AStarGenericCached)
  : AStarGenericCached :=
  set_getneighbors (Some gn) (set_start (Some start) s).

(** The observable outcome of a stepped search: the result code and,
    when the goal was found, what [GetPath] returns. *)
Definition stepped_outcome (r : PathResult) (finalpath fp : list NODETYPE)
    (s : AStarGenericCached) : Prop :=
  match r with
  | PATH_FOUND => exists k, forall path, GetPath k path s = Some fp
  | _ => fp = finalpath
  end.

End spec.
End CachedSpec.

(** ** Small inputs *)

Module Examples.

(** The line graph A - B - C with unit costs; A, B, C are 0, 1, 2. *)
Definition line (n : nat) : list (nat * Z) :=
  match n with
  | 0%nat => [(1%nat, 1)]
  | 1%nat => [(0%nat, 1); (2%nat, 1)]
  | 2%nat => [(1%nat, 1)]
  | _ => []
  end.

Definition zero_heuristic (n goal : nat) : Z := 0.


(** The same graph for the cached engine; the index of a state is the
    state. *)
Definition line_indexed (n : nat) : list (nat * Z * Z) :=
  (fun e : nat * Z => (e.1, Z.of_nat e.1, e.2)) <$> line n.

(** A graph on which the cheapest way to state 2 goes through state 1. *)
Definition detour (n : nat) : list (nat * Z) :=
  match n with
  | 0%nat => [(1%nat, 1); (2%nat, 3)]
  | 1%nat => [(2%nat, 1)]
  | 2%nat => [(3%nat, 5)]
  | _ => []
  end.

(** An estimate for [detour] with goal 3 that never overestimates, but
    drops by more than the cost of the edge from 1 to 2. *)
Definition detour_heuristic (n goal : nat) : Z :=
  match n with
  | 1%nat => 5
  | _ => 0
  end.

(** The least costs of reaching state 3 in [detour]. *)
Definition detour_distance (n : nat) : Z :=
  match n with
  | 0%nat => 7
  | 1%nat => 6
  | 2%nat => 5
  | _ => 0
  end.

(** State 0 with two ways to state 1. *)
Definition fork (n : nat) : list (nat * Z) :=
  match n with
  | 0%nat => [(1%nat, 5); (2%nat, 1)]
  | 2%nat => [(1%nat, 1)]
  | _ => []
  end.

(** A map on which entering a position has a cost of its own. *)
Definition enter_cost (b : Z * Z) : Z :=
  if bool_decide (b = (6, 5)) then 1
  else if bool_decide (b = (7, 5)) then 2
  else if bool_decide (b = (5, 5)) then 1
  else if bool_decide (b = (5, 4)) then 5
  else 100.

Definition tile_movecost (a b : Z * Z) : Z := enter_cost b.
Definition tile_heuristic (a b : Z * Z) : Z := 0.

End Examples.
(** * Properties *)

(** ** Heaps *)

Section heap_facts.
Variable comp : ptr -> ptr -> bool.

Lemma is_heap_nil : is_heap comp [].
Proof. intros i p c _ _ Hc. by rewrite lookup_nil in Hc. Qed.

Lemma is_heap_singleton x : is_heap comp [x].
Proof.
  intros i p c Hi _ Hc. destruct i as [|i]; [lia|].
  by rewrite lookup_cons, lookup_nil in Hc.
Qed.

(** The front of a heap is not greater than any element. *)
Lemma is_heap_front l x y :
  strict_weak comp -> is_heap comp l -> head l = Some x -> y ∈ l -> comp x y = false.
Proof.
  intros Hsw Hh Hx Hy.
  apply list_elem_of_lookup in Hy as [i Hi].
  revert y Hi. induction (lt_wf i) as [i _ IH]. intros y Hi.
  destruct (decide (i = 0%nat)) as [->|Hne].
  - rewrite <- head_lookup in Hi. rewrite Hx in Hi.
    injection Hi as ->. apply Hsw.
  - assert (Hlt : ((i - 1) / 2 < i)%nat).
    { apply Nat.le_lt_trans with (i - 1)%nat; [apply Nat.Div0.div_le_upper_bound|]; lia. }
    destruct (l !! ((i - 1) / 2)%nat) as [p|] eqn:Hp.
    + eapply (sw_incomp comp); [done|by eapply IH|].
      eapply (Hh i); [lia|done..].
    + apply lookup_ge_None in Hp. apply lookup_lt_Some in Hi. lia.
Qed.
End heap_facts.

(** Heaps only look at the elements they hold. *)
Lemma is_heap_ext comp1 comp2 l :
  (forall a b, a ∈ l -> b ∈ l -> comp1 a b = comp2 a b) ->
  is_heap comp1 l -> is_heap comp2 l.
Proof.
  intros Hext Hh i p c Hi Hp Hc.
  rewrite <- Hext; [by eapply Hh|by eapply list_elem_of_lookup_2..].
Qed.

Lemma heap_insert_perm comp x l : heap_insert comp x l ≡ₚ x :: l.
Proof.
  induction l as [|y l IH]; simpl; [done|].
  destruct (comp x y); [|done]. rewrite IH. apply Permutation_swap.
Qed.

Lemma by_sorting_perm comp l : heap_by_sorting comp l ≡ₚ l.
Proof.
  induction l as [|x l IH]; simpl; [done|].
  etrans; [apply heap_insert_perm|]. by f_equiv.
Qed.

Lemma heap_insert_sorted comp x l :
  strict_weak comp ->
  StronglySorted (not_less comp) l -> StronglySorted (not_less comp) (heap_insert comp x l).
Proof.
  intros Hsw. induction 1 as [|y l Hs IH Hall]; simpl.
  - repeat constructor.
  - destruct (comp x y) eqn:Hxy.
    + constructor; [done|].
      rewrite heap_insert_perm. constructor; [|done].
      unfold not_less. destruct (comp y x) eqn:Hyx; [|done].
      pose proof (sw_trans _ Hsw _ _ _ Hxy Hyx) as Hxx.
      by rewrite (sw_irrefl _ Hsw) in Hxx.
    + constructor; [by constructor|].
      constructor; [done|].
      eapply Forall_impl; [done|]. intros z Hz. by eapply (sw_incomp _ Hsw).
Qed.

Lemma by_sorting_sorted comp l :
  strict_weak comp -> StronglySorted (not_less comp) (heap_by_sorting comp l).
Proof.
  intros Hsw. induction l; simpl; [constructor|by apply heap_insert_sorted].
Qed.

Lemma sorted_is_heap comp l : StronglySorted (not_less comp) l -> is_heap comp l.
Proof.
  intros Hs i p c Hi Hp Hc.
  assert (Hlt : ((i - 1) / 2 < i)%nat).
  { apply Nat.le_lt_trans with (i - 1)%nat; [apply Nat.Div0.div_le_upper_bound|]; lia. }
  revert Hlt Hp Hc. generalize ((i - 1) / 2)%nat as j. clear Hi.
  revert i. induction Hs as [|y l Hs IH Hall]; intros i j Hlt Hp Hc.
  - by rewrite lookup_nil in Hc.
  - destruct i as [|i]; [lia|]. rewrite lookup_cons in Hc.
    destruct j as [|j].
    + rewrite lookup_cons in Hp. injection Hp as <-.
      rewrite Forall_forall in Hall. apply Hall. by eapply list_elem_of_lookup_2.
    + rewrite lookup_cons in Hp. eapply (IH i j); [lia|done..].
Qed.

Lemma sorted_push_heap_spec comp l :
  strict_weak comp -> is_heap comp (removelast l) ->
  heap_by_sorting comp l ≡ₚ l /\ is_heap comp (heap_by_sorting comp l).
Proof.
  intros Hsw _. split; [apply by_sorting_perm|].
  by apply sorted_is_heap, by_sorting_sorted.
Qed.

Lemma sorted_pop_heap_spec comp x l :
  strict_weak comp -> is_heap comp (x :: l) ->
  exists rest, sorted_pop_heap comp (x :: l) = rest ++ [x] /\ rest ≡ₚ l /\ is_heap comp rest.
Proof.
  intros Hsw _. exists (heap_by_sorting comp l). split; [done|].
  split; [apply by_sorting_perm|]. by apply sorted_is_heap, by_sorting_sorted.
Qed.

Lemma sorted_make_heap_spec comp l :
  strict_weak comp -> heap_by_sorting comp l ≡ₚ l /\ is_heap comp (heap_by_sorting comp l).
Proof.
  intros Hsw. split; [apply by_sorting_perm|].
  by apply sorted_is_heap, by_sorting_sorted.
Qed.

Definition sorting_heap : StdHeap := {|
  push_heap := heap_by_sorting;
  pop_heap := sorted_pop_heap;
  make_heap := heap_by_sorting;
  push_heap_spec := sorted_push_heap_spec;
  pop_heap_spec := sorted_pop_heap_spec;
  make_heap_spec := sorted_make_heap_spec
|}.


(** Ranges of one element. *)
Section heap_single.
Context {heap : StdHeap}.

Lemma push_heap_single comp p : strict_weak comp -> push_heap comp [p] = [p].
Proof.
  intros Hsw. destruct (push_heap_spec comp [p] Hsw) as [Hp _].
  { apply is_heap_nil. }
  by apply Permutation_singleton_r in Hp.
Qed.

Lemma pop_heap_single comp p : strict_weak comp -> pop_heap comp [p] = [p].
Proof.
  intros Hsw. destruct (pop_heap_spec comp p [] Hsw) as (rest & -> & Hp & _).
  { apply is_heap_singleton. }
  by apply Permutation_nil_r in Hp as ->.
Qed.

End heap_single.

(** ** Searches on the small inputs, run with the sorting heap *)

Module Runs.
Import Generic Examples.
#[local] Existing Instance sorting_heap.

(** The search from A to C on the line graph. *)
Definition line_search
  : option (PathResult * list nat * AStarGeneric (NODETYPE := nat)) :=
  FindPath (heap := sorting_heap) 10 0%nat 2%nat [] zero_heuristic line AStarGeneric_new.

(** The engine that search leaves behind. *)
Definition line_found : AStarGeneric (NODETYPE := nat) :=
  from_option snd AStarGeneric_new line_search.

(** The same search after its first node, the start node, has been closed. *)
Definition line_closed : AStarGeneric (NODETYPE := nat) :=
  default AStarGeneric_new
    (close_front (heap := sorting_heap) (FindPath_init 0%nat 2%nat zero_heuristic AStarGeneric_new)).

(** The search from 0 to 1 on [fork] after state 0 has been expanded and
    state 2 closed: state 1 is open with [g = 5], and the node under
    expansion has [g = 1]. *)
Definition fork_second : AStarGeneric (NODETYPE := nat) :=
  default AStarGeneric_new
    (s ← close_front (heap := sorting_heap) (FindPath_init 0%nat 1%nat zero_heuristic AStarGeneric_new);
     s ← add_neighbors (fork 0%nat) s;
     close_front s).

(** A search that fails: state 9 is not on the line graph. *)
Definition line_failed
  : option (PathResult * list nat * AStarGeneric (NODETYPE := nat)) :=
  FindPath (heap := sorting_heap) 10 0%nat 9%nat [7%nat] zero_heuristic line AStarGeneric_new.

(** The engine it leaves behind. *)
Definition line_lost : AStarGeneric (NODETYPE := nat) :=
  from_option snd AStarGeneric_new line_failed.

(** The searches on the line graph with the cached engine. *)
Definition cached_search (fuel : nat) (start goal : nat) (finalpath : list nat)
    (s : Cached.AStarGenericCached (NODETYPE := nat))
  : option (PathResult * list nat * Cached.AStarGenericCached (NODETYPE := nat)) :=
  Cached.FindPath (heap := sorting_heap) fuel start (Z.of_nat start) goal finalpath
    zero_heuristic line_indexed s.

(** The engine a first search from A to C leaves behind. *)
Definition cached_warm : Cached.AStarGenericCached (NODETYPE := nat) :=
  from_option snd Cached.AStarGenericCached_new
    (cached_search 10 0%nat 2%nat [] Cached.AStarGenericCached_new).

(** The engine a failed search with the cached engine leaves behind. *)
Definition cached_lost : Cached.AStarGenericCached (NODETYPE := nat) :=
  from_option snd Cached.AStarGenericCached_new
    (cached_search 10 0%nat 9%nat [7%nat] Cached.AStarGenericCached_new).

(** A second search, from B, after the cache entry of B has been cleared,
    at the point where B is about to be expanded. *)
Definition cached_recheck : Cached.AStarGenericCached (NODETYPE := nat) :=
  default Cached.AStarGenericCached_new
    (s ← Cached.FindPath_init 1%nat 1 2%nat zero_heuristic (Cached.ClearCacheIndex 1 cached_warm);
     Cached.close_front (heap := sorting_heap) s).

(** The same engine after the expansion of B. *)
Definition cached_rechecked : Cached.AStarGenericCached (NODETYPE := nat) :=
  default Cached.AStarGenericCached_new
    (Cached.expand (heap := sorting_heap) line_indexed cached_recheck).

(** A first search on the map of [enter_cost], from (5,5) to (7,5), and
    the engine it leaves behind. *)
Definition tile_search (start goal : Tile8Dir.position) (s : Tile8Dir.AStarTile8DirCached)
  : option (PathResult * list Tile8Dir.position * Tile8Dir.AStarTile8DirCached) :=
  Tile8Dir.FindPath (heap := sorting_heap) 50 start goal [] tile_movecost tile_heuristic s.

Definition tile_first_search
  : option (PathResult * list Tile8Dir.position * Tile8Dir.AStarTile8DirCached) :=
  tile_search (5, 5) (7, 5) (Tile8Dir.SetMapWidth 100 Tile8Dir.AStarTile8DirCached_new).

Definition tile_warm : Tile8Dir.AStarTile8DirCached :=
  from_option snd Tile8Dir.AStarTile8DirCached_new tile_first_search.


(** A second search on the engine [cached_warm], from B, at the point
    where B is about to be expanded from its cache entry. *)
Definition cached_revisit : Cached.AStarGenericCached (NODETYPE := nat) :=
  default Cached.AStarGenericCached_new
    (s ← Cached.FindPath_init 1%nat 1 2%nat zero_heuristic cached_warm;
     Cached.close_front (heap := sorting_heap) s).

(** The first search on the map of [enter_cost] after its start position
    has been closed. *)
Definition tile_start_closed : Tile8Dir.AStarTile8DirCached :=
  default Tile8Dir.AStarTile8DirCached_new
    (s ← Tile8Dir.FindPath_init (heap := sorting_heap) (5, 5) (7, 5) tile_heuristic
           (Tile8Dir.SetMapWidth 100 Tile8Dir.AStarTile8DirCached_new);
     snd <$> Tile8Dir.close_front (heap := sorting_heap) s).

End Runs.

(** ** Windows of indices: growth keeps the entries *)

Section window.
Context {A : Type} (new : A).

Lemma window_grow_covers index (v : list A) start :
  window_covers (window_grow new index v start).1 (window_grow new index v start).2 index.
Proof.
  unfold window_grow, window_covers.
  destruct (length v =? 0)%nat eqn:Hlen; simpl.
  { lia. }
  apply Nat.eqb_neq in Hlen.
  destruct (index <? start) eqn:Hlt; simpl.
  { apply Z.ltb_lt in Hlt. rewrite length_app, length_replicate. lia. }
  apply Z.ltb_ge in Hlt.
  destruct (Z.of_nat (length v) <=? index - start) eqn:Hge; simpl.
  { apply Z.leb_le in Hge. rewrite length_app, length_replicate. lia. }
  apply Z.leb_gt in Hge. lia.
Qed.

Lemma window_get_in (v : list A) start j :
  start <= j < start + Z.of_nat (length v) ->
  window_get new v start j = default new (v !! Z.to_nat (j - start)).
Proof.
  intros Hj. unfold window_get. rewrite (proj2 (andb_true_iff _ _)); [done|].
  split; [apply Z.leb_le|apply Z.ltb_lt]; lia.
Qed.

Lemma window_get_out (v : list A) start j :
  ~ (start <= j < start + Z.of_nat (length v)) -> window_get new v start j = new.
Proof.
  intros Hj. unfold window_get.
  destruct ((start <=? j) && (j - start <? Z.of_nat (length v))) eqn:Hc; [|done].
  apply andb_true_iff in Hc as [H1%Z.leb_le H2%Z.ltb_lt]. lia.
Qed.


Lemma window_grow_get index (v : list A) start j :
  window_get new (window_grow new index v start).1 (window_grow new index v start).2 j
  = window_get new v start j.
Proof.
  unfold window_grow.
  destruct (length v =? 0)%nat eqn:Hlen; simpl.
  { apply Nat.eqb_eq in Hlen. apply length_zero_iff_nil in Hlen as ->.
    rewrite (window_get_out [] start j) by (simpl; lia).
    destruct (decide (index <= j < index + 1)) as [Hj|Hj].
    - rewrite window_get_in by (simpl; lia). by replace (j - index) with 0 by lia.
    - by rewrite window_get_out by (simpl; lia). }
  apply Nat.eqb_neq in Hlen.
  destruct (index <? start) eqn:Hlt; simpl.
  { apply Z.ltb_lt in Hlt.
    destruct (decide (start <= j < start + Z.of_nat (length v))) as [Hj|Hj].
    - rewrite !window_get_in by (rewrite ?length_app, ?length_replicate; lia).
      rewrite lookup_app_r; rewrite length_replicate; [|lia].
      f_equal. f_equal. lia.
    - rewrite (window_get_out v) by done.
      destruct (decide (index <= j < start)) as [Hj'|Hj'].
      + rewrite window_get_in by (rewrite ?length_app, ?length_replicate; lia).
        rewrite lookup_app_l by (rewrite length_replicate; lia).
        rewrite lookup_replicate_2 by lia. done.
      + by rewrite window_get_out by (rewrite ?length_app, ?length_replicate; lia). }
  apply Z.ltb_ge in Hlt.
  destruct (Z.of_nat (length v) <=? index - start) eqn:Hge; simpl; [|done].
  apply Z.leb_le in Hge.
  destruct (decide (start <= j < start + Z.of_nat (length v))) as [Hj|Hj].
  - rewrite !window_get_in by (rewrite ?length_app, ?length_replicate; lia).
    rewrite lookup_app_l by lia. done.
  - rewrite (window_get_out v) by done.
    destruct (decide (start <= j <= index)) as [Hj'|Hj'].
    + rewrite window_get_in by (rewrite ?length_app, ?length_replicate; lia).
      rewrite lookup_app_r by lia.
      rewrite lookup_replicate_2 by lia. done.
    + by rewrite window_get_out by (rewrite ?length_app, ?length_replicate; lia).
Qed.

Lemma window_at_get (v : list A) start index :
  window_covers v start index ->
  window_at v start index = Some (window_get new v start index).
Proof.
  unfold window_covers, window_at, window_get. intros Hc.
  rewrite (proj2 (Z.ltb_ge _ _)) by lia.
  rewrite (proj2 (andb_true_iff _ _)).
  2:{ split; [apply Z.leb_le|apply Z.ltb_lt]; lia. }
  destruct (v !! Z.to_nat (index - start)) eqn:Hl; [done|].
  apply lookup_ge_None in Hl. lia.
Qed.

Lemma window_set_get (v : list A) start index x j :
  window_covers v start index ->
  window_get new (window_set v start index x) start j
  = if bool_decide (j = index) then x else window_get new v start j.
Proof.
  unfold window_covers, window_set. intros Hc.
  case_bool_decide as Hj.
  - subst j. rewrite window_get_in by (rewrite length_insert; lia).
    rewrite list_lookup_insert_eq by lia. done.
  - destruct (decide (start <= j < start + Z.of_nat (length v))) as [Hj'|Hj'].
    + rewrite !window_get_in by (rewrite ?length_insert; lia).
      rewrite list_lookup_insert_ne by lia. done.
    + by rewrite !window_get_out by (rewrite ?length_insert; lia).
Qed.

Lemma window_set_covers (v : list A) start index x j :
  window_covers (window_set v start index x) start j <-> window_covers v start j.
Proof. unfold window_covers, window_set. by rewrite length_insert. Qed.

Lemma window_at_set_eq (v : list A) start index e e' :
  window_at v start index = Some e ->
  window_at (window_set v start index e') start index = Some e'.
Proof.
  unfold window_at, window_set. destruct (_ <? _); [done|]. intros He.
  apply list_lookup_insert_eq. by eapply lookup_lt_Some.
Qed.

Lemma window_set_set (v : list A) start index e e' :
  window_set (window_set v start index e) start index e' = window_set v start index e'.
Proof. unfold window_set. apply list_insert_insert_eq. Qed.

End window.

(** ** AStarGeneric: first properties *)

Module GenericFacts.
Import Generic GenericSpec.
Section facts.
Context {NODETYPE : Type} `{Countable NODETYPE}.
Context {heap : StdHeap}.

Abbreviation astarnode := (@astarnode NODETYPE).
Abbreviation AStarGeneric := (@AStarGeneric NODETYPE _ _).

Lemma astarnodecompare_strict_weak (st : gmap ptr astarnode) :
  strict_weak (astarnodecompare st).
Proof.
  unfold astarnodecompare. split.
  - intros a. apply Z.ltb_irrefl.
  - intros a b c Hab Hbc. apply Z.ltb_lt in Hab, Hbc. apply Z.ltb_lt. lia.
  - intros a b c Hab Hbc. apply Z.ltb_ge in Hab, Hbc. apply Z.ltb_ge. lia.
Qed.

Lemma walk_parents_null fuel (st : gmap ptr astarnode) path :
  walk_parents fuel st None path = Some path.
Proof. by destruct fuel. Qed.

(** The state in which [FindPath] enters its loop: the start node alone
    on the open list, with [g] seeded from [destinationcost]. *)
Lemma FindPath_init_spec start goal dc (s : AStarGeneric) :
  exists p,
    let s0 := FindPath_init start goal dc s in
    m_openlist s0 = [p] /\ m_closedlist s0 = [] /\
    store s0 !! p = Some {| m_node := start; m_parent := None;
                            m_f := dc start goal + 0; m_g := dc start goal; m_h := 0 |} /\
    m_helperlist s0 = {[ start := {| le_node := Some p; m_onopen := true;
                                     m_onclosed := false |} ]} /\
    m_currentnode s0 = None /\ m_goal s0 = Some goal /\
    m_destinationcost s0 = Some dc.
Proof.
  unfold FindPath_init, push_start. simpl.
  destruct (allocate _) as [p a] eqn:Ha. exists p. simpl.
  rewrite push_heap_single by apply astarnodecompare_strict_weak.
  unfold hl. simpl. rewrite lookup_insert_eq, lookup_empty. simpl.
  rewrite lookup_insert_eq, insert_insert_eq, insert_empty. done.
Qed.

Lemma InitializeStep_spec start goal dc gn (s : AStarGeneric) :
  exists p,
    let s0 := InitializeStep start goal dc gn s in
    m_openlist s0 = [p] /\ m_closedlist s0 = [] /\
    store s0 !! p = Some {| m_node := start; m_parent := None;
                            m_f := dc start goal + 0; m_g := dc start goal; m_h := 0 |} /\
    m_helperlist s0 = {[ start := {| le_node := Some p; m_onopen := true;
                                     m_onclosed := false |} ]} /\
    m_currentnode s0 = None /\ m_goal s0 = Some goal /\
    m_destinationcost s0 = Some dc /\ m_getneighbors s0 = Some gn.
Proof.
  unfold InitializeStep, push_start. simpl.
  destruct (allocate _) as [p a] eqn:Ha. exists p. simpl.
  rewrite push_heap_single by apply astarnodecompare_strict_weak.
  unfold hl. simpl. rewrite lookup_insert_eq, lookup_empty. simpl.
  rewrite lookup_insert_eq, insert_insert_eq, insert_empty. done.
Qed.

Lemma FindPath_unfold fuel start goal finalpath dc gn (s : AStarGeneric) :
  FindPath fuel start goal finalpath dc gn s
  = FindPath_loop fuel goal finalpath gn (FindPath_init start goal dc s).
Proof. reflexivity. Qed.

Lemma FindPath_loop_unfold fuel goal finalpath gn (s : AStarGeneric) :
  FindPath_loop (S fuel) goal finalpath gn s =
  match m_openlist s with
  | [] => Some (PATH_NOTFOUND, finalpath, s)
  | _ :: _ =>
      s ← close_front s;
      cur ← deref (store s) (m_currentnode s);
      if bool_decide (m_node cur ≠ goal) then
        s ← add_neighbors (gn (m_node cur)) s;
        FindPath_loop fuel goal finalpath gn s
      else
        path ← walk_parents fuel (store s) (m_currentnode s) [];
        Some (PATH_FOUND, path, set_currentnode None s)
  end.
Proof. reflexivity. Qed.

(** *** Relaxing a neighbour that is on the open list *)

Lemma AddNeighbor_open neighbor movecost (s : AStarGeneric) open cur o :
  m_onclosed (hl s neighbor) = false ->
  le_node (hl s neighbor) = Some open ->
  deref (store s) (m_currentnode s) = Some cur ->
  store s !! open = Some o ->
  AddNeighbor neighbor movecost s =
    Some (if m_g cur + movecost <? m_g o then
            let st := <[open := {| m_node := m_node o;
                                   m_parent := m_currentnode s;
                                   m_f := m_g cur + movecost + m_h o;
                                   m_g := m_g cur + movecost;
                                   m_h := m_h o |}]> (store s) in
            set_openlist (make_heap (astarnodecompare st) (m_openlist s))
              (set_store st (set_astaropen (Some open) s))
          else set_astaropen (Some open) s).
Proof.
  intros Hcl Hop Hcur Ho. unfold AddNeighbor. rewrite Hcl. simpl.
  rewrite Hop, Hcur. simpl. rewrite Ho. simpl.
  by destruct (m_g cur + movecost <? m_g o).
Qed.

(** *** What the loop leaves behind *)

Lemma FindPath_loop_notfound fuel goal finalpath gn (s : AStarGeneric) fp s' :
  FindPath_loop fuel goal finalpath gn s = Some (PATH_NOTFOUND, fp, s') ->
  fp = finalpath /\ m_openlist s' = [].
Proof.
  revert s. induction fuel as [|fuel IH]; intros s; simpl.
  - destruct (m_openlist s) eqn:Hol; [|done]. intros [= <- <-]. done.
  - destruct (m_openlist s) eqn:Hol; [intros [= <- <-]; done|].
    destruct (close_front s) as [s1|]; simpl; [|done].
    destruct (deref (store s1) (m_currentnode s1)) as [cur|]; simpl; [|done].
    destruct (bool_decide (m_node cur ≠ goal)).
    + destruct (add_neighbors _ s1) as [s2|]; simpl; [|done]. apply IH.
    + destruct (walk_parents _ _ _ _); simpl; [|done]. intros [=].
Qed.

Lemma FindPath_loop_found fuel goal finalpath gn (s : AStarGeneric) fp s' :
  FindPath_loop fuel goal finalpath gn s = Some (PATH_FOUND, fp, s') ->
  m_currentnode s' = None.
Proof.
  revert s. induction fuel as [|fuel IH]; intros s; simpl.
  - destruct (m_openlist s) eqn:Hol; [|done]. intros [=].
  - destruct (m_openlist s) eqn:Hol; [intros [=]|].
    destruct (close_front s) as [s1|]; simpl; [|done].
    destruct (deref (store s1) (m_currentnode s1)) as [cur|]; simpl; [|done].
    destruct (bool_decide (m_node cur ≠ goal)).
    + destruct (add_neighbors _ s1) as [s2|]; simpl; [|done]. apply IH.
    + destruct (walk_parents _ _ _ _); simpl; [|done]. by intros [= <- <-].
Qed.

Lemma FindPath_loop_not_searching fuel goal finalpath gn (s : AStarGeneric) fp s' :
  FindPath_loop fuel goal finalpath gn s <> Some (PATH_SEARCHING, fp, s').
Proof.
  revert s. induction fuel as [|fuel IH]; intros s; simpl.
  - by destruct (m_openlist s).
  - destruct (m_openlist s) eqn:Hol; [done|].
    destruct (close_front s) as [s1|]; simpl; [|done].
    destruct (deref (store s1) (m_currentnode s1)) as [cur|]; simpl; [|done].
    destruct (bool_decide (m_node cur ≠ goal)).
    + destruct (add_neighbors _ s1) as [s2|]; simpl; [|done]. apply IH.
    + by destruct (walk_parents _ _ _ _).
Qed.

(** *** Stepping *)

Lemma InitializeStep_FindPath_init start goal dc gn (s : AStarGeneric) :
  InitializeStep start goal dc gn s = with_stepper start gn (FindPath_init start goal dc s).
Proof.
  unfold InitializeStep, FindPath_init, push_start, with_stepper. simpl.
  by destruct (allocate _).
Qed.

Lemma close_front_with_stepper start gn (s : AStarGeneric) :
  close_front (with_stepper start gn s) = with_stepper start gn <$> close_front s.
Proof.
  unfold close_front. simpl.
  destruct (deref _ _) as [cur|]; simpl; [|done].
  by destruct (head (m_openlist s)).
Qed.

Lemma AddNeighbor_with_stepper start gn n c (s : AStarGeneric) :
  AddNeighbor n c (with_stepper start gn s) = with_stepper start gn <$> AddNeighbor n c s.
Proof.
  unfold AddNeighbor, hl. simpl.
  destruct (m_onclosed _); [done|]. simpl.
  destruct (le_node _) as [open|]; simpl.
  - destruct (deref _ _) as [cur|]; simpl; [|done].
    destruct (store s !! open) as [o|]; simpl; [|done].
    by destruct (_ <? _).
  - destruct (allocate _) as [p a]. simpl.
    destruct (deref _ _) as [cur|]; simpl; [|done].
    destruct (m_destinationcost s); simpl; [|done].
    by destruct (m_goal s).
Qed.

Lemma add_neighbors_with_stepper start gn l (s : AStarGeneric) :
  add_neighbors l (with_stepper start gn s) = with_stepper start gn <$> add_neighbors l s.
Proof.
  revert s. induction l as [|[n c] l IH]; intros s; simpl; [done|].
  rewrite AddNeighbor_with_stepper.
  destruct (AddNeighbor n c s) as [s1|]; simpl; [apply IH|done].
Qed.

Lemma close_front_goal (s s1 : AStarGeneric) :
  close_front s = Some s1 -> m_goal s1 = m_goal s.
Proof.
  unfold close_front. simpl.
  destruct (deref _ _) as [cur|]; simpl; [|done].
  destruct (head (m_openlist s)); simpl; [|done]. by intros [= <-].
Qed.

Lemma AddNeighbor_goal n c (s s1 : AStarGeneric) :
  AddNeighbor n c s = Some s1 -> m_goal s1 = m_goal s.
Proof.
  unfold AddNeighbor, hl. simpl.
  destruct (m_onclosed _); [by intros [= <-]|]. simpl.
  destruct (le_node _) as [open|]; simpl.
  - destruct (deref _ _) as [cur|]; simpl; [|done].
    destruct (store s !! open) as [o|]; simpl; [|done].
    destruct (_ <? _); by intros [= <-].
  - destruct (allocate _) as [p a]. simpl.
    destruct (deref _ _) as [cur|]; simpl; [|done].
    destruct (m_destinationcost s); simpl; [|done].
    destruct (m_goal s) eqn:Hg; simpl; [|done]. intros [= <-]. simpl. done.
Qed.

Lemma add_neighbors_goal l (s s1 : AStarGeneric) :
  add_neighbors l s = Some s1 -> m_goal s1 = m_goal s.
Proof.
  revert s. induction l as [|[n c] l IH]; intros s; simpl; [by intros [= <-]|].
  destruct (AddNeighbor n c s) as [s2|] eqn:Hs2; simpl; [|done].
  intros Hs1. rewrite (IH _ Hs1). by eapply AddNeighbor_goal.
Qed.

Lemma Step_with_stepper start gn (s : AStarGeneric) :
  Step (with_stepper start gn s) =
  match m_openlist s with
  | _ :: _ =>
      s1 ← close_front s;
      cur ← deref (store s1) (m_currentnode s1);
      goal ← m_goal s1;
      if bool_decide (m_node cur ≠ goal) then
        s2 ← add_neighbors (gn (m_node cur)) s1;
        Some (PATH_SEARCHING, with_stepper start gn s2)
      else Some (PATH_FOUND, with_stepper start gn s1)
  | [] => Some (PATH_NOTFOUND, with_stepper start gn s)
  end.
Proof.
  unfold Step. change (m_openlist (with_stepper start gn s)) with (m_openlist s).
  destruct (m_openlist s); [done|].
  rewrite close_front_with_stepper.
  destruct (close_front s) as [s1|]; [|done]. cbn [fmap option_fmap option_map mbind option_bind].
  change (store (with_stepper start gn s1)) with (store s1).
  change (m_currentnode (with_stepper start gn s1)) with (m_currentnode s1).
  destruct (deref (store s1) (m_currentnode s1)) as [cur|]; [|done].
  cbn [mbind option_bind].
  change (m_goal (with_stepper start gn s1)) with (m_goal s1).
  destruct (m_goal s1) as [goal|]; [|done]. cbn [mbind option_bind].
  destruct (bool_decide (m_node cur ≠ goal)); [|done].
  change (m_getneighbors (with_stepper start gn s1)) with (Some gn).
  cbn [mbind option_bind]. rewrite add_neighbors_with_stepper.
  by destruct (add_neighbors _ s1).
Qed.

Lemma Step_until_done_unfold n (s : AStarGeneric) :
  Step_until_done (S n) s =
  match Step s with
  | Some (PATH_SEARCHING, s') => Step_until_done n s'
  | Some (r, s') => Some (r, s')
  | None => None
  end.
Proof. simpl. destruct (Step s) as [[[] ?]|]; done. Qed.

Lemma FindPath_loop_to_steps fuel start goal finalpath gn (s : AStarGeneric) r fp s' :
  m_goal s = Some goal ->
  FindPath_loop fuel goal finalpath gn s = Some (r, fp, s') ->
  exists n s'', Step_until_done n (with_stepper start gn s) = Some (r, s'') /\
                stepped_outcome r finalpath fp s''.
Proof.
  assert (Hempty : forall s : AStarGeneric, m_openlist s = [] ->
    exists n s'', Step_until_done n (with_stepper start gn s) = Some (PATH_NOTFOUND, s'') /\
                  stepped_outcome PATH_NOTFOUND finalpath finalpath s'').
  { intros s0 Hol. exists 1%nat, (with_stepper start gn s0).
    rewrite Step_until_done_unfold, Step_with_stepper, Hol. done. }
  revert s. induction fuel as [|fuel IH]; intros s Hgoal.
  - simpl. destruct (m_openlist s) eqn:Hol; [|done]. intros [= <- <- <-]. by apply Hempty.
  - rewrite FindPath_loop_unfold. destruct (m_openlist s) eqn:Hol.
    { intros [= <- <- <-]. by apply Hempty. }
    destruct (close_front s) as [s1|] eqn:Hs1; [|done]. cbn [mbind option_bind].
    destruct (deref (store s1) (m_currentnode s1)) as [cur|] eqn:Hcur; [|done].
    cbn [mbind option_bind].
    pose proof (close_front_goal _ _ Hs1) as Hg1.
    destruct (bool_decide (m_node cur ≠ goal)) eqn:Hne.
    + destruct (add_neighbors _ s1) as [s2|] eqn:Hs2; [|done]. cbn [mbind option_bind].
      intros Hloop.
      destruct (IH s2) as (n & s'' & Hn & Hout); [|done|].
      { rewrite (add_neighbors_goal _ _ _ Hs2). congruence. }
      exists (S n), s''. split; [|done].
      rewrite Step_until_done_unfold, Step_with_stepper, Hol, Hs1.
      cbn [mbind option_bind]. rewrite Hcur. cbn [mbind option_bind].
      rewrite Hg1, Hgoal. cbn [mbind option_bind]. rewrite Hne, Hs2. done.
    + destruct (walk_parents _ _ _ _) as [path|] eqn:Hwalk; [|done].
      cbn [mbind option_bind]. intros [= <- <- <-].
      exists 1%nat, (with_stepper start gn s1). split.
      * rewrite Step_until_done_unfold, Step_with_stepper, Hol, Hs1.
        cbn [mbind option_bind]. rewrite Hcur. cbn [mbind option_bind].
        rewrite Hg1, Hgoal. cbn [mbind option_bind]. by rewrite Hne.
      * exists fuel. intros ?. done.
Qed.

Lemma steps_to_FindPath_loop n start goal finalpath gn (s : AStarGeneric) r fp s'' :
  m_goal s = Some goal ->
  Step_until_done n (with_stepper start gn s) = Some (r, s'') ->
  stepped_outcome r finalpath fp s'' ->
  exists fuel s', FindPath_loop fuel goal finalpath gn s = Some (r, fp, s').
Proof.
  revert s. induction n as [|n IH]; intros s Hgoal; [done|].
  rewrite Step_until_done_unfold, Step_with_stepper.
  destruct (m_openlist s) eqn:Hol.
  { intros [= <- <-] Hout. simpl in Hout. subst fp.
    exists 0%nat, s. simpl. by rewrite Hol. }
  destruct (close_front s) as [s1|] eqn:Hs1; [|done]. cbn [mbind option_bind].
  destruct (deref (store s1) (m_currentnode s1)) as [cur|] eqn:Hcur; [|done].
  cbn [mbind option_bind].
  pose proof (close_front_goal _ _ Hs1) as Hg1. rewrite Hg1, Hgoal.
  cbn [mbind option_bind].
  destruct (bool_decide (m_node cur ≠ goal)) eqn:Hne.
  - destruct (add_neighbors _ s1) as [s2|] eqn:Hs2; [|done]. cbn [mbind option_bind].
    intros Hn Hout.
    destruct (IH s2) as (fuel & s' & Hloop); [|done|done|].
    { rewrite (add_neighbors_goal _ _ _ Hs2). congruence. }
    exists (S fuel), s'. rewrite FindPath_loop_unfold, Hol, Hs1.
    cbn [mbind option_bind]. rewrite Hcur. cbn [mbind option_bind].
    rewrite Hne, Hs2. done.
  - intros [= <- <-] [k Hk]. specialize (Hk []). unfold GetPath in Hk.
    change (store (with_stepper start gn s1)) with (store s1) in Hk.
    change (m_currentnode (with_stepper start gn s1)) with (m_currentnode s1) in Hk.
    exists (S k). eexists. rewrite FindPath_loop_unfold, Hol, Hs1.
    cbn [mbind option_bind]. rewrite Hcur. cbn [mbind option_bind].
    rewrite Hne, Hk. done.
Qed.

End facts.
End GenericFacts.

(** ** AStarGeneric: well-formed states *)

Module GenericWf.
Import Generic GenericSpec GenericFacts.

Lemma allocate_spec a p a' (L : list ptr) :
  allocate a = (p, a') ->
  NoDup (m_mem a ++ L) ->
  (forall q, q ∈ m_mem a ++ L -> (q < alloc_next a)%nat) ->
  (p ∉ L) /\ NoDup (m_mem a' ++ p :: L) /\
  (forall q, q ∈ m_mem a' ++ p :: L -> (q < alloc_next a')%nat).
Proof.
  unfold allocate. destruct (m_mem a) as [|p0 rest]; intros [= <- <-]; simpl.
  - intros Hnd Hb. split_and!.
    + intros Hin. apply Hb in Hin. lia.
    + constructor; [|done]. intros Hin. apply Hb in Hin. lia.
    + intros q [->|Hin]%elem_of_cons; [lia|]. apply Hb in Hin. lia.
  - intros Hnd Hb. split_and!.
    + apply NoDup_cons in Hnd as [Hnin _]. set_solver.
    + by rewrite <- Permutation_middle.
    + intros q Hq. apply Hb. by rewrite <- Permutation_middle in Hq.
Qed.

Lemma deallocate_all_mem l a :
  m_mem (deallocate_all l a) = reverse l ++ m_mem a /\
  alloc_next (deallocate_all l a) = alloc_next a.
Proof.
  revert a. induction l as [|p l IH]; intros a; simpl; [done|].
  destruct (IH (deallocate p a)) as [-> ->]. simpl.
  by rewrite reverse_cons, <- app_assoc.
Qed.

(** Reading a member of a state written with the setters. *)
Tactic Notation "simpl_fields" :=
  cbn [store m_astarnodeallocator m_openlist m_closedlist m_helperlist m_currentnode
       m_astaropen m_start m_goal m_destinationcost m_getneighbors
       set_store set_allocator set_openlist set_closedlist set_helperlist
       set_currentnode set_astaropen set_start set_goal set_destinationcost
       set_getneighbors].
Tactic Notation "simpl_fields" "in" hyp(H) :=
  cbn [store m_astarnodeallocator m_openlist m_closedlist m_helperlist m_currentnode
       m_astaropen m_start m_goal m_destinationcost m_getneighbors
       set_store set_allocator set_openlist set_closedlist set_helperlist
       set_currentnode set_astaropen set_start set_goal set_destinationcost
       set_getneighbors] in H.

Section wf.
Context {NODETYPE : Type} `{Countable NODETYPE}.
Context {heap : StdHeap}.

Abbreviation astarnode := (@astarnode NODETYPE).
Abbreviation AStarGeneric := (@AStarGeneric NODETYPE _ _).

Lemma status_of_open e p : status_of e = Some (OnOpen p) <-> e = entry_open p.
Proof.
  destruct e as [[q|] [] []]; unfold status_of, entry_open; simpl; split; try done;
    by intros [= ->].
Qed.

Lemma status_of_closed e p : status_of e = Some (OnClosed p) <-> e = entry_closed p.
Proof.
  destruct e as [[q|] [] []]; unfold status_of, entry_closed; simpl; split; try done;
    by intros [= ->].
Qed.

Lemma status_of_undiscovered (e : listelement) :
  status_of e = Some Undiscovered <-> e = listelement_new.
Proof.
  destruct e as [[q|] [] []]; unfold status_of, listelement_new; simpl; split; done.
Qed.

Lemma hl_insert (s : AStarGeneric) m x e y :
  m_helperlist s = <[x := e]> m ->
  hl s y = if decide (x = y) then e else default listelement_new (m !! y).
Proof.
  intros Hm. unfold hl. rewrite Hm. rewrite lookup_insert.
  by destruct (decide (x = y)).
Qed.

(** A state that is not closed and has a node is on the open list. *)
Lemma wf_lookup_open (s : AStarGeneric) x p :
  wf s -> m_onclosed (hl s x) = false -> le_node (hl s x) = Some p ->
  hl s x = entry_open p /\ p ∈ m_openlist s /\
  exists n, store s !! p = Some n /\ m_node n = x.
Proof.
  intros Hwf Hcl Hp. pose proof (wf_hl _ Hwf x) as Hx. unfold entry_ok in Hx.
  destruct (hl s x) as [[q|] [] []]; simpl in *; try done.
  injection Hp as ->. done.
Qed.

Lemma wf_lookup_new (s : AStarGeneric) x :
  wf s -> le_node (hl s x) = None -> hl s x = listelement_new.
Proof.
  intros Hwf Hp. pose proof (wf_hl _ Hwf x) as Hx. unfold entry_ok in Hx.
  destruct (hl s x) as [[q|] [] []]; simpl in *; done.
Qed.

Lemma AddNeighbor_closed neighbor movecost (s : AStarGeneric) :
  m_onclosed (hl s neighbor) = true -> AddNeighbor neighbor movecost s = Some s.
Proof. intros Hcl. unfold AddNeighbor. by rewrite Hcl. Qed.

Lemma AddNeighbor_new neighbor movecost (s : AStarGeneric) cur dc goal p a :
  hl s neighbor = listelement_new ->
  deref (store s) (m_currentnode s) = Some cur ->
  m_destinationcost s = Some dc -> m_goal s = Some goal ->
  allocate (m_astarnodeallocator s) = (p, a) ->
  AddNeighbor neighbor movecost s =
    Some (let st := <[p := {| m_node := neighbor; m_parent := m_currentnode s;
                              m_f := m_g cur + movecost + dc neighbor goal;
                              m_g := m_g cur + movecost;
                              m_h := dc neighbor goal |}]> (store s) in
          set_helperlist (<[neighbor := entry_open p]> (m_helperlist s))
            (set_openlist (push_heap (astarnodecompare st) (m_openlist s ++ [p]))
               (set_store st (set_allocator a (set_astaropen None s))))).
Proof.
  intros Hnew Hcur Hdc Hgoal Ha. unfold AddNeighbor, hl in *. rewrite Hnew. simpl.
  rewrite Hnew. simpl. rewrite Ha, Hcur. simpl. rewrite Hdc. simpl.
  rewrite Hgoal. simpl. done.
Qed.

Lemma close_front_eq (s : AStarGeneric) p l n rest :
  m_openlist s = p :: l -> store s !! p = Some n ->
  hl s (m_node n) = entry_open p ->
  pop_heap (astarnodecompare (store s)) (p :: l) = rest ++ [p] ->
  close_front s =
    Some (set_helperlist (<[m_node n := entry_closed p]> (m_helperlist s))
            (set_closedlist (m_closedlist s ++ [p])
               (set_openlist rest (set_currentnode (Some p) s)))).
Proof.
  intros Hol Hn Hhl Hpop. unfold close_front. simpl. rewrite Hol. simpl.
  rewrite Hn. simpl. rewrite Hpop, removelast_last. unfold hl. simpl.
  rewrite lookup_insert_eq. simpl. fold (hl s (m_node n)). rewrite Hhl. simpl.
  by rewrite insert_insert_eq.
Qed.

(** With the goal at the start, the first iteration finds it. *)
Lemma FindPath_start_is_goal fuel start finalpath dc gn (s : AStarGeneric) :
  exists p s',
    FindPath (S (S fuel)) start start finalpath dc gn s
      = Some (PATH_FOUND, [start], s') /\
    m_closedlist s' = [p] /\
    store s' !! p = Some {| m_node := start; m_parent := None;
                            m_f := dc start start + 0; m_g := dc start start; m_h := 0 |}.
Proof.
  unfold FindPath.
  destruct (FindPath_init_spec start start dc s) as (p & Hspec).
  generalize dependent (FindPath_init start start dc s). intros s0 Hspec.
  cbv zeta in Hspec. destruct Hspec as (Hol & Hcl & Hst & Hhl & Hcur & _).
  exists p. rewrite FindPath_loop_unfold, Hol.
  erewrite (close_front_eq s0 p [] _ []); [|done|done| |].
  - cbn [mbind option_bind]. unfold deref at 1. cbn [store m_currentnode set_helperlist
      set_closedlist set_openlist set_currentnode mbind option_bind].
    rewrite Hst. cbn [mbind option_bind m_node].
    rewrite bool_decide_eq_false_2 by (intros Hne; by apply Hne).
    cbn [store m_currentnode set_helperlist set_closedlist set_openlist set_currentnode].
    cbn [walk_parents]. rewrite Hst. cbn [mbind option_bind m_parent m_node].
    rewrite walk_parents_null. cbn [mbind option_bind].
    eexists. split; [reflexivity|]. cbn. by rewrite Hcl.
  - unfold hl. rewrite Hhl. cbn [m_node]. by rewrite lookup_singleton_eq.
  - by rewrite pop_heap_single by apply astarnodecompare_strict_weak.
Qed.

Lemma AddNeighbor_inv (s s' : AStarGeneric) x movecost :
  wf s -> AddNeighbor x movecost s = Some s' -> AddNeighbor_result s x movecost s'.
Proof.
  intros Hwf Hadd.
  destruct (m_onclosed (hl s x)) eqn:Hcl.
  { rewrite AddNeighbor_closed in Hadd by done. injection Hadd as <-. by constructor. }
  destruct (le_node (hl s x)) as [p|] eqn:Hp.
  - destruct (wf_lookup_open s x p Hwf Hcl Hp) as (Hhl & Hin & o & Ho & Hx).
    destruct (deref (store s) (m_currentnode s)) as [cur|] eqn:Hcur.
    + erewrite AddNeighbor_open in Hadd by done.
      destruct (m_g cur + movecost <? m_g o) eqn:Hlt; injection Hadd as <-.
      * apply Z.ltb_lt in Hlt. by eapply anr_update.
      * apply Z.ltb_ge in Hlt. by eapply anr_keep.
    + exfalso. unfold AddNeighbor, hl in *. rewrite Hcl in Hadd. simpl in Hadd.
      rewrite Hp, Hcur in Hadd. done.
  - pose proof (wf_lookup_new s x Hwf Hp) as Hnew.
    destruct (allocate (m_astarnodeallocator s)) as [p a] eqn:Ha.
    destruct (deref (store s) (m_currentnode s)) as [cur|] eqn:Hcur;
      [destruct (m_destinationcost s) as [dc|] eqn:Hdc;
       [destruct (m_goal s) as [goal|] eqn:Hgoal|]|].
    + rewrite (AddNeighbor_new x movecost s cur dc goal p a) in Hadd by done.
      injection Hadd as <-. by eapply anr_new.
    + exfalso. unfold AddNeighbor, hl in *. rewrite Hcl in Hadd. simpl in Hadd.
      rewrite Hp, Ha, Hcur in Hadd. simpl in Hadd. rewrite Hdc in Hadd. simpl in Hadd.
      rewrite Hgoal in Hadd. done.
    + exfalso. unfold AddNeighbor, hl in *. rewrite Hcl in Hadd. simpl in Hadd.
      rewrite Hp, Ha, Hcur in Hadd. simpl in Hadd. rewrite Hdc in Hadd. done.
    + exfalso. unfold AddNeighbor, hl in *. rewrite Hcl in Hadd. simpl in Hadd.
      rewrite Hp, Ha, Hcur in Hadd. done.
Qed.

Lemma AddNeighbor_progress (s : AStarGeneric) x movecost cur dc goal :
  wf s -> deref (store s) (m_currentnode s) = Some cur ->
  m_destinationcost s = Some dc -> m_goal s = Some goal ->
  is_Some (AddNeighbor x movecost s).
Proof.
  intros Hwf Hcur Hdc Hgoal.
  destruct (m_onclosed (hl s x)) eqn:Hcl.
  { rewrite AddNeighbor_closed by done. done. }
  destruct (le_node (hl s x)) as [p|] eqn:Hp.
  - destruct (wf_lookup_open s x p Hwf Hcl Hp) as (Hhl & Hin & o & Ho & Hx).
    erewrite AddNeighbor_open by done. done.
  - pose proof (wf_lookup_new s x Hwf Hp) as Hnew.
    destruct (allocate (m_astarnodeallocator s)) as [p a] eqn:Ha.
    erewrite AddNeighbor_new by done. done.
Qed.

(** *** Preservation *)

Lemma wf_set_astaropen (s : AStarGeneric) v : wf s -> wf (set_astaropen v s).
Proof. intros [[] ? ? ? ?]. by split; [split|..]. Qed.

Lemma wf_open_inj (s : AStarGeneric) p q n nq :
  wf s -> p ∈ m_openlist s ++ m_closedlist s -> q ∈ m_openlist s ++ m_closedlist s ->
  store s !! p = Some n -> store s !! q = Some nq -> m_node n = m_node nq -> p = q.
Proof.
  intros Hwf Hp Hq Hn Hnq Heq.
  assert (Hle : forall r nr, r ∈ m_openlist s ++ m_closedlist s -> store s !! r = Some nr ->
                  le_node (hl s (m_node nr)) = Some r).
  { intros r nr [Hr|Hr]%elem_of_app Hnr.
    - destruct (wf_open _ Hwf r Hr) as (n' & Hn' & Hh). rewrite Hnr in Hn'.
      injection Hn' as <-. by rewrite Hh.
    - destruct (wf_closed _ Hwf r Hr) as (n' & Hn' & Hh). rewrite Hnr in Hn'.
      injection Hn' as <-. by rewrite Hh. }
  pose proof (Hle p n Hp Hn) as H1. pose proof (Hle q nq Hq Hnq) as H2.
  rewrite Heq in H1. rewrite H1 in H2. by injection H2.
Qed.

Lemma wf_open_not_closed (s : AStarGeneric) p :
  wf s -> p ∈ m_openlist s -> p ∉ m_closedlist s.
Proof.
  intros Hwf Hp Hc. pose proof (alloc_nodup _ (wf_alloc _ Hwf)) as Hnd.
  apply NoDup_app in Hnd as (_ & _ & Hnd). apply NoDup_app in Hnd as (_ & Hdis & _).
  by eapply Hdis.
Qed.

Lemma wf_closed_state (s : AStarGeneric) p l n rest :
  wf s -> m_openlist s = p :: l -> store s !! p = Some n -> rest ≡ₚ l ->
  is_heap (astarnodecompare (store s)) rest ->
  wf (closed_state s p n rest).
Proof.
  intros Hwf Hol Hn Hrest Hheap.
  assert (Hpo : p ∈ m_openlist s) by (rewrite Hol; left).
  destruct (wf_open _ Hwf p Hpo) as (n' & Hn' & Hhl). rewrite Hn in Hn'. injection Hn' as <-.
  assert (Hnd : NoDup (p :: l)).
  { pose proof (alloc_nodup _ (wf_alloc _ Hwf)) as Hnd. rewrite Hol in Hnd.
    apply NoDup_app in Hnd as (_ & _ & Hnd). by apply NoDup_app in Hnd as (? & _ & _). }
  apply NoDup_cons in Hnd as [Hpl _].
  assert (Hperm : m_mem (m_astarnodeallocator s) ++ rest ++ m_closedlist s ++ [p]
                  ≡ₚ m_mem (m_astarnodeallocator s) ++ m_openlist s ++ m_closedlist s).
  { rewrite Hol, Hrest. f_equiv. rewrite (Permutation_app_comm (m_closedlist s)). simpl.
    by rewrite <- Permutation_middle. }
  split; simpl.
  - split; simpl.
    + rewrite Hperm. apply (alloc_nodup _ (wf_alloc _ Hwf)).
    + intros q Hq. rewrite Hperm in Hq. by apply (alloc_bound _ (wf_alloc _ Hwf)).
  - intros q Hq. rewrite Hrest in Hq.
    destruct (wf_open _ Hwf q) as (nq & Hnq & Hhq); [rewrite Hol; by right|].
    exists nq. split; [done|].
    erewrite hl_insert by done. destruct (decide (m_node n = m_node nq)) as [Heq|]; [|done].
    rewrite <- Heq, Hhl in Hhq. injection Hhq as ->. done.
  - intros q [Hq| ->%list_elem_of_singleton]%elem_of_app.
    + destruct (wf_closed _ Hwf q Hq) as (nq & Hnq & Hhq). exists nq. split; [done|].
      erewrite hl_insert by done. destruct (decide (m_node n = m_node nq)) as [Heq|]; [|done].
      rewrite <- Heq, Hhl in Hhq. done.
    + exists n. split; [done|]. erewrite hl_insert by done. by rewrite decide_True.
  - intros y. unfold entry_ok. erewrite hl_insert by done. simpl.
    destruct (decide (m_node n = y)) as [<-|Hne].
    + simpl. split; [set_solver|eauto].
    + pose proof (wf_hl _ Hwf y) as Hy. unfold entry_ok in Hy.
      destruct (status_of _) as [[|q|q]|]; [done| | |done].
      * destruct Hy as (Hq & nq & Hnq & Hy). split; [|eauto].
        rewrite Hol in Hq. apply elem_of_cons in Hq as [->|Hq]; [|by rewrite Hrest].
        rewrite Hn in Hnq. by injection Hnq as <-.
      * destruct Hy as (Hq & Hex). split; [apply elem_of_app; by left|done].
  - done.
Qed.

(** Taking the front of a non-empty open list succeeds; the node taken
    has the least [f] on the list. *)
Lemma close_front_wf (s : AStarGeneric) :
  wf s -> m_openlist s <> [] ->
  exists p l n rest,
    m_openlist s = p :: l /\ store s !! p = Some n /\ rest ≡ₚ l /\
    hl s (m_node n) = entry_open p /\
    close_front s = Some (closed_state s p n rest) /\
    wf (closed_state s p n rest) /\
    (forall q nq, q ∈ m_openlist s -> store s !! q = Some nq -> m_f n <= m_f nq).
Proof.
  intros Hwf Hne. destruct (m_openlist s) as [|p l] eqn:Hol; [done|].
  assert (Hpo : p ∈ m_openlist s) by (rewrite Hol; left).
  destruct (wf_open _ Hwf p Hpo) as (n & Hn & Hhl).
  pose proof (wf_heap _ Hwf) as Hheap. rewrite Hol in Hheap.
  destruct (pop_heap_spec _ p l (astarnodecompare_strict_weak (store s)) Hheap)
    as (rest & Hpop & Hrest & Hheap').
  exists p, l, n, rest. split_and!; try done.
  - by eapply close_front_eq.
  - by eapply wf_closed_state.
  - intros q nq Hq Hnq.
    pose proof (is_heap_front _ (p :: l) p q (astarnodecompare_strict_weak (store s))
                  Hheap eq_refl) as Hmin.
    specialize (Hmin Hq).
    unfold astarnodecompare, node_f in Hmin. rewrite Hn, Hnq in Hmin. simpl in Hmin.
    by apply Z.ltb_ge in Hmin.
Qed.

Lemma astarnodecompare_ext (st st' : gmap ptr astarnode) (l : list ptr) :
  (forall q, q ∈ l -> st' !! q = st !! q) ->
  is_heap (astarnodecompare st) l -> is_heap (astarnodecompare st') l.
Proof.
  intros Hagree. apply is_heap_ext. intros a b Ha Hb.
  unfold astarnodecompare, node_f. by rewrite !Hagree.
Qed.

Lemma wf_relaxed_state (s : AStarGeneric) x p o cur movecost :
  wf s -> hl s x = entry_open p -> p ∈ m_openlist s -> store s !! p = Some o ->
  m_node o = x ->
  wf (relaxed_state s p o cur movecost).
Proof.
  intros Hwf Hhl Hp Ho Hx.
  destruct (make_heap_spec (astarnodecompare (<[p := relaxed_node s o cur movecost]> (store s)))
              (m_openlist s) (astarnodecompare_strict_weak _)) as [Hperm Hheap].
  pose proof (wf_open_not_closed s p Hwf Hp) as Hpc.
  split; simpl.
  - split; simpl.
    + rewrite Hperm. apply (alloc_nodup _ (wf_alloc _ Hwf)).
    + intros q Hq. rewrite Hperm in Hq. by apply (alloc_bound _ (wf_alloc _ Hwf)).
  - intros q Hq. rewrite Hperm in Hq.
    destruct (wf_open _ Hwf q Hq) as (nq & Hnq & Hhq).
    destruct (decide (p = q)) as [<-|Hne].
    + rewrite lookup_insert_eq. eexists. split; [done|]. simpl.
      rewrite Ho in Hnq. by injection Hnq as <-.
    + rewrite lookup_insert_ne by done. eauto.
  - intros q Hq. destruct (wf_closed _ Hwf q Hq) as (nq & Hnq & Hhq).
    rewrite lookup_insert_ne by (by intros ->). eauto.
  - intros y. pose proof (wf_hl _ Hwf y) as Hy. unfold entry_ok in *.
    change (hl (relaxed_state s p o cur movecost) y) with (hl s y). simpl.
    destruct (status_of (hl s y)) as [[|q|q]|]; [done| | |done].
    + destruct Hy as (Hq & nq & Hnq & Hy). split; [by rewrite Hperm|].
      destruct (decide (p = q)) as [<-|Hne].
      * rewrite lookup_insert_eq. eexists. split; [done|]. simpl.
        rewrite Ho in Hnq. by injection Hnq as <-.
      * rewrite lookup_insert_ne by done. eauto.
    + destruct Hy as (Hq & nq & Hnq & Hy). split; [done|].
      rewrite lookup_insert_ne by (by intros ->). eauto.
  - done.
Qed.

Lemma wf_added_state (s : AStarGeneric) x cur movecost dc goal p a :
  wf s -> hl s x = listelement_new ->
  allocate (m_astarnodeallocator s) = (p, a) ->
  wf (added_state s x cur movecost dc goal p a) /\
  (p ∉ m_openlist s ++ m_closedlist s) /\
  m_openlist (added_state s x cur movecost dc goal p a) ≡ₚ p :: m_openlist s.
Proof.
  intros Hwf Hhl Ha.
  destruct (allocate_spec _ _ _ (m_openlist s ++ m_closedlist s) Ha
              (alloc_nodup _ (wf_alloc _ Hwf)) (alloc_bound _ (wf_alloc _ Hwf)))
    as (Hfresh & Hnd & Hb).
  set (st := <[p := added_node s x cur movecost dc goal]> (store s)).
  assert (Hpo : p ∉ m_openlist s) by set_solver.
  assert (Hpc : p ∉ m_closedlist s) by set_solver.
  destruct (push_heap_spec (astarnodecompare st) (m_openlist s ++ [p])
              (astarnodecompare_strict_weak _)) as [Hperm Hheap].
  { rewrite removelast_last. eapply astarnodecompare_ext; [|apply (wf_heap _ Hwf)].
    intros q Hq. unfold st. rewrite lookup_insert_ne; [done|]. by intros ->. }
  assert (Hperm' : push_heap (astarnodecompare st) (m_openlist s ++ [p]) ≡ₚ p :: m_openlist s).
  { rewrite Hperm. by rewrite Permutation_app_comm. }
  assert (Hx : forall q nq, q ∈ m_openlist s ++ m_closedlist s -> store s !! q = Some nq ->
                 m_node nq <> x).
  { intros q nq [Hq|Hq]%elem_of_app Hnq Heq.
    - destruct (wf_open _ Hwf q Hq) as (n' & Hn' & Hh). rewrite Hnq in Hn'.
      injection Hn' as <-. rewrite Heq, Hhl in Hh. done.
    - destruct (wf_closed _ Hwf q Hq) as (n' & Hn' & Hh). rewrite Hnq in Hn'.
      injection Hn' as <-. rewrite Heq, Hhl in Hh. done. }
  split_and!; [|done|done].
  split; unfold added_state; simpl_fields; fold st.
  - split; simpl_fields.
    + rewrite Hperm'. exact Hnd.
    + intros q Hq. apply Hb. rewrite Hperm' in Hq. exact Hq.
  - intros q Hq. rewrite Hperm' in Hq. apply elem_of_cons in Hq as [->|Hq].
    + unfold st. rewrite lookup_insert_eq. eexists. split; [done|]. simpl.
      erewrite hl_insert by done. by rewrite decide_True.
    + destruct (wf_open _ Hwf q Hq) as (nq & Hnq & Hhq).
      unfold st. rewrite lookup_insert_ne by (by intros ->).
      exists nq. split; [done|]. erewrite hl_insert by done.
      rewrite decide_False; [done|]. intros Heq. eapply Hx; [|done..]. set_solver.
  - intros q Hq. destruct (wf_closed _ Hwf q Hq) as (nq & Hnq & Hhq).
    unfold st. rewrite lookup_insert_ne by (by intros ->).
    exists nq. split; [done|]. erewrite hl_insert by done.
    rewrite decide_False; [done|]. intros Heq. eapply Hx; [|done..]. set_solver.
  - intros y. unfold entry_ok. erewrite hl_insert by done. simpl.
    destruct (decide (x = y)) as [<-|Hne]; simpl.
    + split; [rewrite Hperm'; left|]. unfold st. rewrite lookup_insert_eq. eauto.
    + pose proof (wf_hl _ Hwf y) as Hy. unfold entry_ok in Hy.
      destruct (status_of _) as [[|q|q]|]; [done| | |done].
      * destruct Hy as (Hq & nq & Hnq & Hy). split; [rewrite Hperm'; by right|].
        unfold st. rewrite lookup_insert_ne by (by intros ->). eauto.
      * destruct Hy as (Hq & nq & Hnq & Hy). split; [done|].
        unfold st. rewrite lookup_insert_ne by (by intros ->). eauto.
  - done.
Qed.

Lemma AddNeighbor_wf (s s' : AStarGeneric) x movecost :
  wf s -> AddNeighbor x movecost s = Some s' -> wf s'.
Proof.
  intros Hwf Hadd. destruct (AddNeighbor_inv _ _ _ _ Hwf Hadd).
  - done.
  - by apply wf_set_astaropen.
  - by eapply wf_relaxed_state.
  - by eapply wf_added_state.
Qed.

Lemma close_front_preserves_wf (s s' : AStarGeneric) :
  wf s -> close_front s = Some s' -> wf s'.
Proof.
  intros Hwf Hcf. destruct (m_openlist s) eqn:Hol.
  { unfold close_front in Hcf. rewrite Hol in Hcf. done. }
  destruct (close_front_wf s Hwf) as (? & ? & ? & ? & _ & _ & _ & _ & Hcf' & Hwf' & _).
  { by rewrite Hol. }
  rewrite Hcf in Hcf'. by injection Hcf' as ->.
Qed.

(** *** Every state of a search is well formed *)

Lemma FindPath_init_alloc_ok start goal dc (s : AStarGeneric) :
  alloc_ok s -> alloc_ok (FindPath_init start goal dc s).
Proof.
  intros [Hnd Hb]. unfold FindPath_init, push_start, ClearOpenList, ClearClosedList.
  simpl_fields.
  destruct (allocate _) as [p a] eqn:Ha.
  set (a1 := deallocate_all (m_openlist s) (m_astarnodeallocator s)) in *.
  destruct (deallocate_all_mem (m_closedlist s) a1) as [Hm2 Hn2].
  destruct (deallocate_all_mem (m_openlist s) (m_astarnodeallocator s)) as [Hm1 Hn1].
  fold a1 in Hm1, Hn1.
  assert (Hperm : m_mem (deallocate_all (m_closedlist s) a1) ++ [] ≡ₚ
                  m_mem (m_astarnodeallocator s) ++ m_openlist s ++ m_closedlist s).
  { rewrite Hm2, Hm1, app_nil_r, !reverse_Permutation.
    rewrite (Permutation_app_comm (m_closedlist s)), <- app_assoc.
    rewrite (Permutation_app_comm (m_openlist s)), <- app_assoc.
    f_equiv. apply Permutation_app_comm. }
  destruct (allocate_spec _ _ _ [] Ha) as (_ & Hnd' & Hb').
  - by rewrite Hperm.
  - intros q Hq. rewrite Hperm in Hq. rewrite Hn2, Hn1. by apply Hb.
  - split; simpl_fields; rewrite app_nil_l,
      (push_heap_single _ _ (astarnodecompare_strict_weak _)), app_nil_r; done.
Qed.

Lemma FindPath_init_wf start goal dc (s : AStarGeneric) :
  alloc_ok s -> wf (FindPath_init start goal dc s).
Proof.
  intros Hok. pose proof (FindPath_init_alloc_ok start goal dc s Hok) as Hok'.
  destruct (FindPath_init_spec start goal dc s) as (p & Hspec).
  generalize dependent (FindPath_init start goal dc s). intros s0 Hok' Hspec.
  cbv zeta in Hspec. destruct Hspec as (Hol & Hcl & Hst & Hhl & _).
  split; [done|..].
  - rewrite Hol. intros q ->%list_elem_of_singleton. eexists. split; [done|].
    unfold hl. rewrite Hhl. cbn [m_node]. by rewrite lookup_singleton_eq.
  - rewrite Hcl. intros q Hq. by apply elem_of_nil in Hq.
  - intros y. unfold entry_ok, hl. rewrite Hhl.
    destruct (decide (start = y)) as [<-|Hne].
    + rewrite lookup_singleton_eq. simpl. rewrite Hol. split; [left|eauto].
    + by rewrite lookup_singleton_ne.
  - rewrite Hol. apply is_heap_singleton.
Qed.

Lemma wf_with_stepper start gn (s : AStarGeneric) : wf s -> wf (with_stepper start gn s).
Proof. intros [[] ? ? ? ?]. by split; [split|..]. Qed.

Lemma in_search_wf (s : AStarGeneric) : in_search s -> wf s.
Proof.
  induction 1 as [s start goal dc Hok|s start goal dc gn Hok|s s' _ IH Hstep].
  - by apply FindPath_init_wf.
  - rewrite InitializeStep_FindPath_init. by apply wf_with_stepper, FindPath_init_wf.
  - destruct Hstep as [Hcf|x c Hadd].
    + by eapply close_front_preserves_wf.
    + by eapply AddNeighbor_wf.
Qed.

End wf.
End GenericWf.

(** ** AStarGeneric: parents lead back to the start *)

Module GenericPath.
Import Generic GenericSpec GenericFacts GenericWf.
Section path.
Context {NODETYPE : Type} `{Countable NODETYPE}.
Context {heap : StdHeap}.

Abbreviation astarnode := (@astarnode NODETYPE).
Abbreviation AStarGeneric := (@AStarGeneric NODETYPE _ _).
Abbreviation GETNEIGHBORS := (@GETNEIGHBORS NODETYPE).
Abbreviation DESTCOST := (@DESTCOST NODETYPE).

(** What a relaxation leaves alone. *)
Lemma AddNeighbor_frame (s s' : AStarGeneric) x movecost :
  wf s -> AddNeighbor x movecost s = Some s' ->
  m_closedlist s' = m_closedlist s /\ m_currentnode s' = m_currentnode s /\
  m_goal s' = m_goal s /\ m_destinationcost s' = m_destinationcost s /\
  m_getneighbors s' = m_getneighbors s /\
  (forall q, q ∈ m_closedlist s -> store s' !! q = store s !! q) /\
  (forall q, q ∈ m_openlist s -> q ∈ m_openlist s') /\
  (forall y, m_onclosed (hl s y) = true -> hl s' y = hl s y).
Proof.
  intros Hwf Hadd.
  destruct (AddNeighbor_inv _ _ _ _ Hwf Hadd)
    as [Hcl|p o cur Hhl Hp Ho Hx Hcur Hle|p o cur Hhl Hp Ho Hx Hcur Hlt
        |p a cur dc goal Hhl Hcur Hdc Hgoal Ha].
  - done.
  - done.
  - unfold relaxed_state. simpl_fields. split_and!; try done.
    + intros q Hq. rewrite lookup_insert_ne; [done|]. intros ->.
      by eapply wf_open_not_closed.
    + intros q Hq.
      by rewrite (proj1 (make_heap_spec _ (m_openlist s) (astarnodecompare_strict_weak _))).
  - destruct (wf_added_state s x cur movecost dc goal p a Hwf Hhl Ha)
      as (_ & Hfresh & Hperm).
    split_and!; try done.
    + intros q Hq. unfold added_state. simpl_fields.
      rewrite lookup_insert_ne; [done|]. intros ->. apply Hfresh, elem_of_app. by right.
    + intros q Hq. rewrite Hperm. by right.
    + intros y Hy. erewrite (hl_insert (added_state _ _ _ _ _ _ _ _)) by done.
      rewrite decide_False; [done|]. intros ->. by rewrite Hhl in Hy.
Qed.

Section search.
Variable start goal : NODETYPE.
Variable dc : DESTCOST.
Variable gn : GETNEIGHBORS.

Lemma trace_mono (s s' : AStarGeneric) p l :
  trace start goal dc gn s p l ->
  (forall q, q ∈ m_closedlist s -> store s' !! q = store s !! q) ->
  (forall q, q ∈ m_closedlist s -> q ∈ m_closedlist s') ->
  store s' !! p = store s !! p ->
  trace start goal dc gn s' p l.
Proof.
  intros Htr Hst Hcl. induction Htr as [p n Hn Hpar Hnode Hg|p n q nq l c Hn Hpar Hq Hnq He Hg _ IH];
    intros Hp.
  - eapply trace_start; [by rewrite Hp|done..].
  - eapply trace_step; [by rewrite Hp|done|by apply Hcl|by rewrite Hst|done|done|].
    by apply IH, Hst.
Qed.

Lemma trace_head_last (s : AStarGeneric) p l :
  trace start goal dc gn s p l ->
  exists n, store s !! p = Some n /\ head l = Some (m_node n) /\ last l = Some start.
Proof.
  induction 1 as [p n Hn Hpar Hnode Hg|p n q nq l c Hn Hpar Hq Hnq He Hg _ IH].
  - exists n. by rewrite Hnode.
  - exists n. split_and!; [done..|].
    destruct IH as (n' & _ & Hhd & Hlast). destruct l; [done|]. done.
Qed.

(** The edge costs along a trace add up to [g], less the start's [g]. *)
Lemma trace_rpath (s : AStarGeneric) p l :
  trace start goal dc gn s p l ->
  exists n, store s !! p = Some n /\ rpath gn l (m_g n - dc start goal).
Proof.
  induction 1 as [p n Hn Hpar Hnode Hg|p n q nq l c Hn Hpar Hq Hnq He Hg Htr IH].
  - exists n. split; [done|]. rewrite Hg, Z.sub_diag. constructor.
  - exists n. split; [done|].
    destruct IH as (n' & Hn' & Hrp). rewrite Hnq in Hn'. injection Hn' as <-.
    destruct (trace_head_last _ _ _ Htr) as (n' & Hn' & Hhd & _).
    rewrite Hnq in Hn'. injection Hn' as <-.
    destruct l as [|y l]; [done|]. injection Hhd as ->.
    replace (m_g n - dc start goal) with ((m_g nq - dc start goal) + c) by lia.
    by constructor.
Qed.

(** Walking the parents of a traced node yields the trace. *)
Lemma trace_walk (s : AStarGeneric) p l :
  trace start goal dc gn s p l ->
  forall fuel acc,
    (length l <= fuel)%nat ->
    walk_parents fuel (store s) (Some p) acc = Some (acc ++ l).
Proof.
  induction 1 as [p n Hn Hpar Hnode Hg|p n q nq l c Hn Hpar Hq Hnq He Hg _ IH];
    intros fuel acc Hfuel; (destruct fuel as [|fuel]; [simpl in Hfuel; lia|]);
    cbn [walk_parents]; rewrite Hn; cbn [mbind option_bind]; rewrite Hpar.
  - rewrite walk_parents_null. by rewrite Hnode.
  - rewrite IH by (simpl in Hfuel; lia). by rewrite <- app_assoc.
Qed.


(** *** Preservation of [path_inv] *)

Lemma path_inv_init (s : AStarGeneric) :
  path_inv start goal dc gn (FindPath_init start goal dc s).
Proof.
  destruct (FindPath_init_spec start goal dc s) as (p & Hspec).
  generalize dependent (FindPath_init start goal dc s). intros s0 Hspec.
  cbv zeta in Hspec. destruct Hspec as (Hol & Hcl & Hst & Hhl & Hcur & Hgoal & Hdc).
  split; [done..|]. rewrite Hol, Hcl. intros q ->%list_elem_of_singleton.
  exists [start]. by eapply trace_start.
Qed.

Lemma path_inv_closed_state (s : AStarGeneric) p n rest l :
  m_openlist s = p :: l -> rest ≡ₚ l ->
  path_inv start goal dc gn s -> path_inv start goal dc gn (closed_state s p n rest).
Proof.
  intros Hol Hrest [Hgoal Hdc Htr]. split; [done..|].
  unfold closed_state. simpl_fields. intros q Hq.
  destruct (Htr q) as [lq Hlq].
  { rewrite Hol. rewrite Hrest in Hq. apply elem_of_app in Hq as [Hq|Hq].
    - apply elem_of_app. left. by right.
    - apply elem_of_app in Hq as [Hq|Hq%list_elem_of_singleton].
      + apply elem_of_app. by right.
      + subst q. apply elem_of_app. left. by left. }
  exists lq. eapply trace_mono; [done|done| |done].
  intros r Hr. simpl_fields. apply elem_of_app. by left.
Qed.

Lemma path_inv_AddNeighbor (s s' : AStarGeneric) x movecost u cur :
  wf s -> path_inv start goal dc gn s ->
  expanding s u -> store s !! u = Some cur ->
  (x, movecost) ∈ gn (m_node cur) ->
  AddNeighbor x movecost s = Some s' ->
  path_inv start goal dc gn s'.
Proof.
  intros Hwf [Hgoal Hdc Htr] [Hu Huc] Hcur' Hedge Hadd.
  assert (Hderef : deref (store s) (m_currentnode s) = Some cur).
  { rewrite Hu. done. }
  destruct (AddNeighbor_inv _ _ _ _ Hwf Hadd)
    as [Hcl|p o cur0 Hhl Hp Ho Hx Hcur Hle|p o cur0 Hhl Hp Ho Hx Hcur Hlt
        |p a cur0 dc0 goal0 Hhl Hcur Hdc0 Hgoal0 Ha].
  - done.
  - split; [done..|]. intros q Hq. destruct (Htr q Hq) as [lq Hlq].
    exists lq. by eapply trace_mono.
  - rewrite Hderef in Hcur. injection Hcur as <-.
    pose proof (wf_open_not_closed s p Hwf Hp) as Hpc.
    assert (Hst : forall q, q ∈ m_closedlist s ->
              store (relaxed_state s p o cur movecost) !! q = store s !! q).
    { intros q Hq. unfold relaxed_state. simpl_fields.
      rewrite lookup_insert_ne; [done|]. by intros ->. }
    split; [done..|]. intros q Hq.
    assert (Hq' : q ∈ m_openlist s ++ m_closedlist s).
    { unfold relaxed_state in Hq. simpl_fields in Hq.
      by rewrite (proj1 (make_heap_spec _ (m_openlist s) (astarnodecompare_strict_weak _)))
        in Hq. }
    destruct (decide (q = p)) as [->|Hne].
    + destruct (Htr u) as [lu Hlu]; [apply elem_of_app; by right|].
      exists (m_node (relaxed_node s o cur movecost) :: lu).
      eapply trace_step with (q := u) (nq := cur) (c := movecost).
      * unfold relaxed_state. simpl_fields. by rewrite lookup_insert_eq.
      * done.
      * done.
      * by rewrite Hst.
      * cbn [m_node relaxed_node]. by rewrite Hx.
      * done.
      * eapply trace_mono; [done|done|done|by apply Hst].
    + destruct (Htr q Hq') as [lq Hlq]. exists lq.
      eapply trace_mono; [done|done|done|].
      unfold relaxed_state. simpl_fields. by rewrite lookup_insert_ne.
  - rewrite Hderef in Hcur. injection Hcur as <-.
    rewrite Hdc in Hdc0. injection Hdc0 as <-.
    rewrite Hgoal in Hgoal0. injection Hgoal0 as <-.
    destruct (wf_added_state s x cur movecost dc goal p a Hwf Hhl Ha)
      as (_ & Hfresh & Hperm).
    assert (Hst : forall q, q ∈ m_openlist s ++ m_closedlist s ->
              store (added_state s x cur movecost dc goal p a) !! q = store s !! q).
    { intros q Hq. unfold added_state. simpl_fields.
      rewrite lookup_insert_ne; [done|]. by intros ->. }
    split; [done..|]. intros q Hq.
    rewrite Hperm in Hq. change (m_closedlist (added_state _ _ _ _ _ _ _ _))
      with (m_closedlist s) in Hq.
    apply elem_of_cons in Hq as [->|Hq].
    + destruct (Htr u) as [lu Hlu]; [apply elem_of_app; by right|].
      exists (m_node (added_node s x cur movecost dc goal) :: lu).
      eapply trace_step with (q := u) (nq := cur) (c := movecost).
      * unfold added_state. simpl_fields. by rewrite lookup_insert_eq.
      * done.
      * done.
      * rewrite Hst; [done|]. apply elem_of_app. by right.
      * done.
      * done.
      * eapply trace_mono; [done| |done|].
        -- intros q Hq. apply Hst, elem_of_app. by right.
        -- apply Hst, elem_of_app. by right.
    + destruct (Htr q Hq) as [lq Hlq]. exists lq.
      eapply trace_mono; [done| |done|by apply Hst].
      intros r Hr. apply Hst, elem_of_app. by right.
Qed.


Lemma expanding_closed_state (s : AStarGeneric) p n rest :
  expanding (closed_state s p n rest) p.
Proof.
  split; unfold closed_state; simpl_fields; [done|].
  apply elem_of_app. right. by apply list_elem_of_singleton.
Qed.

Lemma deref_closed_state (s : AStarGeneric) p n rest :
  store s !! p = Some n ->
  deref (store (closed_state s p n rest)) (m_currentnode (closed_state s p n rest))
  = Some n.
Proof. intros Hn. unfold closed_state, deref. simpl_fields. done. Qed.

Lemma add_neighbors_path l (s s' : AStarGeneric) u cur :
  wf s -> path_inv start goal dc gn s ->
  expanding s u -> store s !! u = Some cur ->
  (forall e, e ∈ l -> e ∈ gn (m_node cur)) ->
  add_neighbors l s = Some s' ->
  wf s' /\ path_inv start goal dc gn s' /\ expanding s' u /\
  store s' !! u = Some cur /\ m_closedlist s' = m_closedlist s.
Proof.
  revert s. induction l as [|[x c] l IH]; intros s Hwf Hpi Hex Hcur Hl; cbn [add_neighbors].
  { by intros [= <-]. }
  destruct (AddNeighbor x c s) as [s1|] eqn:Hadd; [|done]. cbn [mbind option_bind].
  intros Hrest.
  destruct (AddNeighbor_frame _ _ _ _ Hwf Hadd) as (Hcl & Hcn & _ & _ & _ & Hst & _ & _).
  destruct Hex as [Hu Huc].
  destruct (IH s1) as (Hwf' & Hpi' & Hex' & Hcur' & Hcl'); try done.
  - by eapply AddNeighbor_wf.
  - eapply path_inv_AddNeighbor; [done|done|by split|done| |done].
    apply Hl. left.
  - split; [by rewrite Hcn|by rewrite Hcl].
  - by rewrite Hst.
  - intros e He. apply Hl. by right.
  - split_and!; try done. by rewrite Hcl', Hcl.
Qed.

Lemma add_neighbors_progress l (s : AStarGeneric) u cur :
  wf s -> expanding s u -> store s !! u = Some cur ->
  m_destinationcost s = Some dc -> m_goal s = Some goal ->
  is_Some (add_neighbors l s).
Proof.
  revert s. induction l as [|[x c] l IH]; intros s Hwf Hex Hcur Hdc Hgoal;
    cbn [add_neighbors].
  { done. }
  destruct Hex as [Hu Huc].
  destruct (AddNeighbor_progress s x c cur dc goal Hwf) as [s1 Hadd]; [|done..|].
  { unfold deref. rewrite Hu. done. }
  rewrite Hadd. cbn [mbind option_bind].
  destruct (AddNeighbor_frame _ _ _ _ Hwf Hadd) as (Hcl & Hcn & Hg & Hd & _ & Hst & _ & _).
  apply (IH s1).
  - by eapply AddNeighbor_wf.
  - split; [by rewrite Hcn|by rewrite Hcl].
  - by rewrite Hst.
  - congruence.
  - congruence.
Qed.


End search.
End path.
End GenericPath.

(** ** AStarGeneric: closed nodes carry least costs *)

Module GenericOpt.
Import Generic GenericSpec GenericFacts GenericWf GenericPath.
Section opt.
Context {NODETYPE : Type} `{Countable NODETYPE}.
Context {heap : StdHeap}.

Abbreviation astarnode := (@astarnode NODETYPE).
Abbreviation AStarGeneric := (@AStarGeneric NODETYPE _ _).
Abbreviation GETNEIGHBORS := (@GETNEIGHBORS NODETYPE).
Abbreviation DESTCOST := (@DESTCOST NODETYPE).

Variable start goal : NODETYPE.
Variable dc : DESTCOST.
Variable gn : GETNEIGHBORS.

Lemma rpath_nonempty l c : rpath gn l c -> l <> [].
Proof. by destruct 1. Qed.

(** Every path from the start either ends in a closed node whose [g]
    is within the path's cost, or there is an open node whose [g + h]
    is within the path's cost plus the heuristic at the path's end. *)
Lemma frontier (s : AStarGeneric) l c v :
  wf s -> opt_inv start goal dc gn None s -> consistent gn dc goal ->
  path_between gn start v l c ->
  (exists q nq, q ∈ m_closedlist s /\ store s !! q = Some nq /\ m_node nq = v /\
                m_g nq <= dc start goal + c) \/
  (exists w nw, w ∈ m_openlist s /\ store s !! w = Some nw /\
                m_g nw + dc (m_node nw) goal <= dc start goal + c + dc v goal).
Proof.
  intros Hwf Hoi Hcons (Hrp & Hhd & Hlast). revert v Hhd Hlast.
  induction Hrp as [x|y x l c0 c' Hedge Hrp IH]; intros v Hhd Hlast.
  - injection Hhd as <-. injection Hlast as ->.
    destruct (oi_proper _ _ _ _ _ _ Hoi) as [(_ & p0 & Hol & n0 & Hn0 & Hnode & Hg)
                                             |((p0 & Hp0 & n0 & Hn0 & Hnode & Hg) & _)].
    + right. exists p0, n0. split_and!; [rewrite Hol; left|done|]. rewrite Hnode, Hg. lia.
    + left. exists p0, n0. split_and!; try done. lia.
  - injection Hhd as <-.
    destruct (IH x eq_refl) as [(q & nq & Hq & Hnq & Hx & Hgq)|(w & nw & Hw & Hnw & Hkey)].
    { by rewrite last_cons_cons in Hlast. }
    + pose proof (oi_exp _ _ _ _ _ _ Hoi q Hq) as Hexp.
      specialize (Hexp ltac:(done) nq y c0 Hnq). rewrite Hx in Hexp.
      specialize (Hexp Hedge). unfold relaxed in Hexp.
      pose proof (wf_hl _ Hwf y) as Hy. unfold entry_ok in Hy.
      destruct (status_of (hl s y)) as [[|p'|p']|]; [done| |  |done].
      * destruct Hy as (Hp' & n' & Hn' & Hnode). destruct Hexp as (n'' & Hn'' & Hle).
        rewrite Hn' in Hn''. injection Hn'' as <-.
        right. exists p', n'. split_and!; [done..|]. rewrite Hnode. lia.
      * destruct Hy as (Hp' & n' & Hn' & Hnode).
        left. exists p', n'. split_and!; [done..|].
        eapply (oi_opt _ _ _ _ _ _ Hoi p' n' (y :: x :: l)); [done..|].
        rewrite Hnode. split_and!; [by constructor|done|done].
    + right. exists w, nw. split_and!; [done..|].
      pose proof (Hcons x y c0 Hedge). lia.
Qed.

(** The node taken from the front of the open list has the least cost
    of any path from the start to its state. *)
Lemma front_is_optimal (s : AStarGeneric) p l0 n l c :
  wf s -> opt_inv start goal dc gn None s -> consistent gn dc goal ->
  m_openlist s = p :: l0 -> store s !! p = Some n ->
  (forall q nq, q ∈ m_openlist s -> store s !! q = Some nq -> m_f n <= m_f nq) ->
  path_between gn start (m_node n) l c ->
  m_g n <= dc start goal + c.
Proof.
  intros Hwf Hoi Hcons Hol Hn Hmin Hpath.
  assert (Hp : p ∈ m_openlist s) by (rewrite Hol; left).
  destruct (frontier s l c (m_node n) Hwf Hoi Hcons Hpath)
    as [(q & nq & Hq & Hnq & Hx & Hgq)|(w & nw & Hw & Hnw & Hkey)].
  - exfalso. assert (q = p) as ->.
    { eapply (wf_open_inj s q p); try done; apply elem_of_app; [by right|by left]. }
    by eapply wf_open_not_closed.
  - destruct (oi_proper _ _ _ _ _ _ Hoi) as [(_ & p0 & Hol0 & _)|(_ & Hprop)].
    + rewrite Hol0 in Hw, Hp. apply list_elem_of_singleton in Hw, Hp. subst w p0.
      rewrite Hn in Hnw. injection Hnw as <-. lia.
    + destruct (Hprop w nw Hw Hnw) as [Hhw Hfw].
      destruct (Hprop p n Hp Hn) as [Hhn Hfn].
      pose proof (Hmin w nw Hw Hnw). lia.
Qed.

Lemma opt_inv_init (s : AStarGeneric) :
  opt_inv start goal dc gn None (FindPath_init start goal dc s).
Proof.
  destruct (FindPath_init_spec start goal dc s) as (p & Hspec).
  generalize dependent (FindPath_init start goal dc s). intros s0 Hspec.
  cbv zeta in Hspec. destruct Hspec as (Hol & Hcl & Hst & Hhl & Hcur & Hgoal & Hdc).
  split.
  - left. split; [done|]. exists p. split; [done|]. eexists. by split_and!.
  - intros q n l c Hq. rewrite Hcl in Hq. by apply elem_of_nil in Hq.
  - intros q Hq. rewrite Hcl in Hq. by apply elem_of_nil in Hq.
  - intros q n Hq. rewrite Hcl in Hq. by apply elem_of_nil in Hq.
Qed.

Lemma hl_closed_state (s : AStarGeneric) p n rest y :
  hl (closed_state s p n rest) y =
  if decide (m_node n = y) then entry_closed p else hl s y.
Proof. erewrite (hl_insert (closed_state s p n rest)) by done. done. Qed.

Lemma relaxed_closed_state (s : AStarGeneric) p n rest y b :
  relaxed s y b -> relaxed (closed_state s p n rest) y b.
Proof.
  unfold relaxed. rewrite hl_closed_state.
  destruct (decide (m_node n = y)); [done|]. done.
Qed.

(** Closing the front node keeps the invariant; the closed node is
    exempt until its neighbours have been relaxed. *)
Lemma opt_inv_closed_state (s : AStarGeneric) p l n rest :
  wf s -> opt_inv start goal dc gn None s -> consistent gn dc goal ->
  m_openlist s = p :: l -> store s !! p = Some n -> rest ≡ₚ l ->
  (forall q nq, q ∈ m_openlist s -> store s !! q = Some nq -> m_f n <= m_f nq) ->
  opt_inv start goal dc gn (Some p) (closed_state s p n rest).
Proof.
  intros Hwf Hoi Hcons Hol Hn Hrest Hmin.
  assert (Hp : p ∈ m_openlist s) by (rewrite Hol; left).
  split.
  - right. unfold closed_state. simpl_fields.
    destruct (oi_proper _ _ _ _ _ _ Hoi) as [(Hcl & p0 & Hol0 & Hstart)
                                             |((p0 & Hp0 & Hstart) & Hprop)].
    + rewrite Hol0 in Hol. injection Hol as -> <-.
      apply Permutation_nil_r in Hrest as ->. split.
      * exists p. split; [|done]. apply elem_of_app. right. by apply list_elem_of_singleton.
      * intros q nq Hq. by apply elem_of_nil in Hq.
    + split.
      * exists p0. split; [|done]. apply elem_of_app. by left.
      * intros q nq Hq. apply Hprop. rewrite Hol. right. by rewrite <- Hrest.
  - unfold closed_state. simpl_fields. intros q nq lq c Hq Hnq Hpath.
    apply elem_of_app in Hq as [Hq|Hq%list_elem_of_singleton].
    + by eapply (oi_opt _ _ _ _ _ _ Hoi).
    + subst q. rewrite Hn in Hnq. injection Hnq as <-.
      by eapply front_is_optimal.
  - intros q Hq Hne nq y c Hnq Hedge. apply relaxed_closed_state.
    unfold closed_state in Hq. simpl_fields in Hq.
    apply elem_of_app in Hq as [Hq|Hq%list_elem_of_singleton]; [|by subst q].
    by eapply (oi_exp _ _ _ _ _ _ Hoi q Hq).
  - intros q nq Hq Hne Hnq.
    unfold closed_state in Hq. simpl_fields in Hq.
    apply elem_of_app in Hq as [Hq|Hq%list_elem_of_singleton]; [|by subst q].
    by eapply (oi_nogoal _ _ _ _ _ _ Hoi q nq Hq).
Qed.

Lemma relaxed_open (s : AStarGeneric) x p n b :
  hl s x = entry_open p -> store s !! p = Some n -> m_g n <= b -> relaxed s x b.
Proof. intros Hhl Hn Hle. unfold relaxed. rewrite Hhl. simpl. eauto. Qed.

Lemma opt_inv_frame (exempt : option ptr) (s s' : AStarGeneric) :
  opt_inv start goal dc gn exempt s ->
  m_closedlist s' = m_closedlist s ->
  (forall q, q ∈ m_closedlist s -> store s' !! q = store s !! q) ->
  (forall p n, p ∈ m_openlist s' -> store s' !! p = Some n -> proper_node goal dc n) ->
  m_closedlist s <> [] ->
  (forall y b, relaxed s y b -> relaxed s' y b) ->
  opt_inv start goal dc gn exempt s'.
Proof.
  intros Hoi Hcl Hst Hprop Hne Hmono. split.
  - right. split; [|done].
    destruct (oi_proper _ _ _ _ _ _ Hoi) as [(Hnil & _)|((p0 & Hp0 & n0 & Hn0 & Hs) & _)]; [done|].
    exists p0. rewrite Hcl. split; [done|]. exists n0. by rewrite Hst.
  - intros p n l c Hp Hn. rewrite Hcl in Hp. rewrite Hst in Hn by done.
    by eapply (oi_opt _ _ _ _ _ _ Hoi).
  - intros q Hq Hex nq y c Hnq Hedge. rewrite Hcl in Hq. rewrite Hst in Hnq by done.
    apply Hmono. by eapply (oi_exp _ _ _ _ _ _ Hoi q Hq Hex).
  - intros q n Hq Hex Hn. rewrite Hcl in Hq. rewrite Hst in Hn by done.
    by eapply (oi_nogoal _ _ _ _ _ _ Hoi q n Hq Hex).
Qed.

Lemma opt_inv_AddNeighbor (s s' : AStarGeneric) x movecost u cur :
  wf s -> m_goal s = Some goal -> m_destinationcost s = Some dc ->
  opt_inv start goal dc gn (Some u) s ->
  expanding s u -> store s !! u = Some cur ->
  AddNeighbor x movecost s = Some s' ->
  opt_inv start goal dc gn (Some u) s' /\
  relaxed s' x (m_g cur + movecost) /\
  (forall y b, relaxed s y b -> relaxed s' y b).
Proof.
  intros Hwf Hgoal Hdc Hoi [Hu Huc] Hcur' Hadd.
  assert (Hderef : deref (store s) (m_currentnode s) = Some cur).
  { rewrite Hu. done. }
  assert (Hne : m_closedlist s <> []).
  { intros Hnil. rewrite Hnil in Huc. by apply elem_of_nil in Huc. }
  assert (Hprop : forall p n, p ∈ m_openlist s -> store s !! p = Some n ->
                    proper_node goal dc n).
  { destruct (oi_proper _ _ _ _ _ _ Hoi) as [(Hnil & _)|(_ & Hprop)]; done. }
  destruct (AddNeighbor_inv _ _ _ _ Hwf Hadd)
    as [Hcl|p o cur0 Hhl Hp Ho Hx Hcur Hle|p o cur0 Hhl Hp Ho Hx Hcur Hlt
        |p a cur0 dc0 goal0 Hhl Hcur Hdc0 Hgoal0 Ha].
  - split_and!; [done| |done]. unfold relaxed.
    pose proof (wf_hl _ Hwf x) as Hx. unfold entry_ok in Hx.
    destruct (hl s x) as [[q|] [] []]; simpl in *; done.
  - rewrite Hderef in Hcur. injection Hcur as <-.
    split_and!.
    + by eapply opt_inv_frame.
    + by eapply (relaxed_open (set_astaropen (Some p) s)).
    + done.
  - rewrite Hderef in Hcur. injection Hcur as <-.
    pose proof (wf_open_not_closed s p Hwf Hp) as Hpc.
    assert (Hst : forall q, q <> p ->
              store (relaxed_state s p o cur movecost) !! q = store s !! q).
    { intros q Hq. unfold relaxed_state. simpl_fields. by rewrite lookup_insert_ne. }
    assert (Hsp : store (relaxed_state s p o cur movecost) !! p
                  = Some (relaxed_node s o cur movecost)).
    { unfold relaxed_state. simpl_fields. by rewrite lookup_insert_eq. }
    assert (Hmono : forall y b, relaxed s y b -> relaxed (relaxed_state s p o cur movecost) y b).
    { intros y b. unfold relaxed.
      change (hl (relaxed_state s p o cur movecost) y) with (hl s y).
      destruct (status_of (hl s y)) as [[|p'|p']|]; [done| |done|done].
      intros (n' & Hn' & Hle). destruct (decide (p' = p)) as [->|Hpp].
      - rewrite Hsp. eexists. split; [done|]. cbn [m_g relaxed_node].
        rewrite Ho in Hn'. injection Hn' as <-. lia.
      - rewrite Hst by done. eauto. }
    split_and!.
    + eapply opt_inv_frame; [done|done| | |done|done].
      * intros q Hq. apply Hst. by intros ->.
      * intros q nq Hq Hnq.
        unfold relaxed_state in Hq. simpl_fields in Hq.
        rewrite (proj1 (make_heap_spec _ (m_openlist s) (astarnodecompare_strict_weak _)))
          in Hq.
        destruct (decide (q = p)) as [->|Hqp].
        -- rewrite Hsp in Hnq. injection Hnq as <-.
           destruct (Hprop p o Hp Ho) as [Hh Hf].
           split; cbn [m_h m_f m_g m_node relaxed_node]; [done|lia].
        -- rewrite Hst in Hnq by done. by eapply Hprop.
    + eapply relaxed_open; [exact Hhl|exact Hsp|]. cbn [m_g relaxed_node]. lia.
    + done.
  - rewrite Hderef in Hcur. injection Hcur as <-.
    rewrite Hdc in Hdc0. injection Hdc0 as <-.
    rewrite Hgoal in Hgoal0. injection Hgoal0 as <-.
    destruct (wf_added_state s x cur movecost dc goal p a Hwf Hhl Ha)
      as (_ & Hfresh & Hperm).
    assert (Hst : forall q, q <> p ->
              store (added_state s x cur movecost dc goal p a) !! q = store s !! q).
    { intros q Hq. unfold added_state. simpl_fields. by rewrite lookup_insert_ne. }
    assert (Hsp : store (added_state s x cur movecost dc goal p a) !! p
                  = Some (added_node s x cur movecost dc goal)).
    { unfold added_state. simpl_fields. by rewrite lookup_insert_eq. }
    assert (Hhl' : forall y, hl (added_state s x cur movecost dc goal p a) y
                   = if decide (x = y) then entry_open p else hl s y).
    { intros y. erewrite (hl_insert (added_state _ _ _ _ _ _ _ _)) by done. done. }
    assert (Hmono : forall y b, relaxed s y b ->
                      relaxed (added_state s x cur movecost dc goal p a) y b).
    { intros y b. unfold relaxed. rewrite Hhl'.
      destruct (decide (x = y)) as [<-|Hxy]; [by rewrite Hhl|].
      pose proof (wf_hl _ Hwf y) as Hy. unfold entry_ok in Hy.
      destruct (status_of (hl s y)) as [[|p'|p']|]; [done| |done|done].
      intros (n' & Hn' & Hle). rewrite Hst; [eauto|].
      intros ->. apply Hfresh, elem_of_app. left. apply Hy. }
    split_and!.
    + eapply opt_inv_frame; [done|done| | |done|done].
      * intros q Hq. apply Hst. intros ->. apply Hfresh, elem_of_app. by right.
      * intros q nq Hq Hnq. rewrite Hperm in Hq. apply elem_of_cons in Hq as [->|Hq].
        -- rewrite Hsp in Hnq. injection Hnq as <-. split; done.
        -- rewrite Hst in Hnq; [by eapply Hprop|].
           intros ->. apply Hfresh, elem_of_app. by left.
    + eapply relaxed_open; [|exact Hsp|].
      * by rewrite Hhl', decide_True.
      * cbn [m_g added_node]. lia.
    + done.
Qed.

Lemma add_neighbors_opt l (s : AStarGeneric) u cur :
  wf s -> path_inv start goal dc gn s -> opt_inv start goal dc gn (Some u) s ->
  expanding s u -> store s !! u = Some cur ->
  (forall e, e ∈ l -> e ∈ gn (m_node cur)) ->
  exists s',
    add_neighbors l s = Some s' /\ wf s' /\ path_inv start goal dc gn s' /\
    opt_inv start goal dc gn (Some u) s' /\ expanding s' u /\
    store s' !! u = Some cur /\ m_closedlist s' = m_closedlist s /\
    (forall y b, relaxed s y b -> relaxed s' y b) /\
    (forall y c, (y, c) ∈ l -> relaxed s' y (m_g cur + c)).
Proof.
  revert s. induction l as [|[x c] l IH]; intros s Hwf Hpi Hoi Hex Hcur Hl;
    cbn [add_neighbors].
  { exists s. split_and!; try done. intros y c Hin. by apply elem_of_nil in Hin. }
  destruct (AddNeighbor_progress s x c cur dc goal Hwf) as [s1 Hadd].
  { unfold deref. destruct Hex as [-> _]. done. }
  { apply Hpi. }
  { apply Hpi. }
  rewrite Hadd. cbn [mbind option_bind].
  destruct (AddNeighbor_frame _ _ _ _ Hwf Hadd) as (Hcl & Hcn & _ & _ & _ & Hst & _ & _).
  destruct (opt_inv_AddNeighbor s s1 x c u cur Hwf (pi_goal _ _ _ _ _ Hpi)
              (pi_dc _ _ _ _ _ Hpi) Hoi Hex Hcur Hadd) as (Hoi1 & Hrx & Hmono1).
  assert (Hex1 : expanding s1 u).
  { destruct Hex as [Hu Huc]. split; [by rewrite Hcn|by rewrite Hcl]. }
  assert (Hcur1 : store s1 !! u = Some cur).
  { rewrite Hst; [done|]. apply Hex. }
  destruct (IH s1) as (s' & Hrest & Hwf' & Hpi' & Hoi' & Hex' & Hcur'' & Hcl' & Hmono' & Hrel');
    try done.
  - by eapply AddNeighbor_wf.
  - eapply path_inv_AddNeighbor; [done|done|done|done| |done]. apply Hl. left.
  - intros e He. apply Hl. by right.
  - exists s'. split_and!; try done.
    + by rewrite Hcl', Hcl.
    + intros y b Hy. by apply Hmono', Hmono1.
    + intros y c' [[= -> ->]|Hin]%elem_of_cons; [by apply Hmono'|by apply Hrel'].
Qed.

(** Once all neighbours of the node under expansion are relaxed, the
    invariant holds without exemption. *)
Lemma opt_inv_done (s : AStarGeneric) u cur :
  opt_inv start goal dc gn (Some u) s -> store s !! u = Some cur ->
  m_node cur <> goal ->
  (forall y c, (y, c) ∈ gn (m_node cur) -> relaxed s y (m_g cur + c)) ->
  opt_inv start goal dc gn None s.
Proof.
  intros [Hprop Hopt Hexp Hng] Hcur Hne Hrel. split; [done|done|..].
  - intros q Hq _. destruct (decide (q = u)) as [->|Hqu].
    + intros nq y c Hnq Hedge. rewrite Hcur in Hnq. injection Hnq as <-. by apply Hrel.
    + apply Hexp; [done|]. by intros [= ->].
  - intros q n Hq _ Hn. destruct (decide (q = u)) as [->|Hqu].
    + rewrite Hcur in Hn. by injection Hn as <-.
    + eapply Hng; [done| |done]. by intros [= ->].
Qed.

(** *** Termination: every iteration closes a state of the graph *)

Lemma rpath_in_graph (V : list NODETYPE) l c :
  finite_graph gn V -> start ∈ V -> rpath gn l c -> last l = Some start ->
  forall x, x ∈ l -> x ∈ V.
Proof.
  intros HV Hs. induction 1 as [x|y x l c0 c' Hedge Hrp IH]; intros Hlast z Hz.
  - injection Hlast as ->. by apply list_elem_of_singleton in Hz as ->.
  - rewrite last_cons_cons in Hlast. specialize (IH Hlast).
    apply elem_of_cons in Hz as [->|Hz]; [|by apply IH].
    eapply HV; [|done]. apply IH. left.
Qed.

Lemma injective_length {A B : Type} (f : A -> option B) (l : list A) (V : list B) :
  NoDup l ->
  (forall a, a ∈ l -> exists b, f a = Some b /\ b ∈ V) ->
  (forall a a' b, a ∈ l -> a' ∈ l -> f a = Some b -> f a' = Some b -> a = a') ->
  (length l <= length V)%nat.
Proof.
  revert V. induction l as [|a l IH]; intros V Hnd Hin Hinj; simpl; [lia|].
  apply NoDup_cons in Hnd as [Ha Hnd].
  destruct (Hin a) as (b & Hb & HbV); [left|].
  apply elem_of_Permutation in HbV as [V' HV']. rewrite HV'. simpl.
  apply le_n_S. apply IH; [done| |].
  - intros a' Ha'. destruct (Hin a') as (b' & Hb' & Hb'V); [by right|].
    exists b'. split; [done|]. rewrite HV' in Hb'V.
    apply elem_of_cons in Hb'V as [->|]; [|done].
    exfalso. apply Ha. rewrite <- (Hinj a' a b); [done|by right|left|done|done].
  - intros a1 a2 b' H1 H2. apply Hinj; by right.
Qed.

Lemma closed_bound (V : list NODETYPE) (s : AStarGeneric) :
  finite_graph gn V -> start ∈ V -> wf s -> path_inv start goal dc gn s ->
  (length (m_closedlist s) <= length V)%nat.
Proof.
  intros HV Hs Hwf Hpi.
  apply (injective_length (fun p => m_node <$> store s !! p)).
  - pose proof (alloc_nodup _ (wf_alloc _ Hwf)) as Hnd.
    apply NoDup_app in Hnd as (_ & _ & Hnd). by apply NoDup_app in Hnd as (_ & _ & Hnd).
  - intros p Hp. destruct (pi_trace _ _ _ _ _ Hpi p) as [l Hl].
    { apply elem_of_app. by right. }
    destruct (trace_head_last _ _ _ _ _ _ _ Hl) as (n & Hn & Hhd & Hlast).
    destruct (trace_rpath _ _ _ _ _ _ _ Hl) as (n' & _ & Hrp).
    exists (m_node n). rewrite Hn. split; [done|].
    eapply rpath_in_graph; [done..|]. destruct l; [done|]. injection Hhd as ->. left.
  - intros p p' x Hp Hp' Hx Hx'.
    destruct (store s !! p) as [n|] eqn:Hn; [|done].
    destruct (store s !! p') as [n'|] eqn:Hn'; [|done].
    injection Hx as <-. injection Hx' as Heq.
    eapply (wf_open_inj s p p'); try done; apply elem_of_app; by right.
Qed.

(** *** The loop of [FindPath] *)

Lemma FindPath_loop_empty fuel finalpath (s : AStarGeneric) :
  m_openlist s = [] ->
  FindPath_loop fuel goal finalpath gn s = Some (PATH_NOTFOUND, finalpath, s).
Proof. intros Hol. destruct fuel; simpl; by rewrite Hol. Qed.

Lemma FindPath_loop_correct (V : list NODETYPE) finalpath :
  consistent gn dc goal -> finite_graph gn V -> start ∈ V ->
  forall k (s : AStarGeneric),
    wf s -> path_inv start goal dc gn s -> opt_inv start goal dc gn None s ->
    (length V - length (m_closedlist s) <= k)%nat ->
    exists N r fp,
      (forall fuel, (N <= fuel)%nat ->
         exists s', FindPath_loop fuel goal finalpath gn s = Some (r, fp, s')) /\
      search_outcome gn start goal finalpath r fp.
Proof.
  intros Hcons HV Hstart. induction k as [|k IH]; intros s Hwf Hpi Hoi Hk.
  all: destruct (m_openlist s) as [|p0 l0] eqn:Hol.
  1,3: exists 0%nat, PATH_NOTFOUND, finalpath; split;
    [intros fuel _; exists s; by apply FindPath_loop_empty|];
    right; split_and!; [done| |done];
    intros (l & c & Hpath);
    destruct (frontier s l c goal Hwf Hoi Hcons Hpath)
      as [(q & nq & Hq & Hnq & Hx & _)|(w & nw & Hw & _)];
    [by eapply (oi_nogoal _ _ _ _ _ _ Hoi q nq)|rewrite Hol in Hw; by apply elem_of_nil in Hw].
  all: destruct (close_front_wf s Hwf)
    as (p & l & n & rest & Hol' & Hn & Hrest & Hhl & Hcf & Hwf1 & Hmin);
    [by rewrite Hol|].
  all: pose proof (path_inv_closed_state _ _ _ _ s p n rest l Hol' Hrest Hpi) as Hpi1.
  all: pose proof (closed_bound V _ HV Hstart Hwf1 Hpi1) as Hbound.
  all: unfold closed_state in Hbound; simpl_fields in Hbound.
  all: rewrite length_app in Hbound; simpl in Hbound.
  { lia. }
  pose proof (opt_inv_closed_state s p l n rest Hwf Hoi Hcons Hol' Hn Hrest Hmin) as Hoi1.
  destruct (decide (m_node n = goal)) as [Hgoal|Hgoal].
  - destruct (pi_trace _ _ _ _ _ Hpi1 p) as [lp Hlp].
    { apply elem_of_app. right. apply elem_of_app. right. by apply list_elem_of_singleton. }
    destruct (trace_head_last _ _ _ _ _ _ _ Hlp) as (n' & Hn' & Hhd & Hlast).
    destruct (trace_rpath _ _ _ _ _ _ _ Hlp) as (n'' & Hn'' & Hrp).
    change (store (closed_state s p n rest)) with (store s) in Hn', Hn''.
    rewrite Hn in Hn', Hn''. injection Hn' as <-. injection Hn'' as <-.
    assert (Hpath : path_between gn start goal lp (m_g n - dc start goal)).
    { split_and!; [done| |done]. by rewrite Hhd, Hgoal. }
    exists (S (length lp)), PATH_FOUND, lp. split.
    + intros fuel Hfuel. destruct fuel as [|fuel]; [lia|].
      rewrite FindPath_loop_unfold, Hol, Hcf. cbn [mbind option_bind].
      rewrite (deref_closed_state _ _ _ _ Hn). cbn [mbind option_bind].
      rewrite bool_decide_eq_false_2 by (intros Hne; by apply Hne).
      change (m_currentnode (closed_state s p n rest)) with (Some p).
      rewrite (trace_walk _ _ _ _ _ _ _ Hlp) by lia. cbn [mbind option_bind]. eauto.
    + left. split_and!; [done|by exists lp, (m_g n - dc start goal)|].
      exists (m_g n - dc start goal). split; [done|].
      intros l' c' Hpath'.
      pose proof (oi_opt _ _ _ _ _ _ Hoi1 p n l' c') as Hopt.
      rewrite Hgoal in Hopt. specialize (Hopt (proj2 (expanding_closed_state s p n rest)) Hn Hpath').
      lia.
  - destruct (add_neighbors_opt (gn (m_node n)) _ p n Hwf1 Hpi1 Hoi1
                (expanding_closed_state s p n rest) Hn (fun e He => He))
      as (s2 & Hs2 & Hwf2 & Hpi2 & Hoi2 & Hex2 & Hcur2 & Hcl2 & _ & Hrel2).
    pose proof (opt_inv_done s2 p n Hoi2 Hcur2 Hgoal Hrel2) as Hoi2'.
    destruct (IH s2 Hwf2 Hpi2 Hoi2') as (N & r & fp & Hrun & Hout).
    { rewrite Hcl2. unfold closed_state. simpl_fields. rewrite length_app. simpl. lia. }
    exists (S N), r, fp. split; [|done].
    intros fuel Hfuel. destruct fuel as [|fuel]; [lia|].
    rewrite FindPath_loop_unfold, Hol, Hcf. cbn [mbind option_bind].
    rewrite (deref_closed_state _ _ _ _ Hn). cbn [mbind option_bind].
    rewrite bool_decide_eq_true_2 by done. rewrite Hs2. cbn [mbind option_bind].
    apply Hrun. lia.
Qed.

(** [FindPath] on a finite graph with a consistent heuristic. *)
Lemma FindPath_correct (V : list NODETYPE) finalpath (s : AStarGeneric) :
  alloc_ok s -> consistent gn dc goal -> finite_graph gn V -> start ∈ V ->
  exists N r fp,
    (forall fuel, (N <= fuel)%nat ->
       exists s', FindPath fuel start goal finalpath dc gn s = Some (r, fp, s')) /\
    search_outcome gn start goal finalpath r fp.
Proof.
  intros Hok Hcons HV Hstart. unfold FindPath.
  eapply (FindPath_loop_correct V finalpath Hcons HV Hstart (length V)).
  - by apply FindPath_init_wf.
  - apply path_inv_init.
  - apply opt_inv_init.
  - lia.
Qed.

End opt.
End GenericOpt.

(** ** AStarGeneric: closed states stay closed *)

Module GenericClosed.
Import Generic GenericSpec GenericFacts GenericWf GenericPath.
Section closed.
Context {NODETYPE : Type} `{Countable NODETYPE}.
Context {heap : StdHeap}.

Abbreviation astarnode := (@astarnode NODETYPE).
Abbreviation AStarGeneric := (@AStarGeneric NODETYPE _ _).

(** A state is undiscovered, open or closed, and its node is on the one
    list that goes with it. *)
Lemma wf_three_conditions (s : AStarGeneric) x :
  wf s ->
  hl s x = listelement_new \/
  (exists p, hl s x = entry_open p /\ p ∈ m_openlist s /\ p ∉ m_closedlist s) \/
  (exists p, hl s x = entry_closed p /\ p ∈ m_closedlist s /\ p ∉ m_openlist s).
Proof.
  intros Hwf. pose proof (wf_hl _ Hwf x) as Hx. unfold entry_ok in Hx.
  destruct (status_of (hl s x)) as [[|p|p]|] eqn:Hst; [| | |done].
  - left. by apply status_of_undiscovered.
  - right. left. exists p. split_and!; [by apply status_of_open|apply Hx|].
    apply wf_open_not_closed; [done|apply Hx].
  - right. right. exists p. split_and!; [by apply status_of_closed|apply Hx|].
    intros Hp. eapply wf_open_not_closed; [done|done|apply Hx].
Qed.

Lemma closed_survives_step (s s' : AStarGeneric) x p :
  wf s -> hl s x = entry_closed p -> search_step s s' ->
  hl s' x = entry_closed p /\ store s' !! p = store s !! p /\
  p ∈ m_closedlist s' /\ p ∉ m_openlist s'.
Proof.
  intros Hwf Hhl Hstep.
  assert (Hwf' : wf s').
  { destruct Hstep; [by eapply close_front_preserves_wf|by eapply AddNeighbor_wf]. }
  assert (Hpc : p ∈ m_closedlist s).
  { pose proof (wf_hl _ Hwf x) as Hx. unfold entry_ok in Hx. rewrite Hhl in Hx. apply Hx. }
  assert (Hgoal : hl s' x = entry_closed p /\ store s' !! p = store s !! p /\
                  p ∈ m_closedlist s').
  { destruct Hstep as [Hcf|y c Hadd].
    - destruct (m_openlist s) as [|p0 l0] eqn:Hol.
      { unfold close_front in Hcf. rewrite Hol in Hcf. done. }
      destruct (close_front_wf s Hwf) as (q & l & n & rest & Hol' & Hn & Hrest & Hhq & Hcf' & _).
      { by rewrite Hol. }
      rewrite Hcf in Hcf'. injection Hcf' as ->.
      split_and!.
      + erewrite (hl_insert (closed_state s q n rest)) by done.
        destruct (decide (m_node n = x)) as [<-|Hne]; [|done].
        by rewrite Hhq in Hhl.
      + done.
      + unfold closed_state. simpl_fields. apply elem_of_app. by left.
    - destruct (AddNeighbor_frame _ _ _ _ Hwf Hadd) as (Hcl & _ & _ & _ & _ & Hst & _ & Hh).
      split_and!.
      + rewrite Hh; [done|]. by rewrite Hhl.
      + by apply Hst.
      + by rewrite Hcl. }
  destruct Hgoal as (Hhl' & Hst' & Hpc'). split_and!; try done.
  intros Hpo. by eapply (wf_open_not_closed s' p).
Qed.

Lemma search_step_wf (s s' : AStarGeneric) : wf s -> search_step s s' -> wf s'.
Proof.
  intros Hwf [Hcf|y c Hadd]; [by eapply close_front_preserves_wf|by eapply AddNeighbor_wf].
Qed.

Lemma closed_survives (s s' : AStarGeneric) x p :
  wf s -> hl s x = entry_closed p -> rtc search_step s s' ->
  hl s' x = entry_closed p /\ store s' !! p = store s !! p /\
  p ∈ m_closedlist s' /\ p ∉ m_openlist s'.
Proof.
  intros Hwf Hhl Hsteps. revert Hwf Hhl.
  induction Hsteps as [s|s s1 s' Hstep _ IH]; intros Hwf Hhl.
  - split_and!; try done.
    + pose proof (wf_hl _ Hwf x) as Hx. unfold entry_ok in Hx. rewrite Hhl in Hx. apply Hx.
    + intros Hpo. eapply wf_open_not_closed; [done|done|].
      pose proof (wf_hl _ Hwf x) as Hx. unfold entry_ok in Hx. rewrite Hhl in Hx. apply Hx.
  - destruct (closed_survives_step s s1 x p Hwf Hhl Hstep) as (Hhl1 & Hst1 & _ & _).
    destruct (IH (search_step_wf _ _ Hwf Hstep) Hhl1) as (? & Hst' & ? & ?).
    split_and!; try done. by rewrite Hst'.
Qed.


End closed.
End GenericClosed.

(** ** AStarGeneric: what a search finds whatever the heuristic *)

Module GenericReach.
Import Generic GenericSpec GenericFacts GenericWf GenericPath GenericClosed.
Section reach_facts.
Context {NODETYPE : Type} `{Countable NODETYPE}.
Context {heap : StdHeap}.

Abbreviation astarnode := (@astarnode NODETYPE).
Abbreviation AStarGeneric := (@AStarGeneric NODETYPE _ _).
Abbreviation GETNEIGHBORS := (@GETNEIGHBORS NODETYPE).
Abbreviation DESTCOST := (@DESTCOST NODETYPE).

Variable start goal : NODETYPE.
Variable dc : DESTCOST.
Variable gn : GETNEIGHBORS.

Lemma discovered_AddNeighbor (s s' : AStarGeneric) x movecost :
  wf s -> AddNeighbor x movecost s = Some s' ->
  (forall y, discovered s y -> discovered s' y) /\ discovered s' x.
Proof.
  intros Hwf Hadd. unfold discovered.
  destruct (AddNeighbor_inv s s' x movecost Hwf Hadd)
    as [Hcl|p o cur Hhl _ _ _ _ _|p o cur Hhl _ _ _ _ _|p a cur dc' goal' Hhl _ _ _ _].
  - split; [done|]. intros Heq. by rewrite Heq in Hcl.
  - split; [done|]. change (hl (set_astaropen (Some p) s) x) with (hl s x). by rewrite Hhl.
  - split; [done|]. change (hl (relaxed_state s p o cur movecost) x) with (hl s x).
    by rewrite Hhl.
  - assert (Hins : forall y, hl (added_state s x cur movecost dc' goal' p a) y
                     = if decide (x = y) then entry_open p else hl s y).
    { intros y. by erewrite (hl_insert (added_state s x cur movecost dc' goal' p a)) by done. }
    split.
    + intros y Hy. rewrite Hins. by destruct (decide (x = y)).
    + rewrite Hins. by rewrite decide_True.
Qed.

Lemma reach_inv_init (s : AStarGeneric) :
  reach_inv start goal gn None (FindPath_init start goal dc s).
Proof.
  destruct (FindPath_init_spec start goal dc s) as (p & Hspec). cbv zeta in Hspec.
  destruct Hspec as (_ & Hcl & _ & Hhl & _).
  split.
  - unfold discovered, hl. rewrite Hhl, lookup_singleton_eq. done.
  - intros q nq y c Hq. rewrite Hcl in Hq. by apply elem_of_nil in Hq.
  - intros q n Hq. rewrite Hcl in Hq. by apply elem_of_nil in Hq.
Qed.

Lemma discovered_closed_state (s : AStarGeneric) p n rest y :
  discovered s y -> discovered (closed_state s p n rest) y.
Proof.
  unfold discovered. rewrite GenericOpt.hl_closed_state. by destruct (decide _).
Qed.

Lemma reach_inv_closed_state (s : AStarGeneric) p n rest :
  reach_inv start goal gn None s ->
  reach_inv start goal gn (Some p) (closed_state s p n rest).
Proof.
  intros [Hs He Hg]. split.
  - by apply discovered_closed_state.
  - intros q nq y c Hq Hne Hnq Hedge. apply discovered_closed_state.
    unfold closed_state in Hq. simpl_fields in Hq.
    apply elem_of_app in Hq as [Hq|Hq%list_elem_of_singleton]; [|congruence].
    by eapply (He q nq).
  - intros q nq Hq Hne Hnq.
    unfold closed_state in Hq. simpl_fields in Hq.
    apply elem_of_app in Hq as [Hq|Hq%list_elem_of_singleton]; [|congruence].
    by eapply (Hg q nq).
Qed.

Lemma reach_inv_AddNeighbor (s s' : AStarGeneric) x movecost u :
  wf s -> reach_inv start goal gn (Some u) s -> AddNeighbor x movecost s = Some s' ->
  reach_inv start goal gn (Some u) s'.
Proof.
  intros Hwf [Hs He Hg] Hadd.
  destruct (AddNeighbor_frame s s' x movecost Hwf Hadd) as (Hcl & _ & _ & _ & _ & Hst & _).
  destruct (discovered_AddNeighbor s s' x movecost Hwf Hadd) as [Hmono _].
  split.
  - by apply Hmono.
  - intros q nq y c Hq Hne Hnq Hedge. rewrite Hcl in Hq. rewrite Hst in Hnq by done.
    apply Hmono. by eapply (He q nq).
  - intros q nq Hq Hne Hnq. rewrite Hcl in Hq. rewrite Hst in Hnq by done.
    by eapply (Hg q nq).
Qed.

Lemma add_neighbors_reach l (s s' : AStarGeneric) u :
  wf s -> reach_inv start goal gn (Some u) s -> add_neighbors l s = Some s' ->
  reach_inv start goal gn (Some u) s' /\
  (forall y, discovered s y -> discovered s' y) /\
  (forall y c, (y, c) ∈ l -> discovered s' y).
Proof.
  revert s. induction l as [|[x c0] l IH]; intros s Hwf Hri Hadd.
  { injection Hadd as <-. split_and!; [done..|]. intros y c Hin. by apply elem_of_nil in Hin. }
  cbn [add_neighbors] in Hadd.
  destruct (AddNeighbor x c0 s) as [s1|] eqn:H1; [|done]. cbn [mbind option_bind] in Hadd.
  destruct (discovered_AddNeighbor s s1 x c0 Hwf H1) as [Hmono Hx].
  destruct (IH s1 (AddNeighbor_wf _ _ _ _ Hwf H1) (reach_inv_AddNeighbor _ _ _ _ _ Hwf Hri H1) Hadd)
    as (Hri' & Hmono' & Hl).
  split_and!; [done|by auto|].
  intros y c [[= -> ->]|Hin]%elem_of_cons; [by apply Hmono'|by eapply Hl].
Qed.

Lemma reach_inv_done (s : AStarGeneric) u cur :
  reach_inv start goal gn (Some u) s -> store s !! u = Some cur -> m_node cur <> goal ->
  (forall y c, (y, c) ∈ gn (m_node cur) -> discovered s y) ->
  reach_inv start goal gn None s.
Proof.
  intros [Hs He Hg] Hcur Hne Hall. split; [done| |].
  - intros q nq y c Hq _ Hnq Hedge. destruct (decide (q = u)) as [->|Hqu].
    + rewrite Hcur in Hnq. injection Hnq as <-. by eapply Hall.
    + eapply (He q nq); [done|congruence|done|done].
  - intros q nq Hq _ Hnq. destruct (decide (q = u)) as [->|Hqu].
    + rewrite Hcur in Hnq. by injection Hnq as <-.
    + eapply (Hg q nq); [done|congruence|done].
Qed.

Lemma discovered_closed (s : AStarGeneric) x :
  wf s -> m_openlist s = [] -> discovered s x ->
  exists q nq, q ∈ m_closedlist s /\ store s !! q = Some nq /\ m_node nq = x.
Proof.
  intros Hwf Hol Hx.
  destruct (wf_three_conditions s x Hwf) as [Hnew|[(p & _ & Hp & _)|(p & Hhl & Hp & _)]].
  - done.
  - rewrite Hol in Hp. by apply elem_of_nil in Hp.
  - pose proof (wf_hl _ Hwf x) as Hok. unfold entry_ok in Hok. rewrite Hhl in Hok.
    destruct Hok as (_ & n & Hn & Hnode). by exists p, n.
Qed.

Lemma exhausted_closed (s : AStarGeneric) l c :
  wf s -> reach_inv start goal gn None s -> m_openlist s = [] ->
  rpath gn l c -> last l = Some start ->
  forall x, head l = Some x ->
    exists q nq, q ∈ m_closedlist s /\ store s !! q = Some nq /\ m_node nq = x.
Proof.
  intros Hwf Hri Hol. induction 1 as [x0|y x0 l c0 c' Hedge Hrp IH]; intros Hlast x Hhd.
  - injection Hlast as ->. injection Hhd as <-.
    apply discovered_closed; [done..|]. apply (ri_start _ _ _ _ _ Hri).
  - injection Hhd as <-. rewrite last_cons_cons in Hlast.
    destruct (IH Hlast x0 eq_refl) as (q & nq & Hq & Hnq & Hx0).
    apply discovered_closed; [done..|].
    eapply (ri_exp _ _ _ _ _ Hri q nq); [done|done|done|]. by rewrite Hx0.
Qed.

Lemma FindPath_loop_any_heuristic (V : list NODETYPE) finalpath :
  finite_graph gn V -> start ∈ V ->
  forall k (s : AStarGeneric),
    wf s -> path_inv start goal dc gn s -> reach_inv start goal gn None s ->
    (length V - length (m_closedlist s) <= k)%nat ->
    exists N r fp,
      (forall fuel, (N <= fuel)%nat ->
         exists s', FindPath_loop fuel goal finalpath gn s = Some (r, fp, s')) /\
      ((r = PATH_FOUND /\ exists c, path_between gn start goal fp c) \/
       (r = PATH_NOTFOUND /\ ~ reachable gn start goal /\ fp = finalpath)).
Proof.
  intros HV Hstart. induction k as [|k IH]; intros s Hwf Hpi Hri Hk.
  all: destruct (m_openlist s) as [|p0 l0] eqn:Hol.
  1,3: exists 0%nat, PATH_NOTFOUND, finalpath; split;
    [intros fuel _; exists s; by apply GenericOpt.FindPath_loop_empty|];
    right; split_and!; [done| |done];
    intros (l & c & Hrp & Hhd & Hlast);
    destruct (exhausted_closed s l c Hwf Hri Hol Hrp Hlast goal Hhd) as (q & nq & Hq & Hnq & Hg);
    by eapply (ri_nogoal _ _ _ _ _ Hri q nq).
  all: destruct (close_front_wf s Hwf)
    as (p & l & n & rest & Hol' & Hn & Hrest & Hhl & Hcf & Hwf1 & Hmin);
    [by rewrite Hol|].
  all: pose proof (path_inv_closed_state _ _ _ _ s p n rest l Hol' Hrest Hpi) as Hpi1.
  all: pose proof (GenericOpt.closed_bound start goal dc gn V _ HV Hstart Hwf1 Hpi1) as Hbound.
  all: unfold closed_state in Hbound; simpl_fields in Hbound.
  all: rewrite length_app in Hbound; simpl in Hbound.
  { lia. }
  pose proof (reach_inv_closed_state s p n rest Hri) as Hri1.
  destruct (decide (m_node n = goal)) as [Hgoal|Hgoal].
  - destruct (pi_trace _ _ _ _ _ Hpi1 p) as [lp Hlp].
    { apply elem_of_app. right. apply elem_of_app. right. by apply list_elem_of_singleton. }
    destruct (trace_head_last _ _ _ _ _ _ _ Hlp) as (n' & Hn' & Hhd & Hlast).
    destruct (trace_rpath _ _ _ _ _ _ _ Hlp) as (n'' & Hn'' & Hrp).
    change (store (closed_state s p n rest)) with (store s) in Hn', Hn''.
    rewrite Hn in Hn', Hn''. injection Hn' as <-. injection Hn'' as <-.
    assert (Hpath : path_between gn start goal lp (m_g n - dc start goal)).
    { split_and!; [done| |done]. by rewrite Hhd, Hgoal. }
    exists (S (length lp)), PATH_FOUND, lp. split.
    + intros fuel Hfuel. destruct fuel as [|fuel]; [lia|].
      rewrite FindPath_loop_unfold, Hol, Hcf. cbn [mbind option_bind].
      rewrite (deref_closed_state _ _ _ _ Hn). cbn [mbind option_bind].
      rewrite bool_decide_eq_false_2 by (intros Hne; by apply Hne).
      change (m_currentnode (closed_state s p n rest)) with (Some p).
      rewrite (trace_walk _ _ _ _ _ _ _ Hlp) by lia. cbn [mbind option_bind]. eauto.
    + left. split; [done|]. by exists (m_g n - dc start goal).
  - destruct (add_neighbors_progress goal dc (gn (m_node n)) _ p n Hwf1
                (expanding_closed_state s p n rest) Hn) as [s2 Hs2].
    { apply (pi_dc _ _ _ _ _ Hpi1). }
    { apply (pi_goal _ _ _ _ _ Hpi1). }
    destruct (add_neighbors_path _ _ _ _ _ _ _ p n Hwf1 Hpi1 (expanding_closed_state s p n rest)
                Hn (fun e He => He) Hs2) as (Hwf2 & Hpi2 & _ & Hcur2 & Hcl2).
    destruct (add_neighbors_reach _ _ _ p Hwf1 Hri1 Hs2) as (Hri2 & _ & Hall).
    pose proof (reach_inv_done s2 p n Hri2 Hcur2 Hgoal Hall) as Hri2'.
    destruct (IH s2 Hwf2 Hpi2 Hri2') as (N & r & fp & Hrun & Hout).
    { rewrite Hcl2. unfold closed_state. simpl_fields. rewrite length_app. simpl. lia. }
    exists (S N), r, fp. split; [|done].
    intros fuel Hfuel. destruct fuel as [|fuel]; [lia|].
    rewrite FindPath_loop_unfold, Hol, Hcf. cbn [mbind option_bind].
    rewrite (deref_closed_state _ _ _ _ Hn). cbn [mbind option_bind].
    rewrite bool_decide_eq_true_2 by done. rewrite Hs2. cbn [mbind option_bind].
    apply Hrun. lia.
Qed.

Lemma FindPath_any_heuristic (V : list NODETYPE) finalpath (s : AStarGeneric) :
  alloc_ok s -> finite_graph gn V -> start ∈ V ->
  exists N r fp,
    (forall fuel, (N <= fuel)%nat ->
       exists s', FindPath fuel start goal finalpath dc gn s = Some (r, fp, s')) /\
    ((r = PATH_FOUND /\ exists c, path_between gn start goal fp c) \/
     (r = PATH_NOTFOUND /\ ~ reachable gn start goal /\ fp = finalpath)).
Proof.
  intros Hok HV Hstart.
  destruct (FindPath_loop_any_heuristic V finalpath HV Hstart (length V)
              (FindPath_init start goal dc s)) as (N & r & fp & Hrun & Hout).
  - by apply FindPath_init_wf.
  - apply path_inv_init.
  - apply reach_inv_init.
  - lia.
  - exists N, r, fp. split; [|done]. intros fuel Hfuel.
    rewrite FindPath_unfold. by apply Hrun.
Qed.

End reach_facts.
End GenericReach.

(** ** AStarGenericCached: properties *)

Module CachedFacts.
Import Cached CachedSpec.

Tactic Notation "simpl_cfields" :=
  cbn [store m_astarnodeallocator m_openlist m_closedlist m_helperlist
       m_helperliststartindex m_currentnode m_astaropen m_start m_goal
       m_destinationcost m_getneighbors m_cache m_cachestartindex
       set_store set_allocator set_openlist set_closedlist set_helperlist
       set_helperliststartindex set_currentnode set_astaropen set_start set_goal
       set_destinationcost set_getneighbors set_cache set_cachestartindex].
Tactic Notation "simpl_cfields" "in" hyp(H) :=
  cbn [store m_astarnodeallocator m_openlist m_closedlist m_helperlist
       m_helperliststartindex m_currentnode m_astaropen m_start m_goal
       m_destinationcost m_getneighbors m_cache m_cachestartindex
       set_store set_allocator set_openlist set_closedlist set_helperlist
       set_helperliststartindex set_currentnode set_astaropen set_start set_goal
       set_destinationcost set_getneighbors set_cache set_cachestartindex] in H.

Section facts.
Context {NODETYPE : Type} `{EqDecision NODETYPE}.
Context {heap : StdHeap}.

Abbreviation astarnode := (@astarnode NODETYPE).
Abbreviation AStarGenericCached := (@AStarGenericCached NODETYPE).
Abbreviation cacheelement := (@cacheelement NODETYPE).
Abbreviation GETNEIGHBORS := (@GETNEIGHBORS NODETYPE).

Lemma astarnodecompare_strict_weak_cached (st : gmap ptr astarnode) :
  strict_weak (astarnodecompare st).
Proof.
  unfold astarnodecompare. split.
  - intros a. apply Z.ltb_irrefl.
  - intros a b c Hab Hbc. apply Z.ltb_lt in Hab, Hbc. apply Z.ltb_lt. lia.
  - intros a b c Hab Hbc. apply Z.ltb_ge in Hab, Hbc. apply Z.ltb_ge. lia.
Qed.

Lemma hl_eq_cached index (s : AStarGenericCached) :
  hl index s =
  set_helperliststartindex
    (window_grow listelement_new index (m_helperlist s) (m_helperliststartindex s)).2
    (set_helperlist
       (window_grow listelement_new index (m_helperlist s) (m_helperliststartindex s)).1 s).
Proof. unfold hl. by destruct (window_grow _ _ _ _). Qed.

Lemma window_at_elem {A : Type} (v : list A) start index e :
  window_at v start index = Some e -> e ∈ v.
Proof.
  unfold window_at. destruct (_ <? _); [done|]. apply list_elem_of_lookup_2.
Qed.

Lemma window_grow_Forall {A : Type} (P : A -> Prop) (new : A) index v start :
  P new -> Forall P v -> Forall P (window_grow new index v start).1.
Proof.
  intros Hnew Hv. unfold window_grow.
  destruct (_ =? _)%nat; simpl; [by constructor|].
  destruct (_ <? _); simpl; [apply Forall_app; split; [by apply Forall_replicate|done]|].
  destruct (_ <=? _); simpl; [|done].
  apply Forall_app; split; [done|by apply Forall_replicate].
Qed.

(** *** Relaxation leaves the cache and the node under expansion alone *)

Lemma safe_current_hl index (s : AStarGenericCached) u :
  safe_current s u -> safe_current (hl index s) u.
Proof.
  intros (Hm & Hn & Hf). rewrite hl_eq_cached. split_and!; simpl_cfields; [done..|].
  by apply window_grow_Forall.
Qed.

Lemma relax_frame neighbor neighborindex movecost (s s' : AStarGenericCached) u :
  relax neighbor neighborindex movecost s = Some s' ->
  m_currentnode s = Some u -> safe_current s u ->
  m_cache s' = m_cache s /\ m_cachestartindex s' = m_cachestartindex s /\
  m_currentnode s' = Some u /\ store s' !! u = store s !! u /\ safe_current s' u.
Proof.
  intros Hrelax Hu Hsafe. unfold relax in Hrelax. cbv zeta in Hrelax.
  pose proof (safe_current_hl neighborindex s u Hsafe) as Hsafe1.
  assert (Hf1 : m_cache (hl neighborindex s) = m_cache s /\
                m_cachestartindex (hl neighborindex s) = m_cachestartindex s /\
                m_currentnode (hl neighborindex s) = Some u /\
                store (hl neighborindex s) = store s).
  { rewrite hl_eq_cached. simpl_cfields. done. }
  destruct Hf1 as (Hc1 & Hcs1 & Hu1 & Hst1).
  generalize dependent (hl neighborindex s). intros s1 Hrelax Hsafe1 Hc1 Hcs1 Hu1 Hst1.
  destruct (helper_at s1 neighborindex) as [e|] eqn:He; [|done].
  cbn [mbind option_bind] in Hrelax.
  destruct (m_onclosed e) eqn:Hcl.
  { injection Hrelax as <-. by rewrite Hst1. }
  simpl_cfields in Hrelax.
  assert (Hne : le_node e <> Some u).
  { destruct Hsafe1 as (_ & _ & Hf). rewrite Forall_forall in Hf.
    apply Hf; [|done]. by eapply window_at_elem. }
  destruct (le_node e) as [open|] eqn:Hopen.
  - destruct (deref (store s1) (m_currentnode s1)) as [cur|]; [|done].
    cbn [mbind option_bind] in Hrelax.
    destruct (store s1 !! open) as [o|]; [|done]. cbn [mbind option_bind] in Hrelax.
    destruct (_ <? _); injection Hrelax as <-; simpl_cfields.
    + split_and!; try done.
      * rewrite lookup_insert_ne by congruence. by rewrite Hst1.
    + split_and!; try done. by rewrite Hst1.
  - destruct (allocate (m_astarnodeallocator s1)) as [newnode a] eqn:Ha.
    destruct (deref (store s1) (m_currentnode s1)) as [cur|]; [|done].
    cbn [mbind option_bind] in Hrelax.
    destruct (m_destinationcost s1) as [dc|]; [|done]. cbn [mbind option_bind] in Hrelax.
    destruct (m_goal s1) as [goal|]; [|done]. cbn [mbind option_bind] in Hrelax.
    destruct (helper_at _ neighborindex) as [e1|] eqn:He1; [|done].
    cbn [mbind option_bind] in Hrelax.
    destruct (helper_at (helper_set _ _ _) neighborindex) as [e2|]; [|done].
    cbn [mbind option_bind] in Hrelax. injection Hrelax as <-.
    destruct Hsafe1 as (Hm & Hn & Hf).
    unfold helper_at in He1. simpl_cfields in He1. apply window_at_elem in He1.
    assert (Hnew : newnode <> u /\ (u ∉ m_mem a) /\ (u < alloc_next a)%nat).
    { unfold allocate in Ha. destruct (m_mem (m_astarnodeallocator s1)) as [|p0 rest] eqn:Hmem;
        injection Ha as <- <-; simpl.
      - split_and!; [lia|set_solver|lia].
      - split_and!; [|set_solver|done]. intros ->. apply Hm. left. }
    destruct Hnew as (Hnu & Hma & Hna).
    unfold helper_set. simpl_cfields. split_and!; try done.
    + rewrite lookup_insert_ne by done. by rewrite Hst1.
    + split_and!; simpl_cfields; [done..|].
      unfold window_set. apply Forall_insert; [apply Forall_insert; [done|]|].
      * simpl. rewrite Forall_forall in Hf. by apply Hf.
      * simpl. intros _. congruence.
Qed.

(** *** Recording into the cache *)

Lemma cache_record_spec neighbor neighborindex movecost (s s' : AStarGenericCached) cur :
  cache_record neighbor neighborindex movecost s = Some s' ->
  deref (store s) (m_currentnode s) = Some cur ->
  (forall j, cache_entry s' j =
     if bool_decide (j = m_index cur)
     then {| m_hascache := true;
             m_neighbors := m_neighbors (cache_entry s (m_index cur))
                              ++ [(neighbor, neighborindex, movecost)] |}
     else cache_entry s j) /\
  store s' = store s /\ m_currentnode s' = m_currentnode s /\
  m_astarnodeallocator s' = m_astarnodeallocator s /\
  m_helperlist s' = m_helperlist s.
Proof.
  intros Hrec Hcur. unfold cache_record in Hrec. rewrite Hcur in Hrec.
  cbn [mbind option_bind] in Hrec.
  pose proof (window_grow_covers cacheelement_new (m_index cur) (m_cache s)
                (m_cachestartindex s)) as Hcov.
  pose proof (window_grow_get cacheelement_new (m_index cur) (m_cache s)
                (m_cachestartindex s)) as Hget.
  destruct (window_grow _ _ _ _) as [c start]. cbn [fst snd] in Hcov, Hget.
  rewrite (window_at_get cacheelement_new) in Hrec by done.
  cbn [mbind option_bind] in Hrec. injection Hrec as <-. simpl_cfields.
  split_and!; try done.
  intros j. unfold cache_entry. simpl_cfields.
  rewrite window_set_get by (by apply window_set_covers).
  case_bool_decide; [by rewrite Hget|].
  rewrite window_set_get by done. rewrite bool_decide_eq_false_2 by done. apply Hget.
Qed.

Lemma safe_current_cache_record neighbor neighborindex movecost
    (s s' : AStarGenericCached) u :
  cache_record neighbor neighborindex movecost s = Some s' ->
  safe_current s u -> safe_current s' u.
Proof.
  intros Hrec Hsafe.
  destruct (deref (store s) (m_currentnode s)) as [cur|] eqn:Hcur.
  2:{ unfold cache_record in Hrec. by rewrite Hcur in Hrec. }
  destruct (cache_record_spec _ _ _ _ _ cur Hrec Hcur) as (_ & _ & _ & Ha & Hh).
  unfold safe_current. by rewrite Ha, Hh.
Qed.

(** Expanding a state through the functor appends what the functor
    reports to the state's cache entry, and touches no other entry. *)
Lemma add_neighbors_cache l (s s' : AStarGenericCached) u cur :
  add_neighbors l s = Some s' ->
  m_currentnode s = Some u -> store s !! u = Some cur -> safe_current s u ->
  cache_entry s' (m_index cur) =
    {| m_hascache := m_hascache (cache_entry s (m_index cur)) || bool_decide (l ≠ []);
       m_neighbors := m_neighbors (cache_entry s (m_index cur)) ++ l |} /\
  (forall j, j <> m_index cur -> cache_entry s' j = cache_entry s j).
Proof.
  revert s. induction l as [|[[n idx] c] l IH]; intros s Hadd Hu Hcur Hsafe.
  { injection Hadd as <-. rewrite orb_false_r, app_nil_r. split; [|done].
    by destruct (cache_entry s (m_index cur)). }
  cbn [add_neighbors] in Hadd. unfold AddNeighborCached in Hadd.
  destruct (relax n idx c s) as [s1|] eqn:Hrelax; [|done].
  cbn [mbind option_bind] in Hadd.
  destruct (cache_record n idx c s1) as [s2|] eqn:Hrec; [|done].
  cbn [mbind option_bind] in Hadd.
  destruct (relax_frame _ _ _ _ _ u Hrelax Hu Hsafe) as (Hc1 & Hcs1 & Hu1 & Hst1 & Hsafe1).
  assert (Hderef : deref (store s1) (m_currentnode s1) = Some cur).
  { rewrite Hu1. unfold deref. cbn [mbind option_bind]. by rewrite Hst1. }
  destruct (cache_record_spec _ _ _ _ _ cur Hrec Hderef) as (Hent & Hst2 & Hu2 & _ & _).
  destruct (IH s2 Hadd) as [Hi Hj].
  { by rewrite Hu2. }
  { rewrite Hst2. by rewrite Hst1. }
  { by eapply safe_current_cache_record. }
  assert (Hsame : forall j, cache_entry s1 j = cache_entry s j).
  { intros j. unfold cache_entry. by rewrite Hc1, Hcs1. }
  split.
  - rewrite Hi, Hent, bool_decide_eq_true_2 by done. cbn [m_hascache m_neighbors].
    rewrite Hsame, <- app_assoc. f_equal. by rewrite orb_true_r.
  - intros j Hne. rewrite Hj by done. rewrite Hent, bool_decide_eq_false_2 by done.
    apply Hsame.
Qed.

(** *** Clearing one entry *)

Lemma ClearCacheIndex_entry index (s : AStarGenericCached) j :
  cache_entry (ClearCacheIndex index s) j =
  if bool_decide (j = index) then cacheelement_new else cache_entry s j.
Proof.
  unfold ClearCacheIndex, cache_entry.
  destruct ((m_cachestartindex s <=? index) && _) eqn:Hc; simpl_cfields.
  - apply andb_true_iff in Hc as [H1%Z.leb_le H2%Z.ltb_lt].
    apply window_set_get. unfold window_covers. lia.
  - case_bool_decide as Hj; [|done]. subst j. apply window_get_out.
    apply andb_false_iff in Hc as [Hc%Z.leb_gt|Hc%Z.ltb_ge]; lia.
Qed.

Lemma ClearCacheIndex_other index (s : AStarGenericCached) :
  let s' := ClearCacheIndex index s in
  store s' = store s /\ m_openlist s' = m_openlist s /\
  m_closedlist s' = m_closedlist s /\ m_helperlist s' = m_helperlist s /\
  m_helperliststartindex s' = m_helperliststartindex s /\
  m_currentnode s' = m_currentnode s /\
  m_astarnodeallocator s' = m_astarnodeallocator s /\
  m_cachestartindex s' = m_cachestartindex s /\
  length (m_cache s') = length (m_cache s).
Proof.
  unfold ClearCacheIndex. destruct (_ && _); simpl_cfields; [|done].
  unfold window_set. by rewrite length_insert.
Qed.

Lemma ClearCache_entry (s : AStarGenericCached) j :
  cache_entry (ClearCache s) j = cacheelement_new.
Proof.
  unfold ClearCache, cache_entry. simpl_cfields. apply window_get_out. simpl. lia.
Qed.

(** *** The test for a cache entry *)

Lemma cache_hit_spec (s : AStarGenericCached) index :
  cache_in_range s -> 0 <= index < 2 ^ 63 ->
  cache_hit s index = Some (m_hascache (cache_entry s index)).
Proof.
  intros [Hs Hl] Hi. unfold cache_hit, to_size_t, cache_entry.
  rewrite !Z.mod_small by lia.
  destruct ((m_cachestartindex s <=? index) && _) eqn:Hc.
  - apply andb_true_iff in Hc as [H1%Z.leb_le H2%Z.ltb_lt].
    rewrite (window_at_get cacheelement_new) by (unfold window_covers; lia). done.
  - rewrite window_get_out; [done|].
    apply andb_false_iff in Hc as [Hc%Z.leb_gt|Hc%Z.ltb_ge]; lia.
Qed.

(** A state without a cache entry is expanded through the functor. *)
Lemma expand_live gn (s : AStarGenericCached) u cur :
  m_currentnode s = Some u -> store s !! u = Some cur ->
  cache_in_range s -> 0 <= m_index cur < 2 ^ 63 ->
  m_hascache (cache_entry s (m_index cur)) = false ->
  expand gn s = add_neighbors (gn (m_node cur)) s.
Proof.
  intros Hu Hcur Hrange Hi Hno. unfold expand, deref. rewrite Hu.
  cbn [mbind option_bind]. rewrite Hcur. cbn [mbind option_bind].
  rewrite cache_hit_spec by done. cbn [mbind option_bind]. by rewrite Hno.
Qed.

(** *** The start node *)

Lemma walk_parents_null_cached fuel (st : gmap ptr astarnode) path :
  walk_parents fuel st None path = Some path.
Proof. by destruct fuel. Qed.

Lemma FindPath_init_spec_cached start startindex goal dc (s : AStarGenericCached) :
  exists p s0,
    FindPath_init start startindex goal dc s = Some s0 /\
    m_openlist s0 = [p] /\ m_closedlist s0 = [] /\
    store s0 !! p = Some {| m_node := start; m_parent := None;
                            m_f := dc start goal + 0; m_g := dc start goal; m_h := 0;
                            m_index := startindex |} /\
    m_helperlist s0 = [{| le_node := Some p; m_onopen := true; m_onclosed := false |}] /\
    m_helperliststartindex s0 = startindex /\
    m_currentnode s0 = None /\ m_goal s0 = Some goal /\
    m_destinationcost s0 = Some dc /\
    m_cache s0 = m_cache s /\ m_cachestartindex s0 = m_cachestartindex s.
Proof.
  unfold FindPath_init, push_start. simpl_cfields.
  destruct (allocate _) as [p a] eqn:Ha. exists p.
  rewrite hl_eq_cached. simpl_cfields.
  unfold helper_at, helper_set, window_at, window_set, window_grow. simpl_cfields.
  cbn [length Nat.eqb fst snd]. rewrite Z.sub_diag. cbn.
  rewrite push_heap_single by apply astarnodecompare_strict_weak_cached.
  eexists. split; [reflexivity|]. simpl_cfields.
  rewrite lookup_insert_eq. done.
Qed.

Lemma InitializeStep_spec_cached start startindex goal dc gn (s : AStarGenericCached) :
  exists p s0,
    InitializeStep start startindex goal dc gn s = Some s0 /\
    m_openlist s0 = [p] /\ m_closedlist s0 = [] /\
    store s0 !! p = Some {| m_node := start; m_parent := None;
                            m_f := dc start goal + 0; m_g := dc start goal; m_h := 0;
                            m_index := startindex |} /\
    m_helperlist s0 = [{| le_node := Some p; m_onopen := true; m_onclosed := false |}] /\
    m_helperliststartindex s0 = startindex /\
    m_currentnode s0 = None /\ m_start s0 = Some start /\ m_goal s0 = Some goal /\
    m_destinationcost s0 = Some dc /\ m_getneighbors s0 = Some gn /\
    m_cache s0 = m_cache s /\ m_cachestartindex s0 = m_cachestartindex s.
Proof.
  unfold InitializeStep, push_start. simpl_cfields.
  destruct (allocate _) as [p a] eqn:Ha. exists p.
  rewrite hl_eq_cached. simpl_cfields.
  unfold helper_at, helper_set, window_at, window_set, window_grow. simpl_cfields.
  cbn [length Nat.eqb fst snd]. rewrite Z.sub_diag. cbn.
  rewrite push_heap_single by apply astarnodecompare_strict_weak_cached.
  eexists. split; [reflexivity|]. simpl_cfields.
  rewrite lookup_insert_eq. done.
Qed.

Lemma close_front_eq_cached (s : AStarGenericCached) p l cur e rest :
  m_openlist s = p :: l -> store s !! p = Some cur ->
  helper_at s (m_index cur) = Some e ->
  pop_heap (astarnodecompare (store s)) (p :: l) = rest ++ [p] ->
  close_front s =
    Some (helper_set (m_index cur)
            {| le_node := le_node e; m_onopen := false; m_onclosed := true |}
            (set_closedlist (m_closedlist s ++ [p])
               (set_openlist rest (set_currentnode (Some p) s)))).
Proof.
  intros Hol Hst He Hpop. unfold close_front. simpl_cfields.
  rewrite Hol. cbn [head]. rewrite Hpop, removelast_last.
  unfold deref. cbn [mbind option_bind]. rewrite Hst. cbn [mbind option_bind].
  unfold helper_at in *. simpl_cfields. rewrite He. cbn [mbind option_bind].
  unfold helper_set. simpl_cfields.
  rewrite (window_at_set_eq _ _ _ _ _ He). cbn [mbind option_bind].
  by rewrite window_set_set.
Qed.

Lemma FindPath_unfold_cached fuel start startindex goal finalpath dc gn
    (s : AStarGenericCached) :
  FindPath fuel start startindex goal finalpath dc gn s
  = (s ← FindPath_init start startindex goal dc s; FindPath_loop fuel goal finalpath gn s).
Proof. reflexivity. Qed.

Lemma FindPath_loop_unfold_cached fuel goal finalpath gn (s : AStarGenericCached) :
  FindPath_loop (S fuel) goal finalpath gn s =
  match m_openlist s with
  | [] => Some (PATH_NOTFOUND, finalpath, s)
  | _ :: _ =>
      s ← close_front s;
      cur ← deref (store s) (m_currentnode s);
      if bool_decide (m_node cur ≠ goal) then
        s ← expand gn s;
        FindPath_loop fuel goal finalpath gn s
      else
        path ← walk_parents fuel (store s) (m_currentnode s) [];
        Some (PATH_FOUND, path, set_currentnode None s)
  end.
Proof. reflexivity. Qed.

(** With the goal at the start, the first iteration finds it. *)
Lemma FindPath_start_is_goal_cached fuel start startindex finalpath dc gn
    (s : AStarGenericCached) :
  exists p s',
    FindPath (S (S fuel)) start startindex start finalpath dc gn s
      = Some (PATH_FOUND, [start], s') /\
    m_closedlist s' = [p] /\
    store s' !! p = Some {| m_node := start; m_parent := None;
                            m_f := dc start start + 0; m_g := dc start start; m_h := 0;
                            m_index := startindex |}.
Proof.
  unfold FindPath.
  destruct (FindPath_init_spec_cached start startindex start dc s)
    as (p & s0 & -> & Hol & Hcl & Hst & Hhl & Hhs & Hcur & _).
  cbn [mbind option_bind]. exists p.
  rewrite FindPath_loop_unfold_cached, Hol.
  erewrite (close_front_eq_cached s0 p [] _ _ []); [|done|done| |].
  - cbn [mbind option_bind]. unfold deref at 1, helper_set. simpl_cfields.
    cbn [mbind option_bind]. rewrite Hst. cbn [mbind option_bind m_node].
    rewrite bool_decide_eq_false_2 by (intros Hne; by apply Hne).
    cbn [walk_parents]. rewrite Hst. cbn [mbind option_bind m_parent m_node].
    rewrite walk_parents_null_cached. cbn [mbind option_bind].
    eexists. split; [reflexivity|]. simpl_cfields. by rewrite Hcl.
  - unfold helper_at, window_at. rewrite Hhl, Hhs. cbn [m_index].
    rewrite Z.sub_diag. reflexivity.
  - by rewrite pop_heap_single by apply astarnodecompare_strict_weak_cached.
Qed.

(** *** What the loop leaves behind *)

Lemma FindPath_loop_notfound_cached fuel goal finalpath gn (s : AStarGenericCached) fp s' :
  FindPath_loop fuel goal finalpath gn s = Some (PATH_NOTFOUND, fp, s') ->
  fp = finalpath /\ m_openlist s' = [].
Proof.
  revert s. induction fuel as [|fuel IH]; intros s; simpl.
  - destruct (m_openlist s) eqn:Hol; [|done]. intros [= <- <-]. done.
  - destruct (m_openlist s) eqn:Hol; [intros [= <- <-]; done|].
    destruct (close_front s) as [s1|]; simpl; [|done].
    destruct (deref (store s1) (m_currentnode s1)) as [cur|]; simpl; [|done].
    destruct (bool_decide (m_node cur ≠ goal)).
    + destruct (expand _ s1) as [s2|]; simpl; [|done]. apply IH.
    + destruct (walk_parents _ _ _ _); simpl; [|done]. intros [=].
Qed.

(** *** What [hl] does to the helper list *)


(** *** What a successful search leaves behind *)

Lemma FindPath_loop_found_cached fuel goal finalpath gn (s : AStarGenericCached) fp s' :
  FindPath_loop fuel goal finalpath gn s = Some (PATH_FOUND, fp, s') ->
  m_currentnode s' = None.
Proof.
  revert s. induction fuel as [|fuel IH]; intros s; simpl.
  - destruct (m_openlist s) eqn:Hol; [|done]. intros [=].
  - destruct (m_openlist s) eqn:Hol; [intros [=]|].
    destruct (close_front s) as [s1|]; simpl; [|done].
    destruct (deref (store s1) (m_currentnode s1)) as [cur|]; simpl; [|done].
    destruct (bool_decide (m_node cur ≠ goal)).
    + destruct (expand _ s1) as [s2|]; simpl; [|done]. apply IH.
    + destruct (walk_parents _ _ _ _); simpl; [|done]. by intros [= _ <-].
Qed.

End facts.
End CachedFacts.

(** ** AStarGenericCached: a replayed entry against the functor *)

Module CachedReplay.
Import Cached CachedSpec CachedFacts.
Section replay_facts.
Context {NODETYPE : Type} `{EqDecision NODETYPE}.
Context {heap : StdHeap}.

Abbreviation astarnode := (@astarnode NODETYPE).
Abbreviation AStarGenericCached := (@AStarGenericCached NODETYPE).
Abbreviation cacheelement := (@cacheelement NODETYPE).
Abbreviation GETNEIGHBORS := (@GETNEIGHBORS NODETYPE).

Lemma with_cache_id (s : AStarGenericCached) :
  with_cache (m_cache s) (m_cachestartindex s) s = s.
Proof. by destruct s. Qed.

Lemma same_search_refl (s : AStarGenericCached) : same_search s s.
Proof. unfold same_search. by rewrite with_cache_id. Qed.

Lemma same_search_with_cache c k (s : AStarGenericCached) : same_search s (with_cache c k s).
Proof. done. Qed.

Lemma with_cache_with_cache c k c' k' (s : AStarGenericCached) :
  with_cache c k (with_cache c' k' s) = with_cache c k s.
Proof. done. Qed.

Lemma relax_with_cache neighbor neighborindex movecost c k (s : AStarGenericCached) :
  relax neighbor neighborindex movecost (with_cache c k s)
  = with_cache c k <$> relax neighbor neighborindex movecost s.
Proof.
  unfold relax, with_cache. rewrite !hl_eq_cached. simpl_cfields.
  unfold helper_at, helper_set, deref. simpl_cfields.
  destruct (window_at _ _ _) as [e|]; [|done]. cbn [mbind option_bind].
  destruct (m_onclosed e); [done|].
  destruct (le_node e) as [open|].
  - destruct (m_currentnode s) as [u|]; [|done]. cbn [mbind option_bind].
    destruct (store s !! u) as [cur|]; [|done]. cbn [mbind option_bind].
    destruct (store s !! open) as [o|]; [|done]. cbn [mbind option_bind].
    by destruct (_ <? _).
  - destruct (allocate _) as [newnode a].
    destruct (m_currentnode s) as [u|]; [|done]. cbn [mbind option_bind].
    destruct (store s !! u) as [cur|]; [|done]. cbn [mbind option_bind].
    destruct (m_destinationcost s) as [dc|]; [|done]. cbn [mbind option_bind].
    destruct (m_goal s) as [goal|]; [|done]. cbn [mbind option_bind].
    simpl_cfields.
    destruct (window_at _ _ _) as [e1|]; [|done]. cbn [mbind option_bind].
    done.
Qed.

Lemma hl_covered index (s : AStarGenericCached) :
  window_covers (m_helperlist s) (m_helperliststartindex s) index -> hl index s = s.
Proof.
  intros [H1 H2]. rewrite hl_eq_cached. unfold window_grow.
  destruct (m_helperlist s) as [|e0 v] eqn:Hv; [simpl in H2; lia|].
  rewrite <- Hv in *. 
  assert (Hlen : (length (m_helperlist s) =? 0)%nat = false).
  { rewrite Hv. done. }
  rewrite Hlen.
  rewrite (proj2 (Z.ltb_ge _ _)) by lia.
  rewrite (proj2 (Z.leb_gt _ _)) by lia.
  cbn [fst snd]. by destruct s.
Qed.

Lemma replay_neighbor_relax neighbor neighborindex movecost (s : AStarGenericCached) :
  replay_neighbor (neighbor, neighborindex, movecost) s
  = relax neighbor neighborindex movecost s.
Proof.
  unfold replay_neighbor, relax. cbv zeta.
  pose proof (window_grow_covers listelement_new neighborindex (m_helperlist s)
                (m_helperliststartindex s)) as Hcov.
  assert (Hcov1 : window_covers (m_helperlist (hl neighborindex s))
                    (m_helperliststartindex (hl neighborindex s)) neighborindex).
  { rewrite hl_eq_cached. by simpl_cfields. }
  clear Hcov. generalize dependent (hl neighborindex s). intros s1 Hcov.
  destruct (helper_at s1 neighborindex) as [e|]; [|done]. cbn [mbind option_bind].
  destruct (m_onclosed e); [done|]. simpl_cfields.
  destruct (le_node e) as [open|]; [done|].
  destruct (allocate _) as [newnode a].
  destruct (deref _ _) as [cur|]; [|done]. cbn [mbind option_bind].
  destruct (m_destinationcost s1) as [dc|]; [|done]. cbn [mbind option_bind].
  destruct (m_goal s1) as [goal|]; [|done]. cbn [mbind option_bind].
  by rewrite hl_covered.
Qed.

Lemma cache_record_with_cache neighbor neighborindex movecost c k
    (s : AStarGenericCached) cur :
  deref (store s) (m_currentnode s) = Some cur ->
  exists c' k',
    cache_record neighbor neighborindex movecost (with_cache c k s)
    = Some (with_cache c' k' s).
Proof.
  intros Hcur. unfold cache_record, with_cache. simpl_cfields. rewrite Hcur.
  cbn [mbind option_bind].
  pose proof (window_grow_covers cacheelement_new (m_index cur) c k) as Hcov.
  destruct (window_grow _ _ _ _) as [c1 k1]. cbn [fst snd] in Hcov.
  rewrite (window_at_get cacheelement_new) by done. cbn [mbind option_bind].
  by eexists _, _.
Qed.

(** Replaying a list of neighbours and relaxing it through
    [AddNeighborCached] differ in what they leave in the cache only. *)
Lemma replay_live l (s : AStarGenericCached) c k u cur :
  m_currentnode s = Some u -> store s !! u = Some cur -> safe_current s u ->
  option_Forall2 same_search (replay l s) (add_neighbors l (with_cache c k s)).
Proof.
  revert s c k. induction l as [|[[n i] c0] l IH]; intros s c k Hu Hcur Hsafe.
  { constructor. apply same_search_with_cache. }
  cbn [replay add_neighbors]. rewrite replay_neighbor_relax. unfold AddNeighborCached.
  rewrite relax_with_cache.
  destruct (relax n i c0 s) as [s1|] eqn:Hrelax; cbn [fmap option_fmap option_map mbind option_bind];
    [|constructor].
  destruct (relax_frame _ _ _ _ _ u Hrelax Hu Hsafe) as (_ & _ & Hu1 & Hst1 & Hsafe1).
  assert (Hderef : deref (store s1) (m_currentnode s1) = Some cur).
  { rewrite Hu1. unfold deref. cbn [mbind option_bind]. by rewrite Hst1. }
  destruct (cache_record_with_cache n i c0 c k s1 cur Hderef) as (c' & k' & ->).
  cbn [mbind option_bind]. apply IH; [done| |done]. by rewrite Hst1.
Qed.

Lemma cache_entry_at (s : AStarGenericCached) i :
  m_hascache (cache_entry s i) = true ->
  window_at (m_cache s) (m_cachestartindex s) i = Some (cache_entry s i).
Proof.
  intros Hhas. unfold cache_entry in *.
  destruct (decide (window_covers (m_cache s) (m_cachestartindex s) i)) as [Hc|Hc].
  - by apply window_at_get.
  - rewrite window_get_out in Hhas by done. done.
Qed.

Lemma safe_current_with_cache c k (s : AStarGenericCached) u :
  safe_current s u -> safe_current (with_cache c k s) u.
Proof. done. Qed.

(** The expansion of a state from a cache entry that holds what the
    functor reports is, but for the cache, the expansion through the
    functor. *)
Lemma expand_replay_live (gn : GETNEIGHBORS) (s t : AStarGenericCached) u cur :
  m_currentnode s = Some u -> store s !! u = Some cur -> safe_current s u ->
  cache_in_range s -> cache_in_range t -> 0 <= m_index cur < 2 ^ 63 ->
  cache_entry s (m_index cur) = recorded (gn (m_node cur)) ->
  same_search s t -> m_hascache (cache_entry t (m_index cur)) = false ->
  option_Forall2 same_search (expand gn s) (expand gn t).
Proof.
  intros Hu Hcur Hsafe Hrs Hrt Hi Hentry Hst Hno.
  assert (Hut : m_currentnode t = Some u) by (by rewrite Hst).
  assert (Hcurt : store t !! u = Some cur) by (by rewrite Hst).
  rewrite (expand_live gn t u cur Hut Hcurt Hrt Hi Hno).
  destruct (m_hascache (cache_entry s (m_index cur))) eqn:Hhas.
  - unfold expand, deref. rewrite Hu. cbn [mbind option_bind]. rewrite Hcur.
    cbn [mbind option_bind]. rewrite cache_hit_spec by done. cbn [mbind option_bind].
    rewrite Hhas. rewrite cache_entry_at by done. cbn [mbind option_bind].
    rewrite Hentry. cbn [m_neighbors recorded]. rewrite Hst.
    by apply (replay_live _ _ _ _ u cur).
  - rewrite (expand_live gn s u cur Hu Hcur Hrs Hi Hhas).
    rewrite Hentry in Hhas. cbn in Hhas. apply bool_decide_eq_false in Hhas.
    apply dec_stable in Hhas. rewrite Hhas. by constructor.
Qed.

(** A replay leaves the cache as it is. *)
Lemma replay_cache l (s s' : AStarGenericCached) u :
  replay l s = Some s' -> m_currentnode s = Some u -> safe_current s u ->
  m_cache s' = m_cache s /\ m_cachestartindex s' = m_cachestartindex s.
Proof.
  revert s. induction l as [|[[n i] c] l IH]; intros s Hrep Hu Hsafe.
  { by injection Hrep as <-. }
  cbn [replay] in Hrep. rewrite replay_neighbor_relax in Hrep.
  destruct (relax n i c s) as [s1|] eqn:Hrelax; [|done]. cbn [mbind option_bind] in Hrep.
  destruct (relax_frame _ _ _ _ _ u Hrelax Hu Hsafe) as (Hc & Hk & Hu1 & _ & Hsafe1).
  destruct (IH s1 Hrep Hu1 Hsafe1) as [-> ->]. done.
Qed.

End replay_facts.
End CachedReplay.

(** ** AStarGenericCached: stepping against [FindPath] *)

Module CachedStep.
Import Cached CachedSpec CachedFacts CachedReplay.
Section step_facts.
Context {NODETYPE : Type} `{EqDecision NODETYPE}.
Context {heap : StdHeap}.

Abbreviation astarnode := (@astarnode NODETYPE).
Abbreviation AStarGenericCached := (@AStarGenericCached NODETYPE).
Abbreviation cacheelement := (@cacheelement NODETYPE).
Abbreviation GETNEIGHBORS := (@GETNEIGHBORS NODETYPE).

Lemma InitializeStep_FindPath_init_cached start startindex goal dc gn (s : AStarGenericCached) :
  InitializeStep start startindex goal dc gn s
  = with_stepper start gn <$> FindPath_init start startindex goal dc s.
Proof.
  unfold InitializeStep, FindPath_init, push_start, with_stepper. simpl_cfields.
  destruct (allocate _) as [p a]. rewrite !hl_eq_cached. simpl_cfields.
  unfold helper_at, helper_set. simpl_cfields.
  destruct (window_at _ _ _) as [e|]; [|done]. cbn [mbind option_bind].
  simpl_cfields.
  destruct (window_at _ _ _) as [e1|]; [|done]. done.
Qed.

Lemma close_front_with_stepper_cached start gn (s : AStarGenericCached) :
  close_front (with_stepper start gn s) = with_stepper start gn <$> close_front s.
Proof.
  unfold close_front, with_stepper, deref, helper_at, helper_set. simpl_cfields.
  destruct (head (m_openlist s)) as [p|]; [|done]. cbn [mbind option_bind].
  destruct (store s !! p) as [cur|]; [|done]. cbn [mbind option_bind].
  destruct (window_at _ _ _) as [e|]; [|done]. cbn [mbind option_bind]. simpl_cfields.
  destruct (window_at _ _ _) as [e1|]; [|done]. done.
Qed.

Lemma relax_with_stepper start gn neighbor neighborindex movecost (s : AStarGenericCached) :
  relax neighbor neighborindex movecost (with_stepper start gn s)
  = with_stepper start gn <$> relax neighbor neighborindex movecost s.
Proof.
  unfold relax, with_stepper. rewrite !hl_eq_cached. simpl_cfields.
  unfold helper_at, helper_set, deref. simpl_cfields.
  destruct (window_at _ _ _) as [e|]; [|done]. cbn [mbind option_bind].
  destruct (m_onclosed e); [done|].
  destruct (le_node e) as [open|].
  - destruct (m_currentnode s) as [u|]; [|done]. cbn [mbind option_bind].
    destruct (store s !! u) as [cur|]; [|done]. cbn [mbind option_bind].
    destruct (store s !! open) as [o|]; [|done]. cbn [mbind option_bind].
    by destruct (_ <? _).
  - destruct (allocate _) as [newnode a].
    destruct (m_currentnode s) as [u|]; [|done]. cbn [mbind option_bind].
    destruct (store s !! u) as [cur|]; [|done]. cbn [mbind option_bind].
    destruct (m_destinationcost s) as [dc|]; [|done]. cbn [mbind option_bind].
    destruct (m_goal s) as [goal|]; [|done]. cbn [mbind option_bind].
    simpl_cfields.
    destruct (window_at _ _ _) as [e1|]; [|done]. cbn [mbind option_bind].
    done.
Qed.

Lemma cache_record_with_stepper start gn neighbor neighborindex movecost
    (s : AStarGenericCached) :
  cache_record neighbor neighborindex movecost (with_stepper start gn s)
  = with_stepper start gn <$> cache_record neighbor neighborindex movecost s.
Proof.
  unfold cache_record, with_stepper, deref. simpl_cfields.
  destruct (m_currentnode s) as [u|]; [|done]. cbn [mbind option_bind].
  destruct (store s !! u) as [cur|]; [|done]. cbn [mbind option_bind].
  destruct (window_grow _ _ _ _) as [c k].
  destruct (window_at _ _ _) as [e|]; [|done]. done.
Qed.

Lemma add_neighbors_with_stepper_cached start gn l (s : AStarGenericCached) :
  add_neighbors l (with_stepper start gn s) = with_stepper start gn <$> add_neighbors l s.
Proof.
  revert s. induction l as [|[[n i] c] l IH]; intros s; [done|].
  cbn [add_neighbors]. unfold AddNeighborCached. rewrite relax_with_stepper.
  destruct (relax n i c s) as [s1|]; cbn [fmap option_fmap option_map mbind option_bind];
    [|done].
  rewrite cache_record_with_stepper.
  destruct (cache_record n i c s1) as [s2|];
    cbn [fmap option_fmap option_map mbind option_bind]; [apply IH|done].
Qed.

Lemma replay_with_stepper start gn l (s : AStarGenericCached) :
  replay l (with_stepper start gn s) = with_stepper start gn <$> replay l s.
Proof.
  revert s. induction l as [|[[n i] c] l IH]; intros s; [done|].
  cbn [replay]. rewrite !replay_neighbor_relax, relax_with_stepper.
  destruct (relax n i c s) as [s1|]; cbn [fmap option_fmap option_map mbind option_bind];
    [apply IH|done].
Qed.

Lemma expand_with_stepper start gn gn' (s : AStarGenericCached) :
  expand gn' (with_stepper start gn s) = with_stepper start gn <$> expand gn' s.
Proof.
  unfold expand.
  change (deref (store (with_stepper start gn s)) (m_currentnode (with_stepper start gn s)))
    with (deref (store s) (m_currentnode s)).
  destruct (deref _ _) as [cur|]; [|done]. cbn [mbind option_bind].
  change (cache_hit (with_stepper start gn s) (m_index cur)) with (cache_hit s (m_index cur)).
  destruct (cache_hit s (m_index cur)) as [[]|]; [| |done]; cbn [mbind option_bind].
  - change (m_cache (with_stepper start gn s)) with (m_cache s).
    change (m_cachestartindex (with_stepper start gn s)) with (m_cachestartindex s).
    destruct (window_at _ _ _) as [e|]; [|done]. cbn [mbind option_bind].
    apply replay_with_stepper.
  - apply add_neighbors_with_stepper_cached.
Qed.

Lemma Step_with_stepper_cached start gn (s : AStarGenericCached) :
  Step (with_stepper start gn s) =
  match m_openlist s with
  | _ :: _ =>
      s1 ← close_front s;
      cur ← deref (store s1) (m_currentnode s1);
      goal ← m_goal s1;
      if bool_decide (m_node cur ≠ goal) then
        s2 ← expand gn s1;
        Some (PATH_SEARCHING, with_stepper start gn s2)
      else Some (PATH_FOUND, with_stepper start gn s1)
  | [] => Some (PATH_NOTFOUND, with_stepper start gn s)
  end.
Proof.
  unfold Step. change (m_openlist (with_stepper start gn s)) with (m_openlist s).
  destruct (m_openlist s); [done|].
  rewrite close_front_with_stepper_cached.
  destruct (close_front s) as [s1|]; [|done]. cbn [fmap option_fmap option_map mbind option_bind].
  change (deref (store (with_stepper start gn s1)) (m_currentnode (with_stepper start gn s1)))
    with (deref (store s1) (m_currentnode s1)).
  destruct (deref (store s1) (m_currentnode s1)) as [cur|] eqn:Hcur; [|done].
  cbn [mbind option_bind].
  change (m_goal (with_stepper start gn s1)) with (m_goal s1).
  destruct (m_goal s1) as [goal|]; [|done]. cbn [mbind option_bind].
  destruct (bool_decide (m_node cur ≠ goal)); [|done].
  pose proof (expand_with_stepper start gn gn s1) as Hexp. unfold expand in Hexp |- *.
  change (deref (store (with_stepper start gn s1)) (m_currentnode (with_stepper start gn s1)))
    with (deref (store s1) (m_currentnode s1)) in Hexp.
  rewrite Hcur in Hexp |- *. cbn [mbind option_bind] in Hexp |- *.
  change (cache_hit (with_stepper start gn s1) (m_index cur))
    with (cache_hit s1 (m_index cur)) in *.
  destruct (cache_hit s1 (m_index cur)) as [hit|]; [|done]. cbn [mbind option_bind] in *.
  destruct hit.
  - rewrite Hexp.
    by destruct (window_at (m_cache s1) (m_cachestartindex s1) (m_index cur) ≫= _).
  - change (m_getneighbors (with_stepper start gn s1)) with (Some gn).
    cbn [mbind option_bind]. rewrite Hexp. by destruct (add_neighbors _ s1).
Qed.

Lemma Step_until_done_unfold_cached n (s : AStarGenericCached) :
  Step_until_done (S n) s =
  match Step s with
  | Some (PATH_SEARCHING, s') => Step_until_done n s'
  | Some (r, s') => Some (r, s')
  | None => None
  end.
Proof. simpl. destruct (Step s) as [[[] ?]|]; done. Qed.

Lemma close_front_goal_cached (s s1 : AStarGenericCached) :
  close_front s = Some s1 -> m_goal s1 = m_goal s.
Proof.
  unfold close_front, deref, helper_at, helper_set. simpl_cfields.
  destruct (head (m_openlist s)) as [p|]; [|done]. cbn [mbind option_bind].
  destruct (store s !! p) as [cur|]; [|done]. cbn [mbind option_bind].
  destruct (window_at _ _ _) as [e|]; [|done]. cbn [mbind option_bind]. simpl_cfields.
  destruct (window_at _ _ _) as [e1|]; [|done]. cbn [mbind option_bind].
  by intros [= <-].
Qed.

Lemma relax_goal neighbor neighborindex movecost (s s1 : AStarGenericCached) :
  relax neighbor neighborindex movecost s = Some s1 -> m_goal s1 = m_goal s.
Proof.
  unfold relax. rewrite !hl_eq_cached. simpl_cfields.
  unfold helper_at, helper_set, deref. simpl_cfields.
  destruct (window_at _ _ _) as [e|]; [|done]. cbn [mbind option_bind].
  destruct (m_onclosed e); [by intros [= <-]|].
  destruct (le_node e) as [open|].
  - destruct (m_currentnode s) as [u|]; [|done]. cbn [mbind option_bind].
    destruct (store s !! u) as [cur|]; [|done]. cbn [mbind option_bind].
    destruct (store s !! open) as [o|]; [|done]. cbn [mbind option_bind].
    destruct (_ <? _); by intros [= <-].
  - destruct (allocate _) as [newnode a].
    destruct (m_currentnode s) as [u|]; [|done]. cbn [mbind option_bind].
    destruct (store s !! u) as [cur|]; [|done]. cbn [mbind option_bind].
    destruct (m_destinationcost s) as [dc|]; [|done]. cbn [mbind option_bind].
    destruct (m_goal s) as [goal|] eqn:Hg; [|done]. cbn [mbind option_bind].
    simpl_cfields.
    destruct (window_at _ _ _) as [e1|]; [|done]. cbn [mbind option_bind].
    intros [= <-]. by simpl_cfields.
Qed.

Lemma cache_record_goal neighbor neighborindex movecost (s s1 : AStarGenericCached) :
  cache_record neighbor neighborindex movecost s = Some s1 -> m_goal s1 = m_goal s.
Proof.
  unfold cache_record, deref.
  destruct (m_currentnode s) as [u|]; [|done]. cbn [mbind option_bind].
  destruct (store s !! u) as [cur|]; [|done]. cbn [mbind option_bind].
  destruct (window_grow _ _ _ _) as [c k].
  destruct (window_at _ _ _) as [e|]; [|done]. cbn [mbind option_bind].
  by intros [= <-].
Qed.

Lemma add_neighbors_goal_cached l (s s1 : AStarGenericCached) :
  add_neighbors l s = Some s1 -> m_goal s1 = m_goal s.
Proof.
  revert s. induction l as [|[[n i] c] l IH]; intros s; [by intros [= <-]|].
  cbn [add_neighbors]. unfold AddNeighborCached.
  destruct (relax n i c s) as [s2|] eqn:H2; [|done]. cbn [mbind option_bind].
  destruct (cache_record n i c s2) as [s3|] eqn:H3; [|done]. cbn [mbind option_bind].
  intros H1. rewrite (IH _ H1), (cache_record_goal _ _ _ _ _ H3). by eapply relax_goal.
Qed.

Lemma replay_goal l (s s1 : AStarGenericCached) :
  replay l s = Some s1 -> m_goal s1 = m_goal s.
Proof.
  revert s. induction l as [|[[n i] c] l IH]; intros s; [by intros [= <-]|].
  cbn [replay]. rewrite replay_neighbor_relax.
  destruct (relax n i c s) as [s2|] eqn:H2; [|done]. cbn [mbind option_bind].
  intros H1. rewrite (IH _ H1). by eapply relax_goal.
Qed.

Lemma expand_goal gn (s s1 : AStarGenericCached) :
  expand gn s = Some s1 -> m_goal s1 = m_goal s.
Proof.
  unfold expand. destruct (deref _ _) as [cur|]; [|done]. cbn [mbind option_bind].
  destruct (cache_hit _ _) as [[]|]; [| |done]; cbn [mbind option_bind].
  - destruct (window_at _ _ _) as [e|]; [|done]. cbn [mbind option_bind]. apply replay_goal.
  - apply add_neighbors_goal_cached.
Qed.

Lemma FindPath_loop_to_steps_cached fuel start goal finalpath gn
    (s : AStarGenericCached) r fp s' :
  m_goal s = Some goal ->
  FindPath_loop fuel goal finalpath gn s = Some (r, fp, s') ->
  exists n s'', Step_until_done n (with_stepper start gn s) = Some (r, s'') /\
                stepped_outcome r finalpath fp s''.
Proof.
  assert (Hempty : forall s : AStarGenericCached, m_openlist s = [] ->
    exists n s'', Step_until_done n (with_stepper start gn s) = Some (PATH_NOTFOUND, s'') /\
                  stepped_outcome PATH_NOTFOUND finalpath finalpath s'').
  { intros s0 Hol. exists 1%nat, (with_stepper start gn s0).
    rewrite Step_until_done_unfold_cached, Step_with_stepper_cached, Hol. done. }
  revert s. induction fuel as [|fuel IH]; intros s Hgoal.
  - simpl. destruct (m_openlist s) eqn:Hol; [|done]. intros [= <- <- <-]. by apply Hempty.
  - rewrite FindPath_loop_unfold_cached. destruct (m_openlist s) eqn:Hol.
    { intros [= <- <- <-]. by apply Hempty. }
    destruct (close_front s) as [s1|] eqn:Hs1; [|done]. cbn [mbind option_bind].
    destruct (deref (store s1) (m_currentnode s1)) as [cur|] eqn:Hcur; [|done].
    cbn [mbind option_bind].
    pose proof (close_front_goal_cached _ _ Hs1) as Hg1.
    destruct (bool_decide (m_node cur ≠ goal)) eqn:Hne.
    + destruct (expand _ s1) as [s2|] eqn:Hs2; [|done]. cbn [mbind option_bind].
      intros Hloop.
      destruct (IH s2) as (n & s'' & Hn & Hout); [|done|].
      { rewrite (expand_goal _ _ _ Hs2). congruence. }
      exists (S n), s''. split; [|done].
      rewrite Step_until_done_unfold_cached, Step_with_stepper_cached, Hol, Hs1.
      cbn [mbind option_bind]. rewrite Hcur. cbn [mbind option_bind].
      rewrite Hg1, Hgoal. cbn [mbind option_bind]. rewrite Hne, Hs2. done.
    + destruct (walk_parents _ _ _ _) as [path|] eqn:Hwalk; [|done].
      cbn [mbind option_bind]. intros [= <- <- <-].
      exists 1%nat, (with_stepper start gn s1). split.
      * rewrite Step_until_done_unfold_cached, Step_with_stepper_cached, Hol, Hs1.
        cbn [mbind option_bind]. rewrite Hcur. cbn [mbind option_bind].
        rewrite Hg1, Hgoal. cbn [mbind option_bind]. by rewrite Hne.
      * exists fuel. intros ?. done.
Qed.

Lemma steps_to_FindPath_loop_cached n start goal finalpath gn
    (s : AStarGenericCached) r fp s'' :
  m_goal s = Some goal ->
  Step_until_done n (with_stepper start gn s) = Some (r, s'') ->
  stepped_outcome r finalpath fp s'' ->
  exists fuel s', FindPath_loop fuel goal finalpath gn s = Some (r, fp, s').
Proof.
  revert s. induction n as [|n IH]; intros s Hgoal; [done|].
  rewrite Step_until_done_unfold_cached, Step_with_stepper_cached.
  destruct (m_openlist s) eqn:Hol.
  { intros [= <- <-] Hout. simpl in Hout. subst fp.
    exists 0%nat, s. simpl. by rewrite Hol. }
  destruct (close_front s) as [s1|] eqn:Hs1; [|done]. cbn [mbind option_bind].
  destruct (deref (store s1) (m_currentnode s1)) as [cur|] eqn:Hcur; [|done].
  cbn [mbind option_bind].
  pose proof (close_front_goal_cached _ _ Hs1) as Hg1. rewrite Hg1, Hgoal.
  cbn [mbind option_bind].
  destruct (bool_decide (m_node cur ≠ goal)) eqn:Hne.
  - destruct (expand _ s1) as [s2|] eqn:Hs2; [|done]. cbn [mbind option_bind].
    intros Hn Hout.
    destruct (IH s2) as (fuel & s' & Hloop); [|done|done|].
    { rewrite (expand_goal _ _ _ Hs2). congruence. }
    exists (S fuel), s'. rewrite FindPath_loop_unfold_cached, Hol, Hs1.
    cbn [mbind option_bind]. rewrite Hcur. cbn [mbind option_bind].
    rewrite Hne, Hs2. done.
  - intros [= <- <-] [k Hk]. specialize (Hk []). unfold GetPath in Hk.
    change (store (with_stepper start gn s1)) with (store s1) in Hk.
    change (m_currentnode (with_stepper start gn s1)) with (m_currentnode s1) in Hk.
    exists (S k). eexists. rewrite FindPath_loop_unfold_cached, Hol, Hs1.
    cbn [mbind option_bind]. rewrite Hcur. cbn [mbind option_bind].
    rewrite Hne, Hk. done.
Qed.

(** Stepping and [FindPath] reach the same results. *)
Lemma stepping_FindPath_cached start startindex goal finalpath dc gn
    (s : AStarGenericCached) r fp :
  (exists fuel s', FindPath fuel start startindex goal finalpath dc gn s = Some (r, fp, s')) <->
  (exists n s0 s',
     InitializeStep start startindex goal dc gn s = Some s0 /\
     Step_until_done n s0 = Some (r, s') /\ stepped_outcome r finalpath fp s').
Proof.
  rewrite InitializeStep_FindPath_init_cached.
  destruct (FindPath_init_spec_cached start startindex goal dc s)
    as (p & s1 & Hinit & _ & _ & _ & _ & _ & _ & Hgoal & _).
  split.
  - intros (fuel & s' & Hfind). rewrite FindPath_unfold_cached, Hinit in Hfind.
    cbn [mbind option_bind] in Hfind.
    destruct (FindPath_loop_to_steps_cached fuel start goal finalpath gn s1 r fp s' Hgoal Hfind)
      as (n & s'' & Hn & Hout).
    exists n, (with_stepper start gn s1), s''. by rewrite Hinit.
  - intros (n & s0 & s' & Hs0 & Hn & Hout). rewrite Hinit in Hs0. injection Hs0 as <-.
    destruct (steps_to_FindPath_loop_cached n start goal finalpath gn s1 r fp s' Hgoal Hn Hout)
      as (fuel & s2 & Hloop).
    exists fuel, s2. rewrite FindPath_unfold_cached, Hinit. done.
Qed.
End step_facts.
End CachedStep.

(** ** AStarTile8DirCached: properties *)

Module Tile8DirFacts.
Import Tile8Dir.

Tactic Notation "simpl_tfields" :=
  cbn [store m_astarnodeallocator m_openlist m_closedlist m_helperlist
       m_helperliststartindex m_mapwidth m_cache m_cachestartindex
       set_store set_allocator set_openlist set_closedlist set_helperlist
       set_helperliststartindex set_mapwidth set_cache set_cachestartindex].

Section facts.
Context {heap : StdHeap}.

Lemma astarnodecompare_strict_weak_tile (st : gmap ptr astarnode) :
  strict_weak (astarnodecompare st).
Proof.
  unfold astarnodecompare. split.
  - intros a. apply Z.ltb_irrefl.
  - intros a b c Hab Hbc. apply Z.ltb_lt in Hab, Hbc. apply Z.ltb_lt. lia.
  - intros a b c Hab Hbc. apply Z.ltb_ge in Hab, Hbc. apply Z.ltb_ge. lia.
Qed.

Lemma hl_eq_tile index (s : AStarTile8DirCached) :
  hl index s =
  set_helperliststartindex
    (window_grow listelement_new index (m_helperlist s) (m_helperliststartindex s)).2
    (set_helperlist
       (window_grow listelement_new index (m_helperlist s) (m_helperliststartindex s)).1 s).
Proof. unfold hl. by destruct (window_grow _ _ _ _). Qed.

Lemma walk_parents_null_tile fuel (st : gmap ptr astarnode) path :
  walk_parents fuel st None path = Some path.
Proof. by destruct fuel. Qed.

Lemma FindPath_init_spec_tile start goal dc (s : AStarTile8DirCached) :
  exists p s0,
    FindPath_init start goal dc s = Some s0 /\
    m_openlist s0 = [p] /\ m_closedlist s0 = [] /\
    store s0 !! p = Some {| m_node := start; m_parent := None;
                            m_f := dc start goal + 0; m_g := dc start goal; m_h := 0 |} /\
    m_helperlist s0 = [{| le_node := Some p; m_onopen := true; m_onclosed := false |}] /\
    m_helperliststartindex s0 = index_of s start /\
    m_mapwidth s0 = m_mapwidth s /\
    m_cache s0 = m_cache s /\ m_cachestartindex s0 = m_cachestartindex s.
Proof.
  unfold FindPath_init. simpl_tfields.
  destruct (allocate _) as [p a] eqn:Ha. exists p.
  rewrite hl_eq_tile. unfold index_of. simpl_tfields.
  unfold helper_at, helper_set, window_at, window_set, window_grow, index_of. simpl_tfields.
  cbn [length Nat.eqb fst snd]. rewrite Z.sub_diag. cbn.
  rewrite (push_heap_single _ _ (astarnodecompare_strict_weak_tile _)).
  eexists. split; [reflexivity|]. simpl_tfields.
  rewrite lookup_insert_eq. done.
Qed.

Lemma close_front_eq_tile (s : AStarTile8DirCached) p l cur e rest :
  m_openlist s = p :: l -> store s !! p = Some cur ->
  helper_at s (index_of s (m_node cur)) = Some e ->
  pop_heap (astarnodecompare (store s)) (p :: l) = rest ++ [p] ->
  close_front s =
    Some (p, helper_set (index_of s (m_node cur))
               {| le_node := le_node e; m_onopen := false; m_onclosed := true |}
               (set_closedlist (m_closedlist s ++ [p]) (set_openlist rest s))).
Proof.
  intros Hol Hst He Hpop. unfold close_front.
  rewrite Hol. cbn [head mbind option_bind]. simpl_tfields.
  rewrite Hpop, removelast_last, Hst. cbn [mbind option_bind].
  unfold helper_at, index_of in *. simpl_tfields. rewrite He. cbn [mbind option_bind].
  unfold helper_set, index_of. simpl_tfields.
  rewrite (window_at_set_eq _ _ _ _ _ He). cbn [mbind option_bind].
  by rewrite window_set_set.
Qed.

Lemma FindPath_loop_unfold_tile fuel goal finalpath mc dc (s : AStarTile8DirCached) :
  FindPath_loop (S fuel) goal finalpath mc dc s =
  match m_openlist s with
  | [] => Some (PATH_NOTFOUND, finalpath, s)
  | _ :: _ =>
      '(currentnode, s) ← close_front s;
      cur ← store s !! currentnode;
      if bool_decide (m_node cur ≠ goal) then
        s ← expand mc dc goal currentnode s;
        FindPath_loop fuel goal finalpath mc dc s
      else
        path ← walk_parents fuel (store s) (Some currentnode) [];
        Some (PATH_FOUND, path, s)
  end.
Proof. reflexivity. Qed.

(** With the goal at the start, the first iteration finds it. *)
Lemma FindPath_start_is_goal_tile fuel start finalpath mc dc (s : AStarTile8DirCached) :
  exists p s',
    FindPath (S (S fuel)) start start finalpath mc dc s
      = Some (PATH_FOUND, [start], s') /\
    m_closedlist s' = [p] /\
    store s' !! p = Some {| m_node := start; m_parent := None;
                            m_f := dc start start + 0; m_g := dc start start; m_h := 0 |}.
Proof.
  unfold FindPath.
  destruct (FindPath_init_spec_tile start start dc s)
    as (p & s0 & -> & Hol & Hcl & Hst & Hhl & Hhs & Hw & _).
  cbn [mbind option_bind]. exists p.
  rewrite FindPath_loop_unfold_tile, Hol.
  erewrite (close_front_eq_tile s0 p [] _ _ []); [|done|done| |].
  - cbn [mbind option_bind]. unfold helper_set. simpl_tfields.
    rewrite Hst. cbn [mbind option_bind m_node].
    rewrite bool_decide_eq_false_2 by (intros Hne; by apply Hne).
    cbn [walk_parents]. rewrite Hst. cbn [mbind option_bind m_parent m_node].
    rewrite walk_parents_null_tile. cbn [mbind option_bind].
    eexists. split; [reflexivity|]. simpl_tfields. by rewrite Hcl.
  - unfold helper_at, window_at. rewrite Hhl, Hhs. cbn [m_node].
    unfold index_of. rewrite Hw, Z.sub_diag. reflexivity.
  - by rewrite (pop_heap_single _ _ (astarnodecompare_strict_weak_tile _)).
Qed.

End facts.
End Tile8DirFacts.

(** * The claims *)

Module Claims.
Import GenericSpec.

(** ** C1 *)

Section potential.
Context {NODETYPE : Type} `{Countable NODETYPE}.
Variable gn : @Generic.GETNEIGHBORS NODETYPE.

(** A potential that drops along no edge by more than the edge's cost
    bounds the cost of every path from below. *)
Lemma potential_bound (phi : NODETYPE -> Z) a b l c :
  (forall x y c, (y, c) ∈ gn x -> phi x <= c + phi y) ->
  path_between gn a b l c -> phi a - phi b <= c.
Proof.
  intros Hphi (Hrp & Hhd & Hlast). revert b Hhd Hlast.
  induction Hrp as [x|y x l c0 c' Hedge Hrp IH]; intros b Hhd Hlast.
  - injection Hhd as <-. injection Hlast as <-. lia.
  - injection Hhd as <-. rewrite last_cons_cons in Hlast.
    specialize (IH x eq_refl Hlast). pose proof (Hphi x y c0 Hedge). lia.
Qed.
End potential.

Import Generic Examples Runs.

Lemma detour_edges (x y : nat) (c : Z) :
  (y, c) ∈ detour x ->
  (x = 0%nat /\ y = 1%nat /\ c = 1) \/ (x = 0%nat /\ y = 2%nat /\ c = 3) \/
  (x = 1%nat /\ y = 2%nat /\ c = 1) \/ (x = 2%nat /\ y = 3%nat /\ c = 5).
Proof.
  destruct x as [|[|[|x]]]; simpl; intros Hin;
    repeat (apply elem_of_cons in Hin as [[= -> ->]|Hin]); try (by apply elem_of_nil in Hin);
    naive_solver.
Qed.

(** Claim C1, refuted as stated: on the graph [detour] all costs are
    non-negative and [detour_heuristic] never overestimates the cost of
    reaching state 3, yet [FindPath] from 0 to 3 returns the path 0, 2, 3
    of cost 8 although the path 0, 1, 2, 3 costs 7. *)
Lemma C1_admissible_heuristic_suboptimal :
  finite_graph detour [0; 1; 2; 3]%nat /\
  nonneg_costs detour /\
  admissible detour detour_heuristic 3%nat /\
  (exists s', FindPath (heap := sorting_heap) 10 0%nat 3%nat [] detour_heuristic detour
                AStarGeneric_new = Some (PATH_FOUND, [3; 2; 0]%nat, s')) /\
  (forall c, rpath detour [3; 2; 0]%nat c -> c = 8) /\
  path_between detour 0%nat 3%nat [3; 2; 1; 0]%nat 7 /\
  ~ exists c, shortest_path detour 0%nat 3%nat [3; 2; 0]%nat c.
Proof.
  assert (Hcost : forall c, rpath detour [3; 2; 0]%nat c -> c = 8).
  { intros c Hrp. inversion Hrp as [|? ? ? c1 c2 He1 Hrp1]; subst.
    inversion Hrp1 as [|? ? ? c3 c4 He2 Hrp2]; subst. inversion Hrp2; subst.
    apply detour_edges in He1, He2. naive_solver lia. }
  assert (Hpath : path_between detour 0%nat 3%nat [3; 2; 1; 0]%nat 7).
  { split_and!; [|done..].
    change 7 with (((0 + 1) + 1) + 5). repeat constructor. }
  split_and!; try done.
  - intros x y c Hx Hin. apply detour_edges in Hin. set_solver.
  - intros x y c Hin. apply detour_edges in Hin. naive_solver lia.
  - intros x l c Hp. split.
    + by destruct x as [|[|]].
    + pose proof (potential_bound detour detour_distance x 3%nat l c) as Hb.
      assert (detour_heuristic x 3%nat <= detour_distance x - detour_distance 3%nat).
      { destruct x as [|[|[|[|]]]]; simpl; lia. }
      etrans; [done|]. apply Hb; [|done].
      intros a b c' Hin. apply detour_edges in Hin. naive_solver lia.
  - eexists. vm_compute. reflexivity.
  - intros (c & (Hrp & _) & Hmin). apply Hcost in Hrp as ->.
    specialize (Hmin _ _ Hpath). lia.
Qed.

(** The amended claim C1, for costs that are exact integers (no rounding,
    no overflow): on a finite graph [FindPath] returns, whatever the
    heuristic; it returns [PATH_FOUND] exactly when the goal can be
    reached from the start and [PATH_NOTFOUND] otherwise; on [PATH_FOUND]
    [finalpath] is a path of the graph from the start to the goal (goal
    first), on [PATH_NOTFOUND] it is what the caller passed in; and when
    the heuristic is consistent the edge costs of that path add up to the
    least cost of any path from the start to the goal. *)
Theorem C1_FindPath_reachability_and_shortest_path
    {NODETYPE : Type} `{Countable NODETYPE} {heap : StdHeap}
    (V : list NODETYPE) (start goal : NODETYPE) (finalpath : list NODETYPE)
    (dc : DESTCOST) (gn : GETNEIGHBORS) (s : AStarGeneric) :
  alloc_ok s -> finite_graph gn V -> start ∈ V ->
  exists N r fp,
    (forall fuel, (N <= fuel)%nat ->
       exists s', FindPath fuel start goal finalpath dc gn s = Some (r, fp, s')) /\
    (r = PATH_FOUND \/ r = PATH_NOTFOUND) /\
    (r = PATH_FOUND <-> reachable gn start goal) /\
    (r = PATH_FOUND -> exists c, path_between gn start goal fp c) /\
    (r = PATH_NOTFOUND -> fp = finalpath) /\
    (consistent gn dc goal -> r = PATH_FOUND ->
     exists c, shortest_path gn start goal fp c).
Proof.
  intros Hok HV Hstart.
  destruct (GenericReach.FindPath_any_heuristic start goal dc gn V finalpath s Hok HV Hstart)
    as (N & r & fp & Hrun & Hout).
  exists N, r, fp. split; [done|].
  assert (Hopt : consistent gn dc goal -> r = PATH_FOUND ->
                 exists c, shortest_path gn start goal fp c).
  { intros Hcons Hr.
    destruct (GenericOpt.FindPath_correct start goal dc gn V finalpath s Hok Hcons HV Hstart)
      as (N' & r' & fp' & Hrun' & Hout').
    destruct (Hrun (N `max` N')%nat) as [s1 H1]; [lia|].
    destruct (Hrun' (N `max` N')%nat) as [s2 H2]; [lia|].
    rewrite H1 in H2. injection H2 as <- <- _.
    destruct Hout' as [(_ & _ & Hshort)|(Hr' & _)]; [done|congruence]. }
  destruct Hout as [(-> & Hpath)|(-> & Hunreach & ->)].
  - split_and!; [by left| |done|done|done].
    split; [|done]. intros _. destruct Hpath as [c Hc]. by exists fp, c.
  - split_and!; [by right| |done|done|done].
    split; [done|]. intros Hreach. by destruct Hunreach.
Qed.

Lemma alloc_ok_new {NODETYPE : Type} `{Countable NODETYPE} :
  alloc_ok (AStarGeneric_new (NODETYPE := NODETYPE)).
Proof. split; simpl; [constructor|]. intros p Hp. by apply elem_of_nil in Hp. Qed.

Lemma line_edges (x y : nat) (c : Z) :
  (y, c) ∈ line x -> c = 1 /\ (x <= 2)%nat /\ (y <= 2)%nat.
Proof.
  destruct x as [|[|[|x]]]; simpl; intros Hin;
    repeat (apply elem_of_cons in Hin as [[= -> ->]|Hin]); try (by apply elem_of_nil in Hin);
    lia.
Qed.

Lemma line_finite : finite_graph line [0; 1; 2]%nat.
Proof.
  intros x y c _ Hin. apply line_edges in Hin as (_ & _ & Hy).
  destruct y as [|[|[|y]]]; [repeat constructor..|lia].
Qed.

Lemma line_consistent goal : consistent line zero_heuristic goal.
Proof. intros x y c Hin. apply line_edges in Hin as (-> & _). unfold zero_heuristic. lia. Qed.

Lemma C1_FindPath_reachability_and_shortest_path_witness :
  exists N r fp,
    (forall fuel, (N <= fuel)%nat ->
       exists s', FindPath (heap := sorting_heap) fuel 0%nat 2%nat [] zero_heuristic line
                    AStarGeneric_new = Some (r, fp, s')) /\
    (r = PATH_FOUND \/ r = PATH_NOTFOUND) /\
    (r = PATH_FOUND <-> reachable line 0%nat 2%nat) /\
    (r = PATH_FOUND -> exists c, path_between line 0%nat 2%nat fp c) /\
    (r = PATH_NOTFOUND -> fp = []) /\
    (r = PATH_FOUND -> exists c, shortest_path line 0%nat 2%nat fp c).
Proof.
  destruct (C1_FindPath_reachability_and_shortest_path (heap := sorting_heap)
              [0; 1; 2]%nat 0%nat 2%nat [] zero_heuristic line AStarGeneric_new)
    as (N & r & fp & Hrun & Hr & Hreach & Hpath & Hnot & Hopt).
  - apply alloc_ok_new.
  - apply line_finite.
  - repeat constructor.
  - exists N, r, fp. split_and!; [done..|]. apply Hopt, line_consistent.
Defined.

(** ** C2 *)

(** Claim C2 fails on [AStarTile8DirCached]: the search from (5,5) to
    (7,5) expands (6,5) while (5,5) is closed, so (5,5) is left out of
    the cache entry of (6,5).  The next search, from (6,5) to (5,5), then
    misses the direct step and returns a detour, while the same search on
    a cleared cache returns the direct path. *)
Theorem C2_tile_warm_cache_changes_path :
  fst <$> tile_first_search = Some (PATH_FOUND, [(7, 5); (6, 5); (5, 5)]) /\
  fst <$> tile_search (6, 5) (5, 5) tile_warm
    = Some (PATH_FOUND, [(5, 5); (5, 4); (6, 5)]) /\
  fst <$> tile_search (6, 5) (5, 5) (Tile8Dir.ClearCache tile_warm)
    = Some (PATH_FOUND, [(5, 5); (6, 5)]).
Proof. split_and!; vm_compute; reflexivity. Qed.

(** ** C3 *)

(** Claim C3: in each engine, from [FindPath] and from [InitializeStep]
    alike, the start node enters the open list with
    [g = destinationcost(start, goal)], [h = 0] and [f = g + h]; when the
    goal is the start, the first iteration of [FindPath] returns
    [PATH_FOUND] with the path [[start]], and the goal node keeps that
    [g]. *)
Theorem C3_start_node_seeded_from_heuristic
    {NODETYPE : Type} `{Countable NODETYPE} {heap : StdHeap}
    (start goal : NODETYPE) (startindex : Z) (finalpath : list NODETYPE)
    (dc : DESTCOST) (gn : GETNEIGHBORS) (gnc : Cached.GETNEIGHBORS)
    (s : AStarGeneric) (sc : Cached.AStarGenericCached)
    (tstart tgoal : Tile8Dir.position) (tpath : list Tile8Dir.position)
    (mc tdc : Tile8Dir.MOVECOST) (st : Tile8Dir.AStarTile8DirCached) (fuel : nat) :
  (exists p,
     m_openlist (FindPath_init start goal dc s) = [p] /\
     store (FindPath_init start goal dc s) !! p =
       Some {| m_node := start; m_parent := None; m_f := dc start goal + 0;
               m_g := dc start goal; m_h := 0 |}) /\
  (exists p,
     m_openlist (InitializeStep start goal dc gn s) = [p] /\
     store (InitializeStep start goal dc gn s) !! p =
       Some {| m_node := start; m_parent := None; m_f := dc start goal + 0;
               m_g := dc start goal; m_h := 0 |}) /\
  (exists p s',
     FindPath (S (S fuel)) start start finalpath dc gn s = Some (PATH_FOUND, [start], s') /\
     m_closedlist s' = [p] /\
     store s' !! p =
       Some {| m_node := start; m_parent := None; m_f := dc start start + 0;
               m_g := dc start start; m_h := 0 |}) /\
  (exists p s0,
     Cached.FindPath_init start startindex goal dc sc = Some s0 /\
     Cached.m_openlist s0 = [p] /\
     Cached.store s0 !! p =
       Some {| Cached.m_node := start; Cached.m_parent := None;
               Cached.m_f := dc start goal + 0; Cached.m_g := dc start goal;
               Cached.m_h := 0; Cached.m_index := startindex |}) /\
  (exists p s0,
     Cached.InitializeStep start startindex goal dc gnc sc = Some s0 /\
     Cached.m_openlist s0 = [p] /\
     Cached.store s0 !! p =
       Some {| Cached.m_node := start; Cached.m_parent := None;
               Cached.m_f := dc start goal + 0; Cached.m_g := dc start goal;
               Cached.m_h := 0; Cached.m_index := startindex |}) /\
  (exists p s',
     Cached.FindPath (S (S fuel)) start startindex start finalpath dc gnc sc
       = Some (PATH_FOUND, [start], s') /\
     Cached.m_closedlist s' = [p] /\
     Cached.store s' !! p =
       Some {| Cached.m_node := start; Cached.m_parent := None;
               Cached.m_f := dc start start + 0; Cached.m_g := dc start start;
               Cached.m_h := 0; Cached.m_index := startindex |}) /\
  (exists p s0,
     Tile8Dir.FindPath_init tstart tgoal tdc st = Some s0 /\
     Tile8Dir.m_openlist s0 = [p] /\
     Tile8Dir.store s0 !! p =
       Some {| Tile8Dir.m_node := tstart; Tile8Dir.m_parent := None;
               Tile8Dir.m_f := tdc tstart tgoal + 0; Tile8Dir.m_g := tdc tstart tgoal;
               Tile8Dir.m_h := 0 |}) /\
  (exists p s',
     Tile8Dir.FindPath (S (S fuel)) tstart tstart tpath mc tdc st
       = Some (PATH_FOUND, [tstart], s') /\
     Tile8Dir.m_closedlist s' = [p] /\
     Tile8Dir.store s' !! p =
       Some {| Tile8Dir.m_node := tstart; Tile8Dir.m_parent := None;
               Tile8Dir.m_f := tdc tstart tstart + 0; Tile8Dir.m_g := tdc tstart tstart;
               Tile8Dir.m_h := 0 |}).
Proof.
  split_and!.
  - destruct (GenericFacts.FindPath_init_spec start goal dc s) as (p & Hspec).
    exists p. cbv zeta in Hspec. by destruct Hspec as (? & _ & ? & _).
  - destruct (GenericFacts.InitializeStep_spec start goal dc gn s) as (p & Hspec).
    exists p. cbv zeta in Hspec. by destruct Hspec as (? & _ & ? & _).
  - apply GenericWf.FindPath_start_is_goal.
  - destruct (CachedFacts.FindPath_init_spec_cached start startindex goal dc sc)
      as (p & s0 & ? & ? & _ & ? & _).
    by exists p, s0.
  - destruct (CachedFacts.InitializeStep_spec_cached start startindex goal dc gnc sc)
      as (p & s0 & ? & ? & _ & ? & _).
    by exists p, s0.
  - apply CachedFacts.FindPath_start_is_goal_cached.
  - destruct (Tile8DirFacts.FindPath_init_spec_tile tstart tgoal tdc st)
      as (p & s0 & ? & ? & _ & ? & _).
    by exists p, s0.
  - apply Tile8DirFacts.FindPath_start_is_goal_tile.
Qed.

(** ** C4 *)



(** ** C5 *)

(** Claim C5: [InitializeStep] followed by [Step] until it returns
    something other than [PATH_SEARCHING] ends with the result code of
    [FindPath] on the same input, and after [PATH_FOUND] [GetPath] yields
    the [finalpath] of [FindPath]; each of the two runs returns exactly
    when the other does. *)
Theorem C5_stepping_matches_FindPath
    {NODETYPE : Type} `{Countable NODETYPE} {heap : StdHeap}
    (start goal : NODETYPE) (finalpath : list NODETYPE)
    (dc : DESTCOST) (gn : GETNEIGHBORS) (s : AStarGeneric)
    (r : PathResult) (fp : list NODETYPE) :
  (exists fuel s', FindPath fuel start goal finalpath dc gn s = Some (r, fp, s')) <->
  (exists n s',
     Step_until_done n (InitializeStep start goal dc gn s) = Some (r, s') /\
     match r with
     | PATH_FOUND => exists k, forall path, GetPath k path s' = Some fp
     | _ => fp = finalpath
     end).
Proof.
  assert (Hgoal : m_goal (FindPath_init start goal dc s) = Some goal).
  { destruct (GenericFacts.FindPath_init_spec start goal dc s) as (p & Hspec).
    cbv zeta in Hspec. by destruct Hspec as (_ & _ & _ & _ & _ & ? & _). }
  rewrite GenericFacts.InitializeStep_FindPath_init. unfold FindPath. split.
  - intros (fuel & s' & Hloop).
    by eapply (GenericFacts.FindPath_loop_to_steps fuel start goal finalpath gn).
  - intros (n & s' & Hsteps & Hout).
    by eapply (GenericFacts.steps_to_FindPath_loop n start goal finalpath gn).
Qed.

(** ** C6 *)

(** Claim C6: in every state a search passes through, each state of the
    graph is undiscovered, on the open list or on the closed list, with
    its node on that list only; relaxing a closed state changes nothing,
    and whatever the search does next the state stays closed with the
    same node, unchanged and off the open list. *)
Theorem C6_three_conditions_and_closed_for_good
    {NODETYPE : Type} `{Countable NODETYPE} {heap : StdHeap} (s : AStarGeneric) :
  in_search s ->
  (forall x : NODETYPE,
     hl s x = listelement_new \/
     (exists p, hl s x = entry_open p /\ p ∈ m_openlist s /\ p ∉ m_closedlist s) \/
     (exists p, hl s x = entry_closed p /\ p ∈ m_closedlist s /\ p ∉ m_openlist s)) /\
  (forall (x : NODETYPE) (p : ptr), hl s x = entry_closed p ->
     (forall movecost, AddNeighbor x movecost s = Some s) /\
     (forall s', rtc search_step s s' ->
        hl s' x = entry_closed p /\ store s' !! p = store s !! p /\
        p ∈ m_closedlist s' /\ p ∉ m_openlist s')).
Proof.
  intros Hin. pose proof (GenericWf.in_search_wf s Hin) as Hwf. split.
  - intros x. by apply GenericClosed.wf_three_conditions.
  - intros x p Hhl. split.
    + intros movecost. apply GenericWf.AddNeighbor_closed. by rewrite Hhl.
    + intros s' Hsteps. by eapply GenericClosed.closed_survives.
Qed.

Lemma line_closed_in_search : in_search (heap := sorting_heap) line_closed.
Proof.
  eapply in_search_step.
  - apply (in_search_FindPath AStarGeneric_new 0%nat 2%nat zero_heuristic), alloc_ok_new.
  - apply step_close. vm_compute. reflexivity.
Qed.

Lemma C6_three_conditions_and_closed_for_good_witness :
  in_search (heap := sorting_heap) line_closed /\
  hl line_closed 0%nat = entry_closed 0%nat /\
  (forall movecost,
     AddNeighbor (heap := sorting_heap) 0%nat movecost line_closed = Some line_closed) /\
  (forall s', rtc (search_step (heap := sorting_heap)) line_closed s' ->
     hl s' 0%nat = entry_closed 0%nat /\ store s' !! 0%nat = store line_closed !! 0%nat /\
     0%nat ∈ m_closedlist s' /\ 0%nat ∉ m_openlist s').
Proof.
  assert (Hhl : hl line_closed 0%nat = entry_closed 0%nat) by (vm_compute; reflexivity).
  split; [apply line_closed_in_search|]. split; [exact Hhl|].
  exact (proj2 (C6_three_conditions_and_closed_for_good line_closed line_closed_in_search)
           0%nat 0%nat Hhl).
Defined.

(** ** C7 *)

(** Claim C7: relaxing a neighbour that is on the open list updates its
    [g], [f] and parent and rebuilds the heap over the whole open list
    exactly when [current.g + movecost] is strictly less than its [g];
    otherwise the nodes and the open list stay as they are. *)
Theorem C7_open_neighbor_relaxed_iff_strictly_cheaper
    {NODETYPE : Type} `{Countable NODETYPE} {heap : StdHeap}
    (neighbor : NODETYPE) (movecost : Z) (s : AStarGeneric)
    (open : ptr) (cur o : astarnode) :
  m_onclosed (hl s neighbor) = false ->
  le_node (hl s neighbor) = Some open ->
  deref (store s) (m_currentnode s) = Some cur ->
  store s !! open = Some o ->
  exists s', AddNeighbor neighbor movecost s = Some s' /\
    m_helperlist s' = m_helperlist s /\ m_closedlist s' = m_closedlist s /\
    m_currentnode s' = m_currentnode s /\
    (m_g cur + movecost < m_g o ->
       store s' = <[open := {| m_node := m_node o; m_parent := m_currentnode s;
                               m_f := m_g cur + movecost + m_h o;
                               m_g := m_g cur + movecost; m_h := m_h o |}]> (store s) /\
       m_openlist s' = make_heap (astarnodecompare (store s')) (m_openlist s)) /\
    (m_g o <= m_g cur + movecost ->
       store s' = store s /\ m_openlist s' = m_openlist s).
Proof.
  intros Hcl Hop Hcur Ho.
  rewrite (GenericFacts.AddNeighbor_open neighbor movecost s open cur o Hcl Hop Hcur Ho).
  destruct (m_g cur + movecost <? m_g o) eqn:Hlt.
  - apply Z.ltb_lt in Hlt. eexists. split; [reflexivity|].
    split_and!; try done. intros Hle. lia.
  - apply Z.ltb_ge in Hlt. eexists. split; [reflexivity|].
    split_and!; try done. intros Hlt'. lia.
Qed.

Lemma C7_open_neighbor_relaxed_iff_strictly_cheaper_witness :
  exists s', AddNeighbor (heap := sorting_heap) 1%nat 1 fork_second = Some s' /\
    store s' !! 1%nat = Some {| m_node := 1%nat; m_parent := Some 2%nat;
                                m_f := 2; m_g := 2; m_h := 0 |}.
Proof.
  destruct (C7_open_neighbor_relaxed_iff_strictly_cheaper (heap := sorting_heap)
              1%nat 1 fork_second 1%nat
              {| m_node := 2%nat; m_parent := Some 0%nat; m_f := 1; m_g := 1; m_h := 0 |}
              {| m_node := 1%nat; m_parent := Some 0%nat; m_f := 5; m_g := 5; m_h := 0 |})
    as (s' & Hadd & _ & _ & _ & Hlt & _); [vm_compute; reflexivity..|].
  exists s'. split; [exact Hadd|].
  destruct Hlt as [-> _]; [simpl; lia|]. vm_compute. reflexivity.
Defined.

(** ** C8 *)

(** Claim C8: when the cache entry of index [i] is as [ClearCacheIndex i]
    left it, the expansion of the state with index [i] is not a replay but
    the relaxation of what the neighbour functor reports, and it leaves
    exactly that list in the entry: the entry is again what it was before
    the call if that had been recorded from the same neighbours. *)
Theorem C8_cleared_entry_is_expanded_live
    {NODETYPE : Type} `{EqDecision NODETYPE} {heap : StdHeap}
    (gn : Cached.GETNEIGHBORS) (s t : Cached.AStarGenericCached (NODETYPE := NODETYPE))
    (i : Z) (u : ptr) (cur : Cached.astarnode) :
  Cached.m_currentnode t = Some u -> Cached.store t !! u = Some cur ->
  Cached.m_index cur = i ->
  CachedSpec.safe_current t u -> CachedSpec.cache_in_range t -> 0 <= i < 2 ^ 63 ->
  CachedSpec.cache_entry t i = CachedSpec.cache_entry (Cached.ClearCacheIndex i s) i ->
  Cached.cache_hit t i = Some false /\
  Cached.expand gn t = Cached.add_neighbors (gn (Cached.m_node cur)) t /\
  (forall t', Cached.expand gn t = Some t' ->
     CachedSpec.cache_entry t' i = CachedSpec.recorded (gn (Cached.m_node cur)) /\
     (CachedSpec.cache_entry s i = CachedSpec.recorded (gn (Cached.m_node cur)) ->
      CachedSpec.cache_entry t' i = CachedSpec.cache_entry s i)).
Proof.
  intros Hu Hcur <- Hsafe Hrange Hi Hentry.
  rewrite CachedFacts.ClearCacheIndex_entry, bool_decide_eq_true_2 in Hentry by done.
  assert (Hlive : Cached.expand gn t = Cached.add_neighbors (gn (Cached.m_node cur)) t).
  { apply (CachedFacts.expand_live gn t u cur); try done. by rewrite Hentry. }
  split; [|split; [exact Hlive|]].
  - rewrite CachedFacts.cache_hit_spec by done. by rewrite Hentry.
  - intros t' Hexp. rewrite Hlive in Hexp.
    destruct (CachedFacts.add_neighbors_cache _ _ _ _ _ Hexp Hu Hcur Hsafe) as [Hrec _].
    rewrite Hentry in Hrec. cbn in Hrec.
    assert (Hnew : CachedSpec.cache_entry t' (Cached.m_index cur)
                   = CachedSpec.recorded (gn (Cached.m_node cur))) by exact Hrec.
    split; [exact Hnew|]. intros Hold. by rewrite Hold.
Qed.

Lemma C8_cleared_entry_is_expanded_live_witness :
  CachedSpec.cache_entry cached_warm 1 = CachedSpec.recorded (line_indexed 1%nat) /\
  Cached.cache_hit cached_recheck 1 = Some false /\
  exists t', Cached.expand (heap := sorting_heap) line_indexed cached_recheck = Some t' /\
    CachedSpec.cache_entry t' 1 = CachedSpec.cache_entry cached_warm 1.
Proof.
  assert (Hold : CachedSpec.cache_entry cached_warm 1 = CachedSpec.recorded (line_indexed 1%nat))
    by (vm_compute; reflexivity).
  destruct (C8_cleared_entry_is_expanded_live (heap := sorting_heap) line_indexed
              cached_warm cached_recheck 1 2%nat
              {| Cached.m_node := 1%nat; Cached.m_parent := None; Cached.m_f := 0;
                 Cached.m_g := 0; Cached.m_h := 0; Cached.m_index := 1 |})
    as (Hhit & Hlive & Hrec).
  - vm_compute. reflexivity.
  - vm_compute. reflexivity.
  - reflexivity.
  - split_and!.
    + vm_compute. intros Hin. apply elem_of_cons in Hin as [[=]|Hin].
      apply elem_of_cons in Hin as [[=]|Hin]. by apply elem_of_nil in Hin.
    + vm_compute. lia.
    + vm_compute. repeat constructor. intros [=].
  - split; vm_compute; [by intros [=]|reflexivity].
  - lia.
  - vm_compute. reflexivity.
  - split; [exact Hold|]. split; [exact Hhit|].
    assert (Hexp : Cached.expand (heap := sorting_heap) line_indexed cached_recheck
                   = Some cached_rechecked) by (vm_compute; reflexivity).
    exists cached_rechecked. split; [exact Hexp|].
    exact (proj2 (Hrec cached_rechecked Hexp) Hold).
Defined.

(** ** C9 *)

(** Claim C9: when [FindPath] returns [PATH_NOTFOUND], in the generic and
    in the cached engine, [finalpath] is what the caller passed in. *)
Theorem C9_notfound_leaves_finalpath_alone
    {NODETYPE : Type} `{Countable NODETYPE} {heap : StdHeap}
    (fuel : nat) (start goal : NODETYPE) (startindex : Z) (finalpath fp : list NODETYPE)
    (dc : DESTCOST) :
  (forall (gn : GETNEIGHBORS) (s s' : AStarGeneric),
     FindPath fuel start goal finalpath dc gn s = Some (PATH_NOTFOUND, fp, s') ->
     fp = finalpath) /\
  (forall (gn : Cached.GETNEIGHBORS) (s s' : Cached.AStarGenericCached),
     Cached.FindPath fuel start startindex goal finalpath dc gn s
       = Some (PATH_NOTFOUND, fp, s') ->
     fp = finalpath).
Proof.
  split.
  - intros gn s s' Hfind. rewrite GenericFacts.FindPath_unfold in Hfind.
    by apply GenericFacts.FindPath_loop_notfound in Hfind as [-> _].
  - intros gn s s' Hfind. rewrite CachedFacts.FindPath_unfold_cached in Hfind.
    apply bind_Some in Hfind as (s1 & _ & Hloop).
    by apply CachedFacts.FindPath_loop_notfound_cached in Hloop as [-> _].
Qed.

Lemma C9_notfound_leaves_finalpath_alone_witness :
  FindPath (heap := sorting_heap) 10 0%nat 9%nat [7%nat] zero_heuristic line AStarGeneric_new
    = Some (PATH_NOTFOUND, [7%nat], line_lost) /\
  Cached.FindPath (heap := sorting_heap) 10 0%nat 0 9%nat [7%nat] zero_heuristic line_indexed
    Cached.AStarGenericCached_new
    = Some (PATH_NOTFOUND, [7%nat], cached_lost).
Proof.
  assert (H1 : FindPath (heap := sorting_heap) 10 0%nat 9%nat [7%nat] zero_heuristic line
                 AStarGeneric_new = Some (PATH_NOTFOUND, [7%nat], line_lost))
    by (vm_compute; reflexivity).
  assert (H2 : Cached.FindPath (heap := sorting_heap) 10 0%nat 0 9%nat [7%nat] zero_heuristic
                 line_indexed Cached.AStarGenericCached_new
               = Some (PATH_NOTFOUND, [7%nat], cached_lost))
    by (vm_compute; reflexivity).
  pose proof (C9_notfound_leaves_finalpath_alone (heap := sorting_heap)
                10 0%nat 9%nat 0 [7%nat] [7%nat] zero_heuristic) as [Hg Hc].
  pose proof (Hg line AStarGeneric_new line_lost H1).
  pose proof (Hc line_indexed Cached.AStarGenericCached_new cached_lost H2).
  by split.
Defined.

(** ** C10 *)

(** Claim C10: after [FindPath] has returned [PATH_FOUND] the current
    node is null, so [GetPath] yields the empty vector, whatever its
    argument held. *)
Theorem C10_GetPath_after_FindPath_is_empty
    {NODETYPE : Type} `{Countable NODETYPE} {heap : StdHeap}
    (fuel : nat) (start goal : NODETYPE) (finalpath fp : list NODETYPE)
    (dc : DESTCOST) (gn : GETNEIGHBORS) (s s' : AStarGeneric) :
  FindPath fuel start goal finalpath dc gn s = Some (PATH_FOUND, fp, s') ->
  m_currentnode s' = None /\
  forall k path, GetPath k path s' = Some [].
Proof.
  intros Hfind. rewrite GenericFacts.FindPath_unfold in Hfind.
  apply GenericFacts.FindPath_loop_found in Hfind.
  split; [done|]. intros k path. unfold GetPath. rewrite Hfind.
  apply GenericFacts.walk_parents_null.
Qed.

Lemma C10_GetPath_after_FindPath_is_empty_witness :
  FindPath (heap := sorting_heap) 10 0%nat 2%nat [] zero_heuristic line AStarGeneric_new
    = Some (PATH_FOUND, [2; 1; 0]%nat, line_found) /\
  GetPath 5 [4%nat] line_found = Some [].
Proof.
  assert (H1 : FindPath (heap := sorting_heap) 10 0%nat 2%nat [] zero_heuristic line
                 AStarGeneric_new = Some (PATH_FOUND, [2; 1; 0]%nat, line_found))
    by (vm_compute; reflexivity).
  split; [exact H1|].
  exact (proj2 (C10_GetPath_after_FindPath_is_empty (heap := sorting_heap) 10 0%nat 2%nat []
                  [2; 1; 0]%nat zero_heuristic line AStarGeneric_new line_found H1)
           5%nat [4%nat]).
Defined.

End Claims.

(** * Further properties of the engines *)

Module Extras.
Import Generic GenericSpec GenericFacts GenericWf Examples Runs.

(** Property X1: the allocator hands out a node that is not in use.  When
    the released nodes and the nodes in use [L] are pairwise distinct and
    all below the next fresh address, [allocate] returns a node outside
    [L] and keeps that so; the node returned last is the one handed out
    next. *)
Theorem allocate_hands_out_a_free_node (a a' : astarallocator) (p : ptr) (L : list ptr) :
  NoDup (m_mem a ++ L) ->
  (forall q, q ∈ m_mem a ++ L -> (q < alloc_next a)%nat) ->
  allocate a = (p, a') ->
  (p ∉ L) /\ NoDup (m_mem a' ++ p :: L) /\
  (forall q, q ∈ m_mem a' ++ p :: L -> (q < alloc_next a')%nat) /\
  allocate (deallocate p a') = (p, a').
Proof.
  intros Hnd Hb Ha.
  destruct (GenericWf.allocate_spec a p a' L Ha Hnd Hb) as (H1 & H2 & H3).
  split_and!; [done..|]. by destruct a'.
Qed.

Lemma allocate_hands_out_a_free_node_witness :
  (1%nat ∉ [0; 2]%nat) /\
  allocate (deallocate 1%nat {| m_mem := []; alloc_next := 3%nat |})
  = (1%nat, {| m_mem := []; alloc_next := 3%nat |}).
Proof.
  destruct (allocate_hands_out_a_free_node {| m_mem := [1%nat]; alloc_next := 3%nat |}
              {| m_mem := []; alloc_next := 3%nat |} 1%nat [0; 2]%nat)
    as (H1 & _ & _ & H4).
  - simpl. repeat (apply NoDup_cons; split; [set_solver|]). apply NoDup_nil_2.
  - intros q Hq. simpl in *. repeat (apply elem_of_cons in Hq as [->|Hq]); [lia..|by apply elem_of_nil in Hq].
  - reflexivity.
  - by split.
Defined.

Section generic.
Context {NODETYPE : Type} `{Countable NODETYPE} {heap : StdHeap}.

Abbreviation astarnode := (@Generic.astarnode NODETYPE).
Abbreviation AStarGeneric := (@Generic.AStarGeneric NODETYPE _ _).
Abbreviation GETNEIGHBORS := (@Generic.GETNEIGHBORS NODETYPE).
Abbreviation DESTCOST := (@Generic.DESTCOST NODETYPE).

(** Property X2: [ClearOpenList] and [ClearClosedList] give every node of
    the two lists back to the allocator, the closed nodes on top of the
    open ones, each list in reverse; the lists end up empty, the node
    records stay, and the allocator's data stay in order. *)
Theorem clearing_the_lists_frees_every_node (s : AStarGeneric) :
  alloc_ok s ->
  m_openlist (ClearClosedList (ClearOpenList s)) = [] /\
  m_closedlist (ClearClosedList (ClearOpenList s)) = [] /\
  m_mem (m_astarnodeallocator (ClearClosedList (ClearOpenList s)))
    = reverse (m_closedlist s) ++ reverse (m_openlist s) ++ m_mem (m_astarnodeallocator s) /\
  store (ClearClosedList (ClearOpenList s)) = store s /\
  alloc_ok (ClearClosedList (ClearOpenList s)).
Proof.
  intros [Hnd Hb]. unfold ClearClosedList, ClearOpenList. simpl_fields.
  destruct (GenericWf.deallocate_all_mem (m_openlist s) (m_astarnodeallocator s)) as [Hm1 Hn1].
  destruct (GenericWf.deallocate_all_mem (m_closedlist s)
              (deallocate_all (m_openlist s) (m_astarnodeallocator s))) as [Hm2 Hn2].
  rewrite Hm1 in Hm2.
  assert (Hperm : reverse (m_closedlist s) ++ reverse (m_openlist s)
                    ++ m_mem (m_astarnodeallocator s)
                  ≡ₚ m_mem (m_astarnodeallocator s) ++ m_openlist s ++ m_closedlist s).
  { rewrite !reverse_Permutation.
    rewrite (Permutation_app_comm (m_closedlist s)), <- app_assoc.
    rewrite (Permutation_app_comm (m_openlist s)), <- app_assoc.
    f_equiv. apply Permutation_app_comm. }
  split_and!; [done..|].
  split; simpl_fields; rewrite Hm2, !app_nil_r.
  - by rewrite Hperm.
  - intros p Hp. rewrite Hperm in Hp. rewrite Hn2, Hn1. by apply Hb.
Qed.

(** Property X3: in every state a search passes through, the released
    nodes, the open nodes and the closed nodes are pairwise distinct and
    lie below the next fresh address, the open list is a heap for the
    order on [f], and every node on a list has its record. *)
Theorem search_keeps_memory_and_heap_in_order (s : AStarGeneric) :
  in_search s ->
  NoDup (m_mem (m_astarnodeallocator s) ++ m_openlist s ++ m_closedlist s) /\
  (forall p, p ∈ m_mem (m_astarnodeallocator s) ++ m_openlist s ++ m_closedlist s ->
     (p < alloc_next (m_astarnodeallocator s))%nat) /\
  is_heap (astarnodecompare (store s)) (m_openlist s) /\
  (forall p, p ∈ m_openlist s ++ m_closedlist s -> is_Some (store s !! p)).
Proof.
  intros Hin. pose proof (GenericWf.in_search_wf s Hin) as Hwf.
  destruct (wf_alloc _ Hwf) as [Hnd Hb].
  split_and!; [done|done|apply (wf_heap _ Hwf)|].
  intros p [Hp|Hp]%elem_of_app.
  - destruct (wf_open _ Hwf p Hp) as (n & -> & _). by eexists.
  - destruct (wf_closed _ Hwf p Hp) as (n & -> & _). by eexists.
Qed.

(** Property X4: the node a search closes next is the front of the open
    list, and its [f] is the least of all open nodes, whatever heap
    implementation orders the list; it becomes the current node, goes to
    the end of the closed list, and the rest of the open list stays. *)
Theorem the_node_closed_has_the_least_f (s : AStarGeneric) :
  in_search s -> m_openlist s <> [] ->
  exists p n s',
    close_front s = Some s' /\ head (m_openlist s) = Some p /\
    m_currentnode s' = Some p /\ last (m_closedlist s') = Some p /\
    store s' !! p = Some n /\ hl s' (m_node n) = entry_closed p /\
    m_openlist s' ≡ₚ tail (m_openlist s) /\
    forall q nq, q ∈ m_openlist s -> store s !! q = Some nq -> m_f n <= m_f nq.
Proof.
  intros Hin Hne. pose proof (GenericWf.in_search_wf s Hin) as Hwf.
  destruct (GenericWf.close_front_wf s Hwf Hne)
    as (p & l & n & rest & Hol & Hn & Hrest & Hhl & Hcf & Hwf1 & Hmin).
  exists p, n, (closed_state s p n rest). rewrite Hol.
  split_and!; try done.
  - unfold closed_state. simpl_fields. by rewrite last_snoc.
  - rewrite GenericOpt.hl_closed_state. by rewrite decide_True.
  - intros q nq Hq. apply Hmin. by rewrite Hol.
Qed.


(** Property X6: in every state a search passes through, no two nodes on
    the open and closed lists stand for the same state of the graph. *)
Theorem no_state_has_two_nodes (s : AStarGeneric) (p q : ptr) (n nq : astarnode) :
  in_search s ->
  p ∈ m_openlist s ++ m_closedlist s -> q ∈ m_openlist s ++ m_closedlist s ->
  store s !! p = Some n -> store s !! q = Some nq -> m_node n = m_node nq ->
  p = q.
Proof.
  intros Hin. apply GenericWf.wf_open_inj. by apply GenericWf.in_search_wf.
Qed.

(** Property X7: on a finite graph, [InitializeStep] followed by enough
    calls of [Step] ends, whatever the heuristic, with [PATH_FOUND] when
    the goal can be reached from the start and with [PATH_NOTFOUND] when
    it cannot; after [PATH_FOUND] [GetPath] yields a path of the graph
    from the start to the goal. *)
Theorem stepping_finds_the_goal_iff_reachable
    (V : list NODETYPE) (start goal : NODETYPE) (dc : DESTCOST) (gn : GETNEIGHBORS)
    (s : AStarGeneric) :
  alloc_ok s -> finite_graph gn V -> start ∈ V ->
  exists n r s',
    Step_until_done n (InitializeStep start goal dc gn s) = Some (r, s') /\
    (r = PATH_FOUND \/ r = PATH_NOTFOUND) /\
    (r = PATH_FOUND <-> reachable gn start goal) /\
    (r = PATH_FOUND ->
     exists k fp c, (forall path, GetPath k path s' = Some fp) /\
                    path_between gn start goal fp c).
Proof.
  intros Hok HV Hstart.
  destruct (GenericReach.FindPath_any_heuristic start goal dc gn V [] s Hok HV Hstart)
    as (N & r & fp & Hrun & Hout).
  destruct (Hrun N) as [s1 Hfind]; [lia|]. rewrite GenericFacts.FindPath_unfold in Hfind.
  assert (Hgoal : m_goal (FindPath_init start goal dc s) = Some goal).
  { destruct (GenericFacts.FindPath_init_spec start goal dc s) as (p & Hspec).
    cbv zeta in Hspec. by destruct Hspec as (_ & _ & _ & _ & _ & ? & _). }
  destruct (GenericFacts.FindPath_loop_to_steps N start goal [] gn _ r fp s1 Hgoal Hfind)
    as (n & s2 & Hsteps & Hstepped).
  rewrite <- GenericFacts.InitializeStep_FindPath_init in Hsteps.
  exists n, r, s2. split; [done|].
  destruct Hout as [(-> & c & Hpath)|(-> & Hunreach & _)].
  - split_and!; [by left| |].
    + split; [|done]. intros _. by exists fp, c.
    + intros _. destruct Hstepped as [k Hk]. by exists k, fp, c.
  - split_and!; [by right| |done]. split; [done|]. intros Hreach. by destruct Hunreach.
Qed.
End generic.

Lemma alloc_ok_line_found : alloc_ok line_found.
Proof.
  split.
  - vm_compute. repeat (apply NoDup_cons; split; [set_solver|]). apply NoDup_nil_2.
  - intros p Hp. vm_compute in Hp. vm_compute.
    repeat (apply elem_of_cons in Hp as [->|Hp]); [lia..|by apply elem_of_nil in Hp].
Qed.

Lemma clearing_the_lists_frees_every_node_witness :
  alloc_ok line_found /\
  m_mem (m_astarnodeallocator (ClearClosedList (ClearOpenList line_found)))
    = [2; 1; 0]%nat /\
  alloc_ok (ClearClosedList (ClearOpenList line_found)).
Proof.
  destruct (clearing_the_lists_frees_every_node line_found alloc_ok_line_found)
    as (_ & _ & Hm & _ & Hok).
  split_and!; [apply alloc_ok_line_found| |exact Hok].
  rewrite Hm. vm_compute. reflexivity.
Defined.

Lemma search_keeps_memory_and_heap_in_order_witness :
  in_search (heap := sorting_heap) line_closed /\
  is_heap (astarnodecompare (store line_closed)) (m_openlist line_closed).
Proof.
  split; [apply Claims.line_closed_in_search|].
  apply (search_keeps_memory_and_heap_in_order (heap := sorting_heap) line_closed
           Claims.line_closed_in_search).
Defined.

Lemma the_node_closed_has_the_least_f_witness :
  exists (p : ptr) (n : astarnode (NODETYPE := nat)) (s' : AStarGeneric (NODETYPE := nat)),
    close_front (heap := sorting_heap)
      (FindPath_init (heap := sorting_heap) 0%nat 2%nat zero_heuristic AStarGeneric_new)
      = Some s' /\
    m_currentnode s' = Some p /\ store s' !! p = Some n.
Proof.
  destruct (the_node_closed_has_the_least_f (heap := sorting_heap)
              (FindPath_init (heap := sorting_heap) 0%nat 2%nat zero_heuristic
                 AStarGeneric_new))
    as (p & n & s' & Hcf & _ & Hcur & _ & Hn & _).
  - apply in_search_FindPath, Claims.alloc_ok_new.
  - vm_compute. discriminate.
  - by exists p, n, s'.
Defined.


Lemma no_state_has_two_nodes_witness :
  in_search (heap := sorting_heap) line_closed /\
  (0%nat ∈ m_openlist line_closed ++ m_closedlist line_closed) /\ 0%nat = 0%nat.
Proof.
  assert (Hin : 0%nat ∈ m_openlist line_closed ++ m_closedlist line_closed).
  { vm_compute. left. }
  split_and!; [apply Claims.line_closed_in_search|exact Hin|].
  apply (no_state_has_two_nodes (heap := sorting_heap) line_closed 0%nat 0%nat
           {| m_node := 0%nat; m_parent := None; m_f := 0; m_g := 0; m_h := 0 |}
           {| m_node := 0%nat; m_parent := None; m_f := 0; m_g := 0; m_h := 0 |}
           Claims.line_closed_in_search Hin Hin); vm_compute; reflexivity.
Defined.

Lemma stepping_finds_the_goal_iff_reachable_witness :
  exists n r s',
    Step_until_done (heap := sorting_heap) n
      (InitializeStep (heap := sorting_heap) 0%nat 2%nat zero_heuristic line
         AStarGeneric_new) = Some (r, s') /\
    (r = PATH_FOUND \/ r = PATH_NOTFOUND) /\
    (r = PATH_FOUND <-> reachable line 0%nat 2%nat) /\
    (r = PATH_FOUND ->
     exists k fp c, (forall path, GetPath k path s' = Some fp) /\
                    path_between line 0%nat 2%nat fp c).
Proof.
  apply (stepping_finds_the_goal_iff_reachable (heap := sorting_heap) [0; 1; 2]%nat).
  - apply Claims.alloc_ok_new.
  - apply Claims.line_finite.
  - repeat constructor.
Defined.

End Extras.

Module CachedExtras.
Import Cached CachedSpec CachedFacts CachedReplay Examples Runs.

Section cached.
Context {NODETYPE : Type} `{EqDecision NODETYPE} {heap : StdHeap}.

Abbreviation astarnode := (@Cached.astarnode NODETYPE).
Abbreviation AStarGenericCached := (@Cached.AStarGenericCached NODETYPE).
Abbreviation cacheelement := (@Cached.cacheelement NODETYPE).
Abbreviation GETNEIGHBORS := (@Cached.GETNEIGHBORS NODETYPE).
Abbreviation DESTCOST := (@Cached.DESTCOST NODETYPE).


(** Property X9: [ClearCacheIndex(index)] empties the cache entry of
    [index] and no other, moves no entry, changes nothing but the cache,
    and a second call changes nothing. *)
Theorem ClearCacheIndex_clears_one_entry_only (index : Z) (s : AStarGenericCached) :
  (forall j, cache_entry (ClearCacheIndex index s) j
             = if bool_decide (j = index) then cacheelement_new else cache_entry s j) /\
  same_search s (ClearCacheIndex index s) /\
  m_cachestartindex (ClearCacheIndex index s) = m_cachestartindex s /\
  length (m_cache (ClearCacheIndex index s)) = length (m_cache s) /\
  ClearCacheIndex index (ClearCacheIndex index s) = ClearCacheIndex index s.
Proof.
  split; [intros j; apply ClearCacheIndex_entry|].
  unfold ClearCacheIndex, same_search.
  destruct ((m_cachestartindex s <=? index) && _) eqn:Hc.
  - simpl_cfields. unfold window_set. rewrite length_insert, Hc.
    split_and!; [done..|]. by rewrite list_insert_insert_eq.
  - rewrite Hc. split_and!; [|done..]. by rewrite with_cache_id.
Qed.

(** Property X10: after [ClearCache] no index has a cache entry, nothing
    but the cache has changed, and the expansion of the current node goes
    through the neighbour functor. *)
Theorem after_ClearCache_every_expansion_is_live
    (gn : GETNEIGHBORS) (s : AStarGenericCached) (u : ptr) (cur : astarnode) :
  m_currentnode s = Some u -> store s !! u = Some cur -> 0 <= m_index cur < 2 ^ 63 ->
  (forall j, cache_entry (ClearCache s) j = cacheelement_new) /\
  same_search s (ClearCache s) /\
  cache_hit (ClearCache s) (m_index cur) = Some false /\
  expand gn (ClearCache s) = add_neighbors (gn (m_node cur)) (ClearCache s).
Proof.
  intros Hu Hcur Hi.
  assert (Hrange : cache_in_range (ClearCache s)).
  { unfold cache_in_range, ClearCache. simpl_cfields. simpl. lia. }
  split_and!.
  - intros j. apply ClearCache_entry.
  - done.
  - rewrite cache_hit_spec by done. by rewrite ClearCache_entry.
  - apply (expand_live gn _ u cur); try done. by rewrite ClearCache_entry.
Qed.

(** Property X11: in [AStarGenericCached], expanding a state from a cache
    entry that holds what the neighbour functor reports has the effect of
    expanding it through the functor on an engine whose entry for that
    state is empty: the two results differ in the cache at most, the
    replay leaves the cache as it is, and the functor's run leaves the
    replayed entry in the empty one. *)
Theorem replaying_a_complete_entry_is_the_live_expansion
    (gn : GETNEIGHBORS) (s t : AStarGenericCached) (u : ptr) (cur : astarnode) :
  m_currentnode s = Some u -> store s !! u = Some cur -> safe_current s u ->
  cache_in_range s -> cache_in_range t -> 0 <= m_index cur < 2 ^ 63 ->
  cache_entry s (m_index cur) = recorded (gn (m_node cur)) ->
  same_search s t -> cache_entry t (m_index cur) = cacheelement_new ->
  option_Forall2 same_search (expand gn s) (expand gn t) /\
  (forall s', expand gn s = Some s' -> forall j, cache_entry s' j = cache_entry s j) /\
  (forall t', expand gn t = Some t' ->
     cache_entry t' (m_index cur) = cache_entry s (m_index cur) /\
     forall j, j <> m_index cur -> cache_entry t' j = cache_entry t j).
Proof.
  intros Hu Hcur Hsafe Hrs Hrt Hi Hentry Hst Hnew.
  assert (Hno : m_hascache (cache_entry t (m_index cur)) = false) by (by rewrite Hnew).
  assert (Hut : m_currentnode t = Some u) by (by rewrite Hst).
  assert (Hcurt : store t !! u = Some cur) by (by rewrite Hst).
  assert (Hsafet : safe_current t u) by (by rewrite Hst).
  split_and!.
  - by apply (expand_replay_live gn s t u cur).
  - intros s' Hexp j. unfold cache_entry.
    destruct (m_hascache (cache_entry s (m_index cur))) eqn:Hhas.
    + unfold expand, deref in Hexp. rewrite Hu in Hexp. cbn [mbind option_bind] in Hexp.
      rewrite Hcur in Hexp. cbn [mbind option_bind] in Hexp.
      rewrite cache_hit_spec in Hexp by done. cbn [mbind option_bind] in Hexp.
      rewrite Hhas, cache_entry_at in Hexp by done. cbn [mbind option_bind] in Hexp.
      by destruct (replay_cache _ _ _ u Hexp Hu Hsafe) as [-> ->].
    + rewrite (expand_live gn s u cur Hu Hcur Hrs Hi Hhas) in Hexp.
      rewrite Hentry in Hhas. cbn in Hhas. apply bool_decide_eq_false in Hhas.
      apply dec_stable in Hhas. rewrite Hhas in Hexp. by injection Hexp as <-.
  - intros t' Hexp. rewrite (expand_live gn t u cur Hut Hcurt Hrt Hi Hno) in Hexp.
    destruct (add_neighbors_cache _ _ _ u cur Hexp Hut Hcurt Hsafet) as [Hrec Hother].
    split; [|done]. rewrite Hrec, Hnew, Hentry. done.
Qed.

(** Property X12: also in [AStarGenericCached], after [FindPath] has
    returned [PATH_FOUND] the current node is null and [GetPath] yields
    the empty vector. *)
Theorem cached_GetPath_after_FindPath_is_empty
    (fuel : nat) (start : NODETYPE) (startindex : Z) (goal : NODETYPE)
    (finalpath fp : list NODETYPE) (dc : DESTCOST) (gn : GETNEIGHBORS)
    (s s' : AStarGenericCached) :
  FindPath fuel start startindex goal finalpath dc gn s = Some (PATH_FOUND, fp, s') ->
  m_currentnode s' = None /\ forall k path, GetPath k path s' = Some [].
Proof.
  intros Hfind. rewrite FindPath_unfold_cached in Hfind.
  apply bind_Some in Hfind as (s1 & _ & Hloop).
  apply FindPath_loop_found_cached in Hloop.
  split; [done|]. intros k path. unfold GetPath. rewrite Hloop.
  apply walk_parents_null_cached.
Qed.

(** Property X17: in [AStarGenericCached] too, [InitializeStep] followed by
    [Step] until it returns something other than [PATH_SEARCHING] ends
    with the result code of [FindPath] on the same input and the same
    cache, and after [PATH_FOUND] [GetPath] yields the [finalpath] of
    [FindPath]; each of the two runs returns exactly when the other
    does. *)
Theorem cached_stepping_matches_FindPath
    (start : NODETYPE) (startindex : Z) (goal : NODETYPE) (finalpath : list NODETYPE)
    (dc : DESTCOST) (gn : GETNEIGHBORS) (s : AStarGenericCached)
    (r : PathResult) (fp : list NODETYPE) :
  (exists fuel s',
     FindPath fuel start startindex goal finalpath dc gn s = Some (r, fp, s')) <->
  (exists n s0 s',
     InitializeStep start startindex goal dc gn s = Some s0 /\
     Step_until_done n s0 = Some (r, s') /\
     match r with
     | PATH_FOUND => exists k, forall path, GetPath k path s' = Some fp
     | _ => fp = finalpath
     end).
Proof. apply CachedStep.stepping_FindPath_cached. Qed.
End cached.

Lemma cached_revisit_safe : safe_current cached_revisit 2%nat.
Proof.
  split_and!.
  - vm_compute. intros Hin. apply elem_of_cons in Hin as [[=]|Hin].
    apply elem_of_cons in Hin as [[=]|Hin]. by apply elem_of_nil in Hin.
  - vm_compute. lia.
  - vm_compute. repeat constructor. intros [=].
Qed.

Lemma after_ClearCache_every_expansion_is_live_witness :
  cache_hit (ClearCache cached_revisit) 1 = Some false /\
  expand (heap := sorting_heap) line_indexed (ClearCache cached_revisit)
  = add_neighbors (heap := sorting_heap) (line_indexed 1%nat) (ClearCache cached_revisit).
Proof.
  destruct (after_ClearCache_every_expansion_is_live (heap := sorting_heap) line_indexed
              cached_revisit 2%nat
              {| m_node := 1%nat; m_parent := None; m_f := 0; m_g := 0; m_h := 0;
                 m_index := 1 |})
    as (_ & _ & Hhit & Hlive).
  - vm_compute. reflexivity.
  - vm_compute. reflexivity.
  - simpl. lia.
  - by split.
Defined.

Lemma replaying_a_complete_entry_is_the_live_expansion_witness :
  cache_entry cached_revisit 1 = recorded (line_indexed 1%nat) /\
  option_Forall2 same_search
    (expand (heap := sorting_heap) line_indexed cached_revisit)
    (expand (heap := sorting_heap) line_indexed (ClearCacheIndex 1 cached_revisit)).
Proof.
  assert (Hold : cache_entry cached_revisit 1 = recorded (line_indexed 1%nat))
    by (vm_compute; reflexivity).
  split; [exact Hold|].
  apply (replaying_a_complete_entry_is_the_live_expansion (heap := sorting_heap) line_indexed
           cached_revisit (ClearCacheIndex 1 cached_revisit) 2%nat
           {| m_node := 1%nat; m_parent := None; m_f := 0; m_g := 0; m_h := 0;
              m_index := 1 |}).
  - vm_compute. reflexivity.
  - vm_compute. reflexivity.
  - apply cached_revisit_safe.
  - split; vm_compute; [by intros [=]|reflexivity].
  - split; vm_compute; [by intros [=]|reflexivity].
  - simpl. lia.
  - exact Hold.
  - unfold same_search. vm_compute. reflexivity.
  - vm_compute. reflexivity.
Defined.

Lemma cached_GetPath_after_FindPath_is_empty_witness :
  FindPath (heap := sorting_heap) 10 0%nat 0 2%nat [] zero_heuristic line_indexed
    AStarGenericCached_new = Some (PATH_FOUND, [2; 1; 0]%nat, cached_warm) /\
  GetPath 5 [4%nat] cached_warm = Some [].
Proof.
  assert (H1 : FindPath (heap := sorting_heap) 10 0%nat 0 2%nat [] zero_heuristic
                 line_indexed AStarGenericCached_new
               = Some (PATH_FOUND, [2; 1; 0]%nat, cached_warm))
    by (vm_compute; reflexivity).
  split; [exact H1|].
  exact (proj2 (cached_GetPath_after_FindPath_is_empty (heap := sorting_heap) 10 0%nat 0
                  2%nat [] [2; 1; 0]%nat zero_heuristic line_indexed AStarGenericCached_new
                  cached_warm H1) 5%nat [4%nat]).
Defined.
End CachedExtras.

Module TileExtras.
Import Tile8Dir Tile8DirFacts Examples Runs.

Section tile.
Context {heap : StdHeap}.

(** Property X13: positions whose column lies within the map width have
    helper-list and cache indices of their own; a column one map width
    further right gets the index of the position one row down. *)
Theorem positions_in_range_have_an_index_of_their_own
    (s : AStarTile8DirCached) (a b : position) :
  0 <= a.1 < m_mapwidth s -> 0 <= b.1 < m_mapwidth s ->
  (index_of s a = index_of s b <-> a = b) /\
  index_of s (a.1 + m_mapwidth s, a.2) = index_of s (a.1, a.2 + 1).
Proof.
  intros Ha Hb. destruct a as [x1 y1], b as [x2 y2]. unfold index_of. simpl in *.
  split; [|lia]. split; [|by intros [= -> ->]].
  intros Heq. assert (y1 = y2) as -> by nia. f_equal. lia.
Qed.

(** Property X14: [SetMapWidth] with the width the engine has changes
    nothing; with another width it sets the width and empties the cache,
    so that no index has a cache entry; the node records and the lists
    stay, and a second call with the same width changes nothing. *)
Theorem SetMapWidth_drops_the_cache_when_the_width_changes
    (width : Z) (s : AStarTile8DirCached) :
  m_mapwidth (SetMapWidth width s) = width /\
  (width = m_mapwidth s -> SetMapWidth width s = s) /\
  (width <> m_mapwidth s ->
     m_cache (SetMapWidth width s) = [] /\ m_cachestartindex (SetMapWidth width s) = 0 /\
     forall index, cache_hit (SetMapWidth width s) index = Some false) /\
  store (SetMapWidth width s) = store s /\
  m_openlist (SetMapWidth width s) = m_openlist s /\
  m_closedlist (SetMapWidth width s) = m_closedlist s /\
  m_helperlist (SetMapWidth width s) = m_helperlist s /\
  SetMapWidth width (SetMapWidth width s) = SetMapWidth width s.
Proof.
  unfold SetMapWidth. case_bool_decide as Hw.
  - unfold ClearCache. simpl_tfields. rewrite bool_decide_eq_false_2 by (intros Hne; by apply Hne).
    split_and!; try done. intros _. split_and!; [done..|].
    intros index. unfold cache_hit. simpl_tfields. unfold to_size_t. simpl.
    destruct (0 <=? index); simpl; [|done].
    rewrite (proj2 (Z.ltb_ge _ _)); [done|]. apply Z.mod_pos_bound. lia.
  - rewrite bool_decide_eq_false_2 by (intros Hne; by apply Hne).
    split_and!; done.
Qed.

(** Property X15: in [AStarTile8DirCached], a neighbour that is closed
    when a position is expanded for the first time is neither relaxed nor
    appended to the position's cache entry: the cache, the node records
    and the open list stay as they are. *)
Theorem a_closed_neighbor_is_not_recorded
    (movecost : MOVECOST) (destinationcost : DESTCOST) (goal : position)
    (currentnode : ptr) (currentnodeindex : Z) (pos : position) (s : AStarTile8DirCached) :
  m_onclosed (window_get listelement_new (m_helperlist s) (m_helperliststartindex s)
                (index_of s pos)) = true ->
  live_neighbor movecost destinationcost goal currentnode currentnodeindex pos s
    = Some (hl (index_of s pos) s) /\
  m_cache (hl (index_of s pos) s) = m_cache s /\
  m_cachestartindex (hl (index_of s pos) s) = m_cachestartindex s /\
  store (hl (index_of s pos) s) = store s /\
  m_openlist (hl (index_of s pos) s) = m_openlist s.
Proof.
  intros Hcl. unfold live_neighbor. cbv zeta.
  assert (Hidx : index_of (hl (index_of s pos) s) pos = index_of s pos).
  { rewrite hl_eq_tile. done. }
  rewrite Hidx.
  assert (Hat : helper_at (hl (index_of s pos) s) (index_of s pos)
                = Some (window_get listelement_new (m_helperlist s)
                          (m_helperliststartindex s) (index_of s pos))).
  { rewrite hl_eq_tile. unfold helper_at. simpl_tfields.
    rewrite (window_at_get listelement_new) by apply window_grow_covers.
    by rewrite window_grow_get. }
  rewrite Hat. cbn [mbind option_bind]. rewrite Hcl.
  split_and!; [done|..]; by rewrite hl_eq_tile.
Qed.

(** Property X16: [ClearCachePosition(pos)] empties the cache entry of
    the index of [pos] and no other, and changes nothing but the cache. *)
Theorem ClearCachePosition_clears_the_entry_of_the_position
    (pos : position) (s : AStarTile8DirCached) :
  (forall j,
     window_get cacheelement_new (m_cache (ClearCachePosition pos s))
       (m_cachestartindex (ClearCachePosition pos s)) j
     = if bool_decide (j = index_of s pos) then cacheelement_new
       else window_get cacheelement_new (m_cache s) (m_cachestartindex s) j) /\
  length (m_cache (ClearCachePosition pos s)) = length (m_cache s) /\
  m_cachestartindex (ClearCachePosition pos s) = m_cachestartindex s /\
  m_mapwidth (ClearCachePosition pos s) = m_mapwidth s /\
  store (ClearCachePosition pos s) = store s /\
  m_openlist (ClearCachePosition pos s) = m_openlist s /\
  m_closedlist (ClearCachePosition pos s) = m_closedlist s /\
  m_helperlist (ClearCachePosition pos s) = m_helperlist s.
Proof.
  unfold ClearCachePosition. cbv zeta.
  destruct ((m_cachestartindex s <=? index_of s pos) && _) eqn:Hc; simpl_tfields.
  - apply andb_true_iff in Hc as [H1%Z.leb_le H2%Z.ltb_lt].
    split_and!; [|by unfold window_set; rewrite length_insert|done..].
    intros j. apply window_set_get. unfold window_covers. lia.
  - split_and!; [|done..]. intros j. case_bool_decide as Hj; [|done]. subst j.
    apply window_get_out.
    apply andb_false_iff in Hc as [Hc%Z.leb_gt|Hc%Z.ltb_ge]; lia.
Qed.
End tile.

Lemma positions_in_range_have_an_index_of_their_own_witness :
  (index_of tile_start_closed (5, 5) = index_of tile_start_closed (6, 5)
   <-> (5, 5) = ((6, 5) : position)) /\
  index_of tile_start_closed (5 + m_mapwidth tile_start_closed, 5)
  = index_of tile_start_closed (5, 5 + 1).
Proof.
  apply (positions_in_range_have_an_index_of_their_own tile_start_closed (5, 5) (6, 5));
    vm_compute; by split.
Defined.

Lemma SetMapWidth_drops_the_cache_when_the_width_changes_witness :
  SetMapWidth 100 tile_warm = tile_warm /\ m_cache (SetMapWidth 80 tile_warm) = [].
Proof.
  destruct (SetMapWidth_drops_the_cache_when_the_width_changes 100 tile_warm)
    as (_ & Hsame & _).
  destruct (SetMapWidth_drops_the_cache_when_the_width_changes 80 tile_warm)
    as (_ & _ & Hother & _).
  split.
  - apply Hsame. vm_compute. reflexivity.
  - apply Hother. vm_compute. discriminate.
Defined.

Lemma a_closed_neighbor_is_not_recorded_witness :
  live_neighbor (heap := sorting_heap) tile_movecost tile_heuristic (7, 5) 0%nat 505 (5, 5)
    tile_start_closed
  = Some (hl (index_of tile_start_closed (5, 5)) tile_start_closed).
Proof.
  apply (a_closed_neighbor_is_not_recorded (heap := sorting_heap) tile_movecost
           tile_heuristic (7, 5) 0%nat 505 (5, 5) tile_start_closed).
  vm_compute. reflexivity.
Defined.
End TileExtras.
